(** * Union-find and depth-first labelling of OpenPNM's graph theory utilities

    Shallow embedding of [OpenPNM/Utilities/__graphTheoAlgs__.py]:
    the class [quick_union_algs] (root finding with and without path
    compression, quick union, weighted quick union) and the class
    [depth_first_search_alg] (recursive connected-component labelling).

    NumPy arrays of integers are [list Z]; NumPy's integer indexing
    (negative indices count from the end, anything else outside the array
    raises [IndexError]) is written out in [np_index].  Python [while]
    loops take a [fuel] argument counting iterations of their body: running
    out of fuel is [Diverge] (the Python loop has not finished).  The
    recursion of the depth-first visit takes a [depth] argument: Python's
    recursion limit, past which it raises [RecursionError]. *)

From Stdlib Require Import ZArith Lia String Sorting.Sorted.
From stdpp Require Import base list.

Open Scope string_scope.
Open Scope Z_scope.

(* ------------------------------------------------------------------ *)
(** ** Python outcomes *)

Inductive exn : Type :=
| IndexError
| ValueError
| TypeError
| Exception (msg : string)
| RecursionError.

(** A computation on a state [S] finishes with a value, raises with the
    state as it was when raising (mutations done before the raise stay),
    or does not finish. *)
Inductive outcome (S A : Type) : Type :=
| Ok (s : S) (a : A)
| Raise (s : S) (e : exn)
| Diverge.
Arguments Ok {S A} s a.
Arguments Raise {S A} s e.
Arguments Diverge {S A}.

(* ------------------------------------------------------------------ *)
(** ** NumPy integer arrays *)

(** [a[v]] on an array of length [n]: the position read, or [None] for an
    [IndexError]. *)
Definition np_index (n v : Z) : option nat :=
  if (0 <=? v) && (v <? n) then Some (Z.to_nat v)
  else if (- n <=? v) && (v <? 0) then Some (Z.to_nat (n + v))
  else None.

Definition np_len (a : list Z) : Z := Z.of_nat (length a).

(** Scalar read [a[v]]. *)
Definition np_get (a : list Z) (v : Z) : option Z :=
  match np_index (np_len a) v with
  | Some i => a !! i
  | None => None
  end.

(** Fancy read [a[idx]] with an integer index array. *)
Fixpoint np_take (a : list Z) (idx : list Z) : option (list Z) :=
  match idx with
  | [] => Some []
  | v :: idx' =>
      match np_get a v, np_take a idx' with
      | Some x, Some xs => Some (x :: xs)
      | _, _ => None
      end
  end.

Fixpoint np_positions (n : Z) (idx : list Z) : option (list nat) :=
  match idx with
  | [] => Some []
  | v :: idx' =>
      match np_index n v, np_positions n idx' with
      | Some i, Some is => Some (i :: is)
      | _, _ => None
      end
  end.

Fixpoint write_all (a : list Z) (ws : list (nat * Z)) : list Z :=
  match ws with
  | [] => a
  | (i, x) :: ws' => write_all (<[i := x]> a) ws'
  end.

(** The value array of a fancy write [a[idx] = vals], broadcast to the
    length [n] of [idx]: kept when it has that length, repeated when it has
    one element, and refused otherwise (NumPy's [ValueError: shape
    mismatch]). *)
Definition np_broadcast (n : nat) (vals : list Z) : option (list Z) :=
  if Nat.eqb (length vals) n then Some vals
  else match vals with
       | [x] => Some (repeat x n)
       | _ => None
       end.

(** Fancy write [a[idx] = vals] with [vals] already of the length of
    [idx]: the indices are checked first, then the values are stored in
    index order (a repeated index keeps the last value). *)
Definition np_put (a : list Z) (idx vals : list Z) : option (list Z) :=
  match np_positions (np_len a) idx with
  | Some is => Some (write_all a (zip is vals))
  | None => None
  end.

(** [sp.any(v != w)] on arrays of one length (the loops only compare
    [v] with [id[v]]). *)
Definition np_any_ne (v w : list Z) : bool :=
  existsb (fun '(x, y) => negb (x =? y)) (zip v w).

(** [sp.all(v == w)]: [==] compares element by element after broadcasting
    a side of length one to the length of the other.  For two other
    lengths that differ, the NumPy of this code gives the scalar [False]
    (later versions raise [ValueError]); either way the write [id[v] = w]
    that follows in [build_quick_union] raises [ValueError] before storing
    anything, so both end in the same state. *)
Definition np_all_eq (v w : list Z) : bool :=
  let n := if Nat.eqb (length v) 1 then length w else length v in
  match np_broadcast n v, np_broadcast n w with
  | Some v', Some w' => forallb (fun '(x, y) => x =? y) (zip v' w')
  | _, _ => false
  end.

(** [sp.arange(n)]. *)
Definition np_arange (n : nat) : list Z := map Z.of_nat (seq 0 n).

(* ------------------------------------------------------------------ *)
(** ** The loops of [_root] and [_root_path_compression]

    Each works on the parents array [p] ([self.id_updated]). *)

(** [while sp.any(v_i != self.id_updated[v_i]): v_i = self.id_updated[v_i]] *)
Fixpoint root_while (fuel : nat) (p v : list Z) : outcome (list Z) (list Z) :=
  match np_take p v with
  | None => Raise p IndexError
  | Some pv =>
      if np_any_ne v pv then
        match fuel with
        | O => Diverge
        | S f => root_while f p pv
        end
      else Ok p v
  end.

(** The [path_halving] loop:
<<
    while ( sp.any(v_j != self.id_updated[v_j]) ):
        self.id_updated[v_j] = self.id_updated[self.id_updated[v_j]]
        v_j = self.id_updated[v_j]
>> *)
Fixpoint halving_while (fuel : nat) (p v_j : list Z)
  : outcome (list Z) (list Z) :=
  match np_take p v_j with
  | None => Raise p IndexError
  | Some pv =>
      if np_any_ne v_j pv then
        match fuel with
        | O => Diverge
        | S f =>
            match np_take p pv with
            | None => Raise p IndexError
            | Some gpv =>
                match np_put p v_j gpv with
                | None => Raise p IndexError
                | Some p' =>
                    match np_take p' v_j with
                    | None => Raise p' IndexError
                    | Some v_j' => halving_while f p' v_j'
                    end
                end
            end
        end
      else Ok p v_j
  end.

(** The second loop of [full_pc]:
<<
    while ( sp.any(v_i != v_j) ):
        v_j_new = self.id_updated[v_i]
        self.id_updated[v_i] = v_j
        v_i = v_j_new
>>
    It returns the final [v_i]. *)
Fixpoint full_while (fuel : nat) (p v_i v_j : list Z)
  : outcome (list Z) (list Z) :=
  if np_any_ne v_i v_j then
    match fuel with
    | O => Diverge
    | S f =>
        match np_take p v_i with
        | None => Raise p IndexError
        | Some v_j_new =>
            match np_put p v_i v_j with
            | None => Raise p IndexError
            | Some p' => full_while f p' v_j_new v_j
            end
        end
    end
  else Ok p v_i.

(** Body of [_root_path_compression(v_i, pc_type)] on the parents array. *)
Definition root_path_compression (fuel : nat) (p v_i : list Z) (pc_type : string)
  : outcome (list Z) (list Z) :=
  if String.eqb pc_type "path_halving" then halving_while fuel p v_i
  else if String.eqb pc_type "full_pc" then
    match root_while fuel p v_i with
    | Ok p1 v_j =>
        match full_while fuel p1 v_i v_j with
        | Ok p2 _ => Ok p2 v_j
        | Raise p2 e => Raise p2 e
        | Diverge => Diverge
        end
    | Raise p1 e => Raise p1 e
    | Diverge => Diverge
    end
  else Ok p v_i.

(* ------------------------------------------------------------------ *)
(** ** The engine [quick_union_algs] *)

(** [self.roots] is only ever bound by [self.roots=self.id_updated], which
    makes it the same NumPy array as [self.id_updated]; a user may also bind
    it to an array of its own. *)
Inductive roots_attr : Type :=
| RootsAliasId
| RootsArray (r : list Z).

(** Instance attributes; [None] is an attribute not set yet.  [size] is
    the two-row array [sp.array(sp.unique(self.roots,return_counts=True))]. *)
Record quick_union_algs : Type := mk_quick_union_algs {
  id_updated : list Z;
  roots : option roots_attr;
  size : option (list Z * list Z)
}.

(** [quick_union_algs(parents_array)] *)
Definition init (parents_array : list Z) : quick_union_algs :=
  mk_quick_union_algs parents_array None None.

Definition set_id (st : quick_union_algs) (p : list Z) : quick_union_algs :=
  mk_quick_union_algs p st.(roots) st.(size).

(** State and exception monad over the instance. *)
Definition M (A : Type) : Type := quick_union_algs -> outcome quick_union_algs A.

Definition ret {A} (a : A) : M A := fun st => Ok st a.

Definition bind {A B} (m : M A) (k : A -> M B) : M B :=
  fun st =>
    match m st with
    | Ok st' a => k a st'
    | Raise st' e => Raise st' e
    | Diverge => Diverge
    end.

Notation "'let*' x ':=' m 'in' k" := (bind m (fun x => k))
  (at level 200, x name, m at level 100, k at level 200).

Definition raise {A} (e : exn) : M A := fun st => Raise st e.
Definition get : M quick_union_algs := fun st => Ok st st.
Definition put (st : quick_union_algs) : M unit := fun _ => Ok st tt.

(** Runs a computation on [self.id_updated]. *)
Definition on_id {A} (f : list Z -> outcome (list Z) A) : M A :=
  fun st =>
    match f st.(id_updated) with
    | Ok p a => Ok (set_id st p) a
    | Raise p e => Raise (set_id st p) e
    | Diverge => Diverge
    end.

(** [self.id_updated[idx] = vals]: [vals] is broadcast to the length of
    [idx], then the write checks the indices. *)
Definition set_id_items (idx vals : list Z) : M unit :=
  on_id (fun p =>
    match np_broadcast (length idx) vals with
    | None => Raise p ValueError
    | Some vals' =>
        match np_put p idx vals' with
        | Some p' => Ok p' tt
        | None => Raise p IndexError
        end
    end).

(** [_root(self, v_i)] *)
Definition _root (fuel : nat) (v_i : list Z) : M (list Z) :=
  on_id (fun p => root_while fuel p v_i).

(** [_root_path_compression(self, v_i, pc_type)] *)
Definition _root_path_compression (fuel : nat) (v_i : list Z) (pc_type : string)
  : M (list Z) :=
  on_id (fun p => root_path_compression fuel p v_i pc_type).

(** [find_root(self, elements_to_test, path_compression, path_compression_type)]:
    the right-hand side is evaluated, then stored at [elements_to_test];
    the method returns [None]. *)
Definition find_root (fuel : nat) (elements_to_test : list Z)
    (path_compression : bool) (path_compression_type : string) : M unit :=
  if path_compression then
    let* r := _root_path_compression fuel elements_to_test path_compression_type in
    set_id_items elements_to_test r
  else
    let* r := _root fuel elements_to_test in
    set_id_items elements_to_test r.

(** [build_quick_union(self, minor, main, path_compression, path_compression_type)] *)
Definition build_quick_union (fuel : nat) (minor main : list Z)
    (path_compression : bool) (path_compression_type : string) : M unit :=
  let* i := (if path_compression
             then _root_path_compression fuel minor path_compression_type
             else _root fuel minor) in
  let* j := (if path_compression
             then _root_path_compression fuel main path_compression_type
             else _root fuel main) in
  if np_all_eq i j then ret tt
  else set_id_items i j.

(* ------------------------------------------------------------------ *)
(** ** Keyword calls of [find_root] *)

(** Python values passed as keyword arguments. *)
Inductive pyarg : Type :=
| ArgIds (l : list Z)
| ArgBool (b : bool)
| ArgStr (s : string).

Definition find_root_params : list string :=
  ["elements_to_test"; "path_compression"; "path_compression_type"].

Fixpoint kw_lookup (k : string) (kws : list (string * pyarg)) : option pyarg :=
  match kws with
  | [] => None
  | (k', a) :: kws' => if String.eqb k k' then Some a else kw_lookup k kws'
  end.

(** [self.find_root(k1=a1, k2=a2, ...)]: a keyword that names no parameter
    of [find_root] raises [TypeError] before the body runs. *)
Definition call_find_root (fuel : nat) (kws : list (string * pyarg)) : M unit :=
  if forallb (fun kw => existsb (String.eqb (fst kw)) find_root_params) kws then
    let ids := match kw_lookup "elements_to_test" kws with
               | Some (ArgIds l) => l | _ => [] end in
    let pc := match kw_lookup "path_compression" kws with
              | Some (ArgBool b) => b | _ => true end in
    let pct := match kw_lookup "path_compression_type" kws with
               | Some (ArgStr s) => s | _ => "path_halving" end in
    find_root fuel ids pc pct
  else raise TypeError.

(* ------------------------------------------------------------------ *)
(** ** [build_weighted_quick_union] *)

(** Python values received as [minor] and [main]. *)
Inductive pyval : Type :=
| PyInt (z : Z)
| PyBool (b : bool)
| NpInt64 (z : Z)
| PyList (l : list Z).

(** [type(v) == int] *)
Definition type_is_int (v : pyval) : bool :=
  match v with PyInt _ => true | _ => false end.

(** A scalar index behaves as the one-element batch in the loops of
    [_root] and [_root_path_compression]. *)
Definition scalar_of (v : Z) (r : list Z) : Z :=
  match r with [x] => x | _ => v end.

(** [sp.unique(a, return_counts=True)]: sorted distinct values, counts. *)
Fixpoint insert_sorted (x : Z) (l : list Z) : list Z :=
  match l with
  | [] => [x]
  | y :: l' => if x <? y then x :: l else if x =? y then l else y :: insert_sorted x l'
  end.

Definition np_unique (a : list Z) : list Z := fold_right insert_sorted [] a.

Definition np_unique_counts (a : list Z) : list Z * list Z :=
  let u := np_unique a in
  (u, map (fun x => Z.of_nat (length (filter (fun y => x =? y) a))) u).

(** [sp.where(row == x)[0]] *)
Definition np_where_eq (row : list Z) (x : Z) : list Z :=
  map fst (filter (fun kv => snd kv =? x) (zip (np_arange (length row)) row)).

(** [int(a)]: only a one-element array converts. *)
Definition py_int (a : list Z) : M Z :=
  match a with [k] => ret k | _ => raise TypeError end.

Definition get_size : M (list Z * list Z) :=
  fun st => match st.(size) with
            | Some s => Ok st s
            | None => Raise st (Exception "AttributeError: size")
            end.

Definition set_size (s : list Z * list Z) : M unit :=
  fun st => Ok (mk_quick_union_algs st.(id_updated) st.(roots) (Some s)) tt.

Definition set_roots (r : roots_attr) : M unit :=
  fun st => Ok (mk_quick_union_algs st.(id_updated) (Some r) st.(size)) tt.

(** The array [self.roots] currently denotes. *)
Definition roots_array (st : quick_union_algs) : option (list Z) :=
  match st.(roots) with
  | Some RootsAliasId => Some st.(id_updated)
  | Some (RootsArray r) => Some r
  | None => None
  end.

(** [self.roots[ self.roots == x ] = y], through the alias if any. *)
Definition replace_in_roots (x y : Z) : M unit :=
  fun st =>
    let f := map (fun r => if r =? x then y else r) in
    match st.(roots) with
    | Some RootsAliasId => Ok (set_id st (f st.(id_updated))) tt
    | Some (RootsArray r) =>
        Ok (mk_quick_union_algs st.(id_updated) (Some (RootsArray (f r))) st.(size)) tt
    | None => Raise st (Exception "AttributeError: roots")
    end.

(** [self.size[1,keep] += self.size[1,drop]] then
    [self.size = sp.delete(self.size,drop,axis=1)]; both indices come from
    [sp.where] and are positions of the array. *)
Definition merge_size (s : list Z * list Z) (keep drop : Z) : list Z * list Z :=
  let '(vals, counts) := s in
  let k := Z.to_nat keep in
  let d := Z.to_nat drop in
  let counts' := <[k := (counts !!! k) + (counts !!! d)]> counts in
  (delete d vals, delete d counts').

(** The size table built when [self.size] does not exist; [kw] is the
    keyword the source passes for the compression type. *)
Definition build_size (fuel : nat) (kw : string) (path_compression : bool)
    (path_compression_type : string) : M unit :=
  let* st := get in
  let* _ :=
    (match roots_array st with
     | Some r =>
         if Nat.eqb (length r) (length st.(id_updated)) then ret tt
         else
           let* _ := call_find_root fuel
                       [("elements_to_test", ArgIds (np_arange (length st.(id_updated))));
                        ("path_compression", ArgBool path_compression);
                        (kw, ArgStr path_compression_type)] in
           set_roots RootsAliasId
     | None =>
         let* _ := call_find_root fuel
                     [("elements_to_test", ArgIds (np_arange (length st.(id_updated))));
                      ("path_compression", ArgBool path_compression);
                      (kw, ArgStr path_compression_type)] in
         set_roots RootsAliasId
     end) in
  let* st' := get in
  match roots_array st' with
  | Some r => set_size (np_unique_counts r)
  | None => raise (Exception "AttributeError: roots")
  end.

Definition build_weighted_quick_union_kw (kw : string) (fuel : nat) (minor main : pyval)
    (path_compression : bool) (path_compression_type : string) : M unit :=
  match minor, main with
  | PyInt a, PyInt b =>
      let* ri := (if path_compression
                  then _root_path_compression fuel [a] path_compression_type
                  else _root fuel [a]) in
      let* rj := (if path_compression
                  then _root_path_compression fuel [b] path_compression_type
                  else _root fuel [b]) in
      let i := scalar_of a ri in
      let j := scalar_of b rj in
      if i =? j then ret tt
      else
        let* st := get in
        let* _ := (match st.(size) with
                   | Some _ => ret tt
                   | None => build_size fuel kw path_compression path_compression_type
                   end) in
        let* s := get_size in
        let* i_index := py_int (np_where_eq (fst s) i) in
        let i_size := (snd s) !!! Z.to_nat i_index in
        let* j_index := py_int (np_where_eq (fst s) j) in
        let j_size := (snd s) !!! Z.to_nat j_index in
        if i_size <=? j_size then
          let* _ := set_id_items [i] [j] in
          let* _ := replace_in_roots i j in
          set_size (merge_size s j_index i_index)
        else
          let* _ := set_id_items [j] [i] in
          let* _ := replace_in_roots j i in
          set_size (merge_size s i_index j_index)
  | _, _ => raise (Exception "Received ids must be of type int")
  end.

(** [build_weighted_quick_union(self, minor, main, path_compression,
    path_compression_type)]: the size table is built through
    [self.find_root(..., pc_type=path_compression_type)]. *)
Definition build_weighted_quick_union : nat -> pyval -> pyval -> bool -> string -> M unit :=
  build_weighted_quick_union_kw "pc_type".

Definition scenario : list Z := [0; 0; 0; 3; 3; 3; 9; 7; 9; 4; 8].


(* ------------------------------------------------------------------ *)
(** ** [depth_first_search_alg] *)

(** [self.adj_list[k]] *)
Definition adj_get (adj_list : list (list Z)) (k : Z) : option (list Z) :=
  match np_index (Z.of_nat (length adj_list)) k with
  | Some i => adj_list !! i
  | None => None
  end.

(** The loop [for x in (self.adj_list[k]): if (val[x]==-1): visit(x)],
    with [visit] the nested call and [r] the current [self.roots]. *)
Fixpoint visit_neighbours (visit : Z -> list Z -> outcome (list Z) unit)
    (xs : list Z) (r : list Z) : outcome (list Z) unit :=
  match xs with
  | [] => Ok r tt
  | x :: xs' =>
      match np_get r x with
      | None => Raise r IndexError
      | Some vx =>
          if vx =? -1 then
            match visit x r with
            | Ok r' _ => visit_neighbours visit xs' r'
            | Raise r' e => Raise r' e
            | Diverge => Diverge
            end
          else visit_neighbours visit xs' r
      end
  end.

(** [_visit_for_depth_first_search(self, val, now, k)]; [val] is always
    [self.roots], the array threaded here.  [depth] is the number of
    nested calls Python still allows. *)
Fixpoint _visit_for_depth_first_search (depth : nat) (adj_list : list (list Z))
    (now k : Z) (roots : list Z) : outcome (list Z) unit :=
  match depth with
  | O => Raise roots RecursionError
  | S d =>
      match np_put roots [k] [now] with
      | None => Raise roots IndexError
      | Some roots1 =>
          match adj_get adj_list k with
          | None => Raise roots1 IndexError
          | Some nbrs =>
              visit_neighbours (fun x r => _visit_for_depth_first_search d adj_list now x r)
                nbrs roots1
          end
      end
  end.

(** [for i in range(len(self.adj_list)): if (self.roots[i]==-1): now+=1; ...] *)
Fixpoint dfs_outer (depth : nat) (adj_list : list (list Z)) (is : list nat)
    (now : Z) (roots : list Z) : outcome (list Z) unit :=
  match is with
  | [] => Ok roots tt
  | i :: is' =>
      match roots !! i with
      | None => Raise roots IndexError
      | Some ri =>
          if ri =? -1 then
            match _visit_for_depth_first_search depth adj_list (now + 1) (Z.of_nat i) roots with
            | Ok r _ => dfs_outer depth adj_list is' (now + 1) r
            | Raise r e => Raise r e
            | Diverge => Diverge
            end
          else dfs_outer depth adj_list is' now roots
      end
  end.

(** [depth_first_search(self)]: returns [self.roots]. *)
Definition depth_first_search (depth : nat) (adj_list : list (list Z))
  : outcome (list Z) (list Z) :=
  let n := length adj_list in
  match dfs_outer depth adj_list (seq 0 n) (-1) (repeat (-1) n) with
  | Ok r _ => Ok r r
  | Raise r e => Raise r e
  | Diverge => Diverge
  end.

Definition scenario_adj : list (list Z) :=
  [[1; 2]; [0]; [0]; [4; 5]; [3; 9]; [3]; [9]; []; [9; 10]; [4; 6; 8]; [8]].

(* ------------------------------------------------------------------ *)
(** ** Forests *)

(** Parent of an in-range vertex [v] in the parents array [p]. *)
Definition par (p : list Z) (v : Z) : Z :=
  match p !! Z.to_nat v with Some x => x | None => v end.

Fixpoint iter_par (p : list Z) (k : nat) (v : Z) : Z :=
  match k with O => v | S k' => iter_par p k' (par p v) end.

Definition in_range (p : list Z) (v : Z) : Prop := 0 <= v < np_len p.

Definition is_root (p : list Z) (v : Z) : Prop := par p v = v.

(** The root reached from [v]: [len(p)] parent steps. *)
Definition root_of (p : list Z) (v : Z) : Z := iter_par p (length p) v.

(** [p] encodes a forest: every parent is a vertex and every vertex reaches
    a self-parented root by following parents. *)
Definition forestb (p : list Z) : bool :=
  forallb (fun v => (0 <=? par p v) && (par p v <? np_len p)
                    && (par p (root_of p v) =? root_of p v))
          (np_arange (length p)).

Definition forest (p : list Z) : Prop := forestb p = true.

(** An engine built by the constructor and changed only by its own
    methods: [self.roots] and [self.size] are never bound, since
    [build_weighted_quick_union] raises before binding them. *)
Definition fresh (st : quick_union_algs) : Prop :=
  st.(roots) = None /\ st.(size) = None.

(** The [path_compression_type] values the class documents. *)
Definition pc_mode (pct : string) : Prop :=
  pct = "path_halving" \/ pct = "full_pc".

(* ------------------------------------------------------------------ *)
(** ** Predicates of the proofs *)

(** A compression step: every vertex now points at one of its proper
    ancestors (a root at itself). *)
Definition ancestor_write (p p' : list Z) : Prop :=
  length p' = length p /\
  forall v, in_range p v -> exists m, (1 <= m)%nat /\ par p' v = iter_par p m v.

(** A linking step: only roots change, each to a vertex that is a root
    of the new array. *)
Definition root_write (p p' : list Z) : Prop :=
  length p' = length p /\
  forall v, in_range p v ->
    par p' v = par p v \/
    (is_root p v /\ in_range p (par p' v) /\ is_root p' (par p' v)).

(** The loop measure: each element reaches a root within the remaining
    iterations. *)
Definition within (p : list Z) (fuel : nat) (v : list Z) : Prop :=
  Forall (fun e => in_range p e /\ is_root p (iter_par p fuel e)) v.

(** The vertex already points at its root. *)
Definition flat (p : list Z) (x : Z) : Prop := par p x = root_of p x.

(** The pairs [(i_k, j_k)] that [self.id_updated[i] = j] stores: [j]
    broadcast to the length of [i]; none when it cannot be. *)
Definition link_pairs (i j : list Z) : list (Z * Z) :=
  match np_broadcast (length i) j with Some j' => zip i j' | None => [] end.

(** The entry a batch write of the pairs [ps] leaves at [r]: the value of
    the last pair at [r] (NumPy keeps the last write), or [r] itself when
    no pair is at [r]. *)
Definition link_target (ps : list (Z * Z)) (r : Z) : Z :=
  fold_left (fun t ab => if ab.1 =? r then ab.2 else t) ps r.

(** The links between roots form no cycle: from every linked root,
    [n] steps of [link_target] ([n] the number of vertices, at least the
    number of roots) end at a root the batch leaves in place. *)
Definition links_acyclic (n : nat) (ps : list (Z * Z)) : Prop :=
  Forall (fun ab => link_target ps (Nat.iter n (link_target ps) ab.1) =
                    Nat.iter n (link_target ps) ab.1) ps.

(** For the root pairs [(i_k, j_k)] of a batch union: one root [i_k] is
    always linked to one root [j_k]. *)
Definition minor_roots_agree (i j : list Z) : Prop :=
  forall a b c d, In (a, b) (zip i j) -> In (c, d) (zip i j) -> a = c -> b = d.

(** The instance a call finishes or raises in. *)
Definition outcome_state {S A} (o : outcome S A) : option S :=
  match o with Ok s _ | Raise s _ => Some s | Diverge => None end.

(** An id NumPy refuses on an array of length [len(p)]. *)
Definition out_of_bounds (p : list Z) (v : Z) : Prop := v < - np_len p \/ np_len p <= v.

(** The outcome of a call that stops with an out-of-range error or not at
    all: it never returns, and the only exception it raises is
    [IndexError]. *)
Definition fails_out_of_range {S A} (o : outcome S A) : Prop :=
  match o with Ok _ _ => False | Raise _ e => e = IndexError | Diverge => True end.

(** A run that returns keeps the array length; one that raises raises
    [IndexError]. *)
Definition idx_only {S A} (len : S -> nat) (s0 : S) (o : outcome S A) : Prop :=
  match o with Ok s _ => len s = len s0 | Raise _ e => e = IndexError | Diverge => True end.

(** The length of [self.id_updated]. *)
Definition id_len (st : quick_union_algs) : nat := length (id_updated st).

(** The exception [build_weighted_quick_union] raises for an argument that
    is not a Python [int]. *)
Definition type_rejection : exn := Exception "Received ids must be of type int".

(** A computation that never raises [type_rejection]. *)
Definition never_rejects {A} (m : M A) : Prop :=
  forall st s, m st <> Raise s type_rejection.

(** The neighbours listed for vertex [u]. *)
Definition nbrs (adj_list : list (list Z)) (u : Z) : list Z :=
  match adj_list !! Z.to_nat u with Some l => l | None => [] end.

(** [range(len(adj_list))] as ids. *)
Definition vertices (adj_list : list (list Z)) : list Z := map Z.of_nat (seq 0 (length adj_list)).

(** Every listed neighbour is a vertex. *)
Definition adj_in_rangeb (adj_list : list (list Z)) : bool :=
  forallb (fun u => forallb (fun w => (0 <=? w) && (w <? Z.of_nat (length adj_list)))
                      (nbrs adj_list u)) (vertices adj_list).

(** Every edge is listed at both ends. *)
Definition adj_symmetricb (adj_list : list (list Z)) : bool :=
  forallb (fun u => forallb (fun w => existsb (Z.eqb u) (nbrs adj_list w))
                      (nbrs adj_list u)) (vertices adj_list).

(** [v] is reached from [u] along listed edges. *)
Inductive reach (adj_list : list (list Z)) : Z -> Z -> Prop :=
| reach_refl v : reach adj_list v v
| reach_step u w v :
    0 <= u < Z.of_nat (length adj_list) -> In w (nbrs adj_list u) ->
    reach adj_list w v -> reach adj_list u v.

(** The label [self.roots[v]] of a vertex; [-1] is "not visited". *)
Definition label (roots : list Z) (v : Z) : Z :=
  match roots !! Z.to_nat v with Some x => x | None => -1 end.

(** What one call [_visit_for_depth_first_search(now, x)] does to the
    labels [r] (giving [r']), on the vertices [0 <= v < len(adj_list)]: the
    array keeps its length, labelled vertices keep their label, a vertex
    labelled by the call gets [now] and is reached from [x], [x] gets
    [now], and every neighbour of a vertex labelled by the call is
    labelled. *)
Definition visit_post (adj_list : list (list Z)) (now x : Z) (r r' : list Z) : Prop :=
  let N := Z.of_nat (length adj_list) in
  length r' = length adj_list /\
  (forall v, 0 <= v < N -> label r v <> -1 -> label r' v = label r v) /\
  (forall v, 0 <= v < N -> label r v = -1 ->
     label r' v = -1 \/ (label r' v = now /\ reach adj_list x v)) /\
  label r' x = now /\
  (forall v, 0 <= v < N -> label r v = -1 -> label r' v <> -1 ->
     forall w, In w (nbrs adj_list v) -> label r' w <> -1).

(** Between two rounds of the outer loop of [depth_first_search], with
    [now] the last label used: labels are [-1] or in [[0, now]], each of
    them is used, an edge leaving a labelled vertex stays in its label,
    and vertices with one label are connected. *)
Definition dfs_inv (adj_list : list (list Z)) (now : Z) (r : list Z) : Prop :=
  let N := Z.of_nat (length adj_list) in
  length r = length adj_list /\ -1 <= now /\
  (forall v, 0 <= v < N -> label r v = -1 \/ 0 <= label r v <= now) /\
  (forall c, 0 <= c <= now -> exists v, 0 <= v < N /\ label r v = c) /\
  (forall u w, 0 <= u < N -> In w (nbrs adj_list u) -> label r u <> -1 ->
     label r w = label r u) /\
  (forall u v, 0 <= u < N -> 0 <= v < N -> label r u <> -1 -> label r u = label r v ->
     reach adj_list u v).

(** The number of vertices still labelled [-1]. *)
Definition unvisited (adj_list : list (list Z)) (r : list Z) : nat :=
  length (filter (fun v => label r v =? -1) (vertices adj_list)).

(** Every vertex points straight at a root. *)
Definition flat_forest (p : list Z) : Prop :=
  forall v, in_range p v -> in_range p (par p v) /\ is_root p (par p v).

(** The number of entries of [a] equal to [x], as
    [sp.unique(..., return_counts=True)] counts them. *)
Definition count_of (x : Z) (a : list Z) : Z :=
  Z.of_nat (length (filter (fun y => x =? y) a)).

(** A two-row size table that describes the array [p]: its first row holds
    distinct values, exactly the values of [p], and its second row the
    number of entries of [p] equal to each of them. *)
Definition size_ok (p : list Z) (s : list Z * list Z) : Prop :=
  length s.2 = length s.1 /\ NoDup s.1 /\ (forall x, In x s.1 <-> In x p) /\
  (forall k x, s.1 !! k = Some x -> s.2 !! k = Some (count_of x p)).

(** An instance ready for weighted unions: [self.roots] is bound to
    [self.id_updated] itself ([self.roots=self.id_updated]), every vertex
    points straight at its root, and [self.size], when it exists, describes
    the array. *)
Definition weighted_ready (st : quick_union_algs) : Prop :=
  st.(roots) = Some RootsAliasId /\ flat_forest st.(id_updated) /\
  match st.(size) with Some s => size_ok st.(id_updated) s | None => True end.

(** The array [p] with every entry equal to [i] replaced by [j]. *)
Definition relink (i j : Z) (p : list Z) : list Z :=
  map (fun r => if r =? i then j else r) p.

Section Forest.

Implicit Types (p : list Z) (v : Z).

Lemma in_range_np_arange p v : in_range p v <-> v ∈ np_arange (length p).
Proof.
  unfold in_range, np_arange, np_len. rewrite list_elem_of_In, in_map_iff.
  split.
  - intros Hv. exists (Z.to_nat v). split; [lia|]. apply in_seq. lia.
  - intros (n & <- & Hn). apply in_seq in Hn. lia.
Qed.

Lemma forest_spec p :
  forest p <-> forall v, in_range p v -> in_range p (par p v) /\ is_root p (root_of p v).
Proof.
  unfold forest, forestb, in_range, is_root. rewrite forallb_forall. split.
  - intros H v Hv. pose proof (H v) as Hb.
    rewrite <- list_elem_of_In, <- in_range_np_arange in Hb. specialize (Hb Hv).
    apply andb_true_iff in Hb as [Hb Hr]. apply andb_true_iff in Hb as [H0 H1].
    apply Z.leb_le in H0. apply Z.ltb_lt in H1. apply Z.eqb_eq in Hr. lia.
  - intros H v Hv. rewrite <- list_elem_of_In, <- in_range_np_arange in Hv.
    destruct (H v Hv) as [Hin Hr]. unfold in_range in Hin.
    rewrite Hr, Z.eqb_refl. apply andb_true_iff; split; [|done].
    apply andb_true_iff; split; [apply Z.leb_le|apply Z.ltb_lt]; lia.
Qed.

Lemma par_lookup p v x : p !! Z.to_nat v = Some x -> par p v = x.
Proof. unfold par. by intros ->. Qed.

Lemma lookup_in_range p v : in_range p v -> p !! Z.to_nat v = Some (par p v).
Proof.
  unfold in_range, np_len, par. intros Hv.
  destruct (p !! Z.to_nat v) eqn:E; [done|].
  apply lookup_ge_None in E. lia.
Qed.

Lemma np_index_in_range p v :
  in_range p v -> np_index (np_len p) v = Some (Z.to_nat v).
Proof.
  unfold in_range, np_index. intros Hv.
  replace ((0 <=? v) && (v <? np_len p)) with true; [done|].
  symmetry. apply andb_true_iff. split; [apply Z.leb_le|apply Z.ltb_lt]; lia.
Qed.

Lemma np_get_in_range p v : in_range p v -> np_get p v = Some (par p v).
Proof.
  intros Hv. unfold np_get. rewrite np_index_in_range by done.
  by apply lookup_in_range.
Qed.

Lemma np_take_in_range p vs :
  Forall (in_range p) vs -> np_take p vs = Some (map (par p) vs).
Proof.
  induction 1 as [|v vs Hv _ IH]; [done|]. simpl.
  by rewrite np_get_in_range, IH.
Qed.

Lemma iter_par_S p k v : iter_par p (S k) v = par p (iter_par p k v).
Proof. revert v. induction k as [|k IH]; intros v; [done|]. apply IH. Qed.

Lemma iter_par_add p a b v : iter_par p (a + b) v = iter_par p b (iter_par p a v).
Proof. revert v. induction a as [|a IH]; intros v; [done|]. apply IH. Qed.

Lemma iter_par_root p k r : is_root p r -> iter_par p k r = r.
Proof.
  unfold is_root. intros Hr. induction k as [|k IH]; [done|].
  rewrite iter_par_S, IH. done.
Qed.

Lemma iter_par_stable p k k' v :
  is_root p (iter_par p k v) -> (k <= k')%nat -> iter_par p k' v = iter_par p k v.
Proof.
  intros Hr Hk. replace k' with (k + (k' - k))%nat by lia.
  rewrite iter_par_add. by apply iter_par_root.
Qed.

Lemma is_root_iter_mono p k k' v :
  is_root p (iter_par p k v) -> (k <= k')%nat -> is_root p (iter_par p k' v).
Proof. intros Hr Hk. by rewrite (iter_par_stable p k k'). Qed.

End Forest.

Section ForestFacts.

Implicit Types (p : list Z) (v : Z).

Lemma forest_par_in_range p v : forest p -> in_range p v -> in_range p (par p v).
Proof. rewrite forest_spec. intros H Hv. apply H, Hv. Qed.

Lemma forest_root_of_root p v : forest p -> in_range p v -> is_root p (root_of p v).
Proof. rewrite forest_spec. intros H Hv. apply H, Hv. Qed.

Lemma forest_iter_in_range p k v :
  forest p -> in_range p v -> in_range p (iter_par p k v).
Proof.
  intros Hf. revert v. induction k as [|k IH]; intros v Hv; [done|].
  simpl. apply IH. by apply forest_par_in_range.
Qed.

Lemma root_of_in_range p v : forest p -> in_range p v -> in_range p (root_of p v).
Proof. intros. by apply forest_iter_in_range. Qed.

Lemma root_of_fixed p r : is_root p r -> root_of p r = r.
Proof. intros. by apply iter_par_root. Qed.

Lemma root_of_iter p k v :
  forest p -> in_range p v -> root_of p (iter_par p k v) = root_of p v.
Proof.
  intros Hf Hv. unfold root_of. rewrite <- iter_par_add.
  apply iter_par_stable; [|lia]. by apply forest_root_of_root.
Qed.

Lemma root_of_par p v : forest p -> in_range p v -> root_of p (par p v) = root_of p v.
Proof. intros Hf Hv. apply (root_of_iter p 1); done. Qed.

Lemma iter_par_periodic p a b v :
  iter_par p a v = iter_par p b v -> (a <= b)%nat ->
  forall t, iter_par p (a + t * (b - a)) v = iter_par p a v.
Proof.
  intros Hab Hle t. induction t as [|t IH]; [by rewrite Nat.add_0_r|].
  replace (a + S t * (b - a))%nat with ((a + t * (b - a)) + (b - a))%nat by lia.
  rewrite iter_par_add, IH, <- iter_par_add.
  replace (a + (b - a))%nat with b by lia. done.
Qed.

(** In a forest every vertex is fewer than [len(p)] parent steps away from
    its root (the path to the root has distinct vertices). *)
Lemma forest_depth p v :
  forest p -> in_range p v -> is_root p (iter_par p (length p - 1) v).
Proof.
  intros Hf Hv. set (N := length p).
  assert (HN : (1 <= N)%nat) by (unfold in_range, np_len in Hv; subst N; lia).
  destruct (Z.eq_dec (par p (iter_par p (N - 1) v)) (iter_par p (N - 1) v))
    as [Hr|Hnr]; [done|exfalso].
  assert (Hnon : forall a, (a <= N - 1)%nat -> ~ is_root p (iter_par p a v)).
  { intros a Ha Hra. apply Hnr. by apply (is_root_iter_mono p a). }
  set (l := map (fun k => Z.to_nat (iter_par p k v)) (seq 0 (S N))).
  assert (Hnd : List.NoDup l).
  { apply NoDup_map_NoDup_ForallPairs; [|apply seq_NoDup].
    assert (Hinj : forall a b, (a < b <= N)%nat ->
              iter_par p a v <> iter_par p b v).
    { intros a b Hab Heq.
      destruct (Nat.eq_dec b N) as [->|HbN].
      - apply (Hnon a); [lia|]. rewrite Heq. by apply forest_root_of_root.
      - apply (Hnon a); [lia|].
        pose proof (iter_par_periodic p a b v Heq ltac:(lia) N) as Hper.
        rewrite <- Hper. apply (is_root_iter_mono p N); [|nia].
        by apply forest_root_of_root. }
    intros a b Ha Hb Heq. apply in_seq in Ha, Hb.
    pose proof (forest_iter_in_range p a v Hf Hv) as Ra.
    pose proof (forest_iter_in_range p b v Hf Hv) as Rb.
    unfold in_range in Ra, Rb.
    assert (iter_par p a v = iter_par p b v) as Hab by lia.
    destruct (Nat.lt_total a b) as [Hlt|[Heq'|Hgt]]; [|done|].
    - exfalso. apply (Hinj a b); [lia|done].
    - exfalso. apply (Hinj b a); [lia|done]. }
  assert (Hincl : incl l (seq 0 N)).
  { intros x Hx. apply in_map_iff in Hx as (k & <- & _).
    pose proof (forest_iter_in_range p k v Hf Hv) as Rk.
    unfold in_range, np_len in Rk. apply in_seq. lia. }
  pose proof (NoDup_incl_length Hnd Hincl) as Hlen.
  subst l. rewrite length_map, !length_seq in Hlen. lia.
Qed.

End ForestFacts.

Section Writes.

Implicit Types (p : list Z) (v : Z).

Lemma length_write_all (a : list Z) ws : length (write_all a ws) = length a.
Proof.
  revert a. induction ws as [|[i x] ws IH]; intros a; [done|].
  simpl. by rewrite IH, length_insert.
Qed.

Lemma write_all_lookup (a : list Z) ws (i : nat) :
  (i < length a)%nat ->
  (write_all a ws !! i = a !! i /\ forall x, ~ In (i, x) ws) \/
  (exists x, In (i, x) ws /\ write_all a ws !! i = Some x).
Proof.
  revert a. induction ws as [|[j y] ws IH]; intros a Hi; simpl.
  - left. split; [done|]. intros x [].
  - destruct (IH (<[j:=y]> a)) as [[Hl Hn]|(x & Hx & Hl)].
    + by rewrite length_insert.
    + destruct (Nat.eq_dec i j) as [->|Hij].
      * right. exists y. split; [by left|].
        rewrite Hl. by apply list_lookup_insert_eq.
      * left. split.
        -- rewrite Hl. by apply list_lookup_insert_ne.
        -- intros x [Hx|Hx]; [congruence|]. by apply (Hn x).
    + right. exists x. split; [by right|done].
Qed.

Lemma in_zip_map_fst {A B C} (f : A -> C) (l : list A) (vals : list B) n x :
  In (n, x) (zip (map f l) vals) -> exists a, In (a, x) (zip l vals) /\ f a = n.
Proof.
  revert vals. induction l as [|a l IH]; intros [|y vals] H; simpl in *; try done.
  destruct H as [H|H].
  - injection H as <- <-. exists a. split; [by left|done].
  - destruct (IH vals H) as (b & Hb & Hf). exists b. split; [by right|done].
Qed.

Lemma in_zip_l {A B} (l : list A) (vals : list B) a x : In (a, x) (zip l vals) -> In a l.
Proof.
  revert vals. induction l as [|b l IH]; intros [|y vals] H; simpl in *; try done.
  destruct H as [H|H]; [injection H as <- <-; by left|right; eauto].
Qed.

Lemma in_zip_r {A B} (l : list A) (vals : list B) a x : In (a, x) (zip l vals) -> In x vals.
Proof.
  revert vals. induction l as [|b l IH]; intros [|y vals] H; simpl in *; try done.
  destruct H as [H|H]; [injection H as <- <-; by left|right; eauto].
Qed.

Lemma in_zip_map {A B} (g : A -> B) (l : list A) a x :
  In (a, x) (zip l (map g l)) -> x = g a.
Proof.
  induction l as [|b l IH]; simpl; [done|].
  intros [H|H]; [by injection H as <- <-|auto].
Qed.

Lemma in_zip_exists {A B} (l : list A) (vals : list B) a :
  length vals = length l -> In a l -> exists x, In (a, x) (zip l vals).
Proof.
  revert vals. induction l as [|b l IH]; intros [|y vals] Hlen H; simpl in *; try done.
  destruct H as [<-|H].
  - exists y. by left.
  - destruct (IH vals ltac:(lia) H) as [x Hx]. exists x. by right.
Qed.

Lemma np_positions_in_range p idx :
  Forall (in_range p) idx -> np_positions (np_len p) idx = Some (map Z.to_nat idx).
Proof.
  induction 1 as [|v idx Hv _ IH]; [done|]. simpl.
  by rewrite np_index_in_range, IH.
Qed.

Lemma np_put_in_range p idx vals :
  Forall (in_range p) idx ->
  np_put p idx vals = Some (write_all p (zip (map Z.to_nat idx) vals)).
Proof. intros H. unfold np_put. by rewrite np_positions_in_range. Qed.

Lemma np_broadcast_same (n : nat) vals : length vals = n -> np_broadcast n vals = Some vals.
Proof. intros <-. unfold np_broadcast. by rewrite Nat.eqb_refl. Qed.

Lemma np_broadcast_map (f : Z -> Z) (l : list Z) :
  np_broadcast (length l) (map f l) = Some (map f l).
Proof. apply np_broadcast_same. apply length_map. Qed.

Lemma np_len_write_all p ws : np_len (write_all p ws) = np_len p.
Proof. unfold np_len. by rewrite length_write_all. Qed.

(** What a fancy write [p[idx] = vals] leaves at an in-range vertex. *)
Lemma np_put_par p idx vals p' v :
  Forall (in_range p) idx -> np_put p idx vals = Some p' -> in_range p v ->
  (par p' v = par p v /\ forall w, ~ In (v, w) (zip idx vals)) \/
  (exists w, In (v, w) (zip idx vals) /\ par p' v = w).
Proof.
  intros Hidx Hput Hv. rewrite np_put_in_range in Hput by done.
  injection Hput as <-.
  assert (Hv' : (Z.to_nat v < length p)%nat) by (unfold in_range, np_len in Hv; lia).
  destruct (write_all_lookup p (zip (map Z.to_nat idx) vals) (Z.to_nat v) Hv')
    as [[Hl Hn]|(x & Hx & Hl)].
  - left. split.
    + unfold par. by rewrite Hl.
    + intros w Hw. apply (Hn w).
      revert Hw. clear. revert vals. induction idx as [|a idx IH]; intros [|y vals];
        simpl; try done.
      intros [H|H]; [injection H as -> ->; by left|right; auto].
  - right. destruct (in_zip_map_fst Z.to_nat idx vals _ _ Hx) as (a & Ha & Hfa).
    exists x. split.
    + assert (in_range p a) as Ra.
      { rewrite List.Forall_forall in Hidx. apply Hidx. by apply (in_zip_l _ vals _ x). }
      unfold in_range in Ra, Hv. replace v with a by lia. done.
    + by apply par_lookup.
Qed.

(** A written vertex holds one of the values written at it. *)
Lemma np_put_par_written p idx vals p' v :
  Forall (in_range p) idx -> np_put p idx vals = Some p' -> In v idx ->
  length vals = length idx ->
  exists w, In (v, w) (zip idx vals) /\ par p' v = w.
Proof.
  intros Hidx Hput Hin Hlen.
  assert (in_range p v) as Hv by (rewrite List.Forall_forall in Hidx; auto).
  destruct (np_put_par p idx vals p' v Hidx Hput Hv) as [[_ Hn]|H]; [|done].
  exfalso. destruct (in_zip_exists idx vals v Hlen Hin) as [x Hx]. by apply (Hn x).
Qed.

Lemma np_put_length p idx vals p' :
  Forall (in_range p) idx -> np_put p idx vals = Some p' -> length p' = length p.
Proof.
  intros Hidx Hput. rewrite np_put_in_range in Hput by done.
  injection Hput as <-. apply length_write_all.
Qed.

Lemma in_range_length p p' v : length p' = length p -> in_range p' v <-> in_range p v.
Proof. unfold in_range, np_len. intros ->. done. Qed.

End Writes.

(** *** Writes that keep a forest *)

Section ForestWrites.

Implicit Types (p : list Z) (v : Z).


Lemma ancestor_write_root p p' r : ancestor_write p p' -> in_range p r -> is_root p r -> is_root p' r.
Proof.
  intros [_ Ha] Hr Hroot. destruct (Ha r Hr) as (m & _ & Hm).
  unfold is_root. rewrite Hm. by apply iter_par_root.
Qed.

Lemma ancestor_write_transfer p p' :
  forest p -> ancestor_write p p' ->
  forall k v, in_range p v -> is_root p (iter_par p k v) -> iter_par p' k v = root_of p v.
Proof.
  intros Hf Hw. induction k as [|k IH]; intros v Hv Hr.
  - simpl in *. by rewrite root_of_fixed.
  - destruct (Z.eq_dec (par p v) v) as [Hroot|Hnr].
    + assert (is_root p' v) by (by apply (ancestor_write_root p)).
      rewrite iter_par_root by done. by rewrite root_of_fixed.
    + destruct Hw as [Hlen Ha]. destruct (Ha v Hv) as (m & Hm & Hpv).
      simpl. rewrite Hpv. rewrite IH.
      * by apply root_of_iter.
      * by apply forest_iter_in_range.
      * rewrite <- iter_par_add. apply (is_root_iter_mono p (S k)); [done|lia].
Qed.

Lemma ancestor_write_forest p p' :
  forest p -> ancestor_write p p' ->
  forest p' /\ forall v, in_range p v -> root_of p' v = root_of p v.
Proof.
  intros Hf Hw.
  assert (Hroot : forall v, in_range p v -> root_of p' v = root_of p v).
  { intros v Hv. unfold root_of at 1. rewrite (proj1 Hw).
    apply (ancestor_write_transfer p p' Hf Hw); [done|].
    by apply forest_root_of_root. }
  split; [|done].
  apply forest_spec. intros v Hv.
  rewrite (in_range_length p p') in Hv |- * by apply Hw. split.
  - destruct Hw as [_ Ha]. destruct (Ha v Hv) as (m & _ & ->).
    by apply forest_iter_in_range.
  - rewrite Hroot by done. apply (ancestor_write_root p p'); [exact Hw| |].
    + by apply root_of_in_range.
    + by apply forest_root_of_root.
Qed.

Lemma ancestor_write_refl p : ancestor_write p p.
Proof. split; [done|]. intros v _. by exists 1%nat. Qed.

Lemma ancestor_write_trans p p1 p2 :
  forest p -> ancestor_write p p1 -> ancestor_write p1 p2 -> ancestor_write p p2.
Proof.
  intros Hf H1 H2. pose proof (ancestor_write_forest p p1 Hf H1) as [Hf1 _].
  destruct H1 as [Hl1 Ha1], H2 as [Hl2 Ha2]. split; [lia|].
  intros v Hv.
  assert (forall k w, in_range p w -> exists n, (k <= n)%nat /\ iter_par p1 k w = iter_par p n w)
    as Hiter.
  { induction k as [|k IH]; intros w Hw; [by exists 0%nat|].
    destruct (Ha1 w Hw) as (m & Hm & Hpw). simpl. rewrite Hpw.
    destruct (IH (iter_par p m w)) as (n & Hn & Hi).
    - by apply forest_iter_in_range.
    - exists (m + n)%nat. split; [lia|]. by rewrite Hi, iter_par_add. }
  destruct (Ha2 v ltac:(by rewrite (in_range_length p p1))) as (m & Hm & Hpv).
  destruct (Hiter m v Hv) as (n & Hn & Hi). exists n. split; [lia|congruence].
Qed.


Lemma root_write_root p p' r :
  root_write p p' -> in_range p r -> is_root p r -> is_root p' (par p' r).
Proof.
  intros [_ Hw] Hr Hroot. destruct (Hw r Hr) as [Heq|(_ & _ & H)]; [|done].
  unfold is_root in *. rewrite Heq, Hroot. congruence.
Qed.

Lemma root_write_transfer p p' :
  forest p -> root_write p p' ->
  forall k v, in_range p v -> is_root p (iter_par p k v) ->
  iter_par p' (S k) v = par p' (root_of p v).
Proof.
  intros Hf Hw. induction k as [|k IH]; intros v Hv Hr.
  - simpl in *. by rewrite root_of_fixed.
  - destruct (Z.eq_dec (par p v) v) as [Hroot|Hnr].
    + rewrite root_of_fixed by done.
      pose proof (root_write_root p p' v Hw Hv Hroot) as Hr'.
      change (iter_par p' (S k) (par p' v) = par p' v).
      by apply iter_par_root.
    + destruct Hw as [Hlen Hw']. destruct (Hw' v Hv) as [Heq|[Hroot _]]; [|done].
      change (iter_par p' (S k) (par p' v) = par p' (root_of p v)).
      rewrite Heq, IH.
      * by rewrite root_of_par.
      * by apply forest_par_in_range.
      * done.
Qed.

Lemma root_write_forest p p' :
  forest p -> root_write p p' ->
  forest p' /\ forall v, in_range p v -> root_of p' v = par p' (root_of p v).
Proof.
  intros Hf Hw.
  assert (Hroot : forall v, in_range p v -> root_of p' v = par p' (root_of p v)).
  { intros v Hv. unfold root_of at 1. rewrite (proj1 Hw).
    assert (Hn : length p = S (length p - 1)) by (unfold in_range, np_len in Hv; lia).
    rewrite Hn. apply (root_write_transfer p p' Hf Hw); [done|].
    by apply forest_depth. }
  split; [|done].
  apply forest_spec. intros v Hv.
  rewrite (in_range_length p p') in Hv |- * by apply Hw. split.
  - destruct Hw as [_ Hw]. destruct (Hw v Hv) as [->|(_ & H & _)]; [|done].
    by apply forest_par_in_range.
  - rewrite Hroot by done. apply (root_write_root p); [done| |].
    + by apply root_of_in_range.
    + by apply forest_root_of_root.
Qed.

End ForestWrites.

(** *** The root-finding loops on a forest *)

Section Loops.

Implicit Types (p : list Z) (v : list Z).

Lemma np_any_ne_map_false (f : Z -> Z) (l : list Z) :
  np_any_ne l (map f l) = false -> Forall (fun e => f e = e) l.
Proof.
  unfold np_any_ne. induction l as [|a l IH]; simpl; [done|].
  intros H. apply orb_false_iff in H as [Ha Hl].
  apply negb_false_iff, Z.eqb_eq in Ha. constructor; auto.
Qed.

Lemma np_any_ne_map_fixed (f : Z -> Z) (l : list Z) :
  Forall (fun e => f e = e) l -> np_any_ne l (map f l) = false.
Proof.
  unfold np_any_ne. induction 1 as [|a l Ha _ IH]; simpl; [done|].
  rewrite Ha, Z.eqb_refl. done.
Qed.

Lemma np_any_ne_refl (l : list Z) : np_any_ne l l = false.
Proof.
  unfold np_any_ne. induction l as [|a l IH]; simpl; [done|].
  by rewrite Z.eqb_refl.
Qed.

Lemma np_any_ne_false_eq (l w : list Z) :
  length l = length w -> np_any_ne l w = false -> l = w.
Proof.
  unfold np_any_ne. revert w. induction l as [|a l IH]; intros [|b w] Hlen H;
    simpl in *; try done.
  apply orb_false_iff in H as [Ha Hl].
  apply negb_false_iff, Z.eqb_eq in Ha. subst. f_equal. apply IH; [lia|done].
Qed.


Lemma within_length p fuel v :
  forest p -> Forall (in_range p) v -> (length p <= fuel)%nat -> within p fuel v.
Proof.
  intros Hf Hv Hfuel. unfold within. rewrite Forall_forall in Hv |- *.
  intros e He. split; [auto|]. apply (is_root_iter_mono p (length p)); [|done].
  apply forest_root_of_root; auto.
Qed.

Lemma within_in_range p fuel v : within p fuel v -> Forall (in_range p) v.
Proof. intros H. eapply Forall_impl; [exact H|]. simpl. tauto. Qed.

Lemma within_roots p v : within p 0 v -> Forall (fun e => par p e = e) v.
Proof. intros H. eapply Forall_impl; [exact H|]. intros e [_ He]. exact He. Qed.

Lemma root_while_spec fuel p v :
  forest p -> within p fuel v -> root_while fuel p v = Ok p (map (root_of p) v).
Proof.
  revert v. induction fuel as [|f IH]; intros v Hf Hw; simpl;
    rewrite np_take_in_range by (by eapply within_in_range).
  - rewrite np_any_ne_map_fixed by (by apply within_roots).
    f_equal. rewrite <- (map_id v) at 1. apply map_ext_in.
    intros e He. unfold within in Hw. rewrite List.Forall_forall in Hw. destruct (Hw e He) as [_ Hr].
    by rewrite root_of_fixed.
  - destruct (np_any_ne v (map (par p) v)) eqn:Hne.
    + rewrite IH; [|done|].
      * f_equal. rewrite map_map. apply map_ext_in. intros e He.
        unfold within in Hw. rewrite List.Forall_forall in Hw. destruct (Hw e He) as [Hr _].
        by apply root_of_par.
      * unfold within in *. rewrite Forall_map. rewrite List.Forall_forall in Hw |- *.
        intros e He. destruct (Hw e He) as [Hr Hroot]. split; [by apply forest_par_in_range|].
        done.
    + apply np_any_ne_map_false in Hne. f_equal.
      rewrite <- (map_id v) at 1. apply map_ext_in.
      intros e He. rewrite List.Forall_forall in Hne. rewrite root_of_fixed; [done|]. by apply Hne.
Qed.

(** A fancy write [p[idx] = g(idx)] with in-range indices. *)
Lemma np_put_map p idx (g : Z -> Z) p' :
  Forall (in_range p) idx -> np_put p idx (map g idx) = Some p' ->
  length p' = length p /\
  (forall x, in_range p x -> par p' x = par p x \/ par p' x = g x) /\
  (forall x, In x idx -> par p' x = g x).
Proof.
  intros Hidx Hput. split; [by eapply np_put_length|]. split.
  - intros x Hx. destruct (np_put_par p idx (map g idx) p' x Hidx Hput Hx)
      as [[H _]|(w & Hw & <-)]; [by left|right].
    by apply (in_zip_map g idx).
  - intros x Hx. destruct (np_put_par_written p idx (map g idx) p' x Hidx Hput Hx)
      as (w & Hw & <-); [by rewrite length_map|].
    by apply (in_zip_map g idx).
Qed.

Lemma within_step p p' fuel (g : Z -> Z) (v : list Z) :
  forest p -> ancestor_write p p' -> within p (S fuel) v ->
  (forall e, In e v -> exists m, (1 <= m)%nat /\ g e = iter_par p m e) ->
  within p' fuel (map g v).
Proof.
  intros Hf Hw Hv Hg. unfold within in *. rewrite Forall_map.
  rewrite List.Forall_forall in Hv |- *. intros e He.
  destruct (Hv e He) as [Hr Hroot]. destruct (Hg e He) as (m & Hm & ->).
  assert (Hi : in_range p (iter_par p m e)) by (by apply forest_iter_in_range).
  assert (Hroot' : is_root p (iter_par p fuel (iter_par p m e))).
  { rewrite <- iter_par_add. apply (is_root_iter_mono p (S fuel)); [done|lia]. }
  split; [by rewrite (in_range_length p p') by apply Hw|].
  rewrite (ancestor_write_transfer p p' Hf Hw fuel _ Hi Hroot').
  apply (ancestor_write_root p p'); [done|by apply root_of_in_range|].
  by apply forest_root_of_root.
Qed.

Lemma halving_while_spec fuel p v :
  forest p -> within p fuel v ->
  exists p', halving_while fuel p v = Ok p' (map (root_of p) v) /\ ancestor_write p p'.
Proof.
  revert p v. induction fuel as [|f IH]; intros p v Hf Hw; simpl;
    pose proof (within_in_range _ _ _ Hw) as Hv;
    rewrite np_take_in_range by done.
  - rewrite np_any_ne_map_fixed by (by apply within_roots).
    exists p. split; [|apply ancestor_write_refl].
    f_equal. rewrite <- (map_id v) at 1. apply map_ext_in.
    intros e He. unfold within in Hw. rewrite List.Forall_forall in Hw.
    destruct (Hw e He) as [_ Hr]. by rewrite root_of_fixed.
  - destruct (np_any_ne v (map (par p) v)) eqn:Hne.
    + assert (Hpv : Forall (in_range p) (map (par p) v)).
      { rewrite Forall_map. eapply Forall_impl; [exact Hv|].
        intros e He. by apply forest_par_in_range. }
      rewrite np_take_in_range by done. rewrite map_map.
      rewrite np_put_in_range by done.
      set (p1 := write_all p (zip (map Z.to_nat v) (map (fun e => par p (par p e)) v))).
      assert (Hput : np_put p v (map (fun e => par p (par p e)) v) = Some p1)
        by (by rewrite np_put_in_range).
      destruct (np_put_map p v _ p1 Hv Hput) as (Hlen & Hpar & Hwr).
      assert (Haw : ancestor_write p p1).
      { split; [done|]. intros x Hx. destruct (Hpar x Hx) as [->| ->].
        - exists 1%nat; split; [lia|done].
        - exists 2%nat; split; [lia|done]. }
      pose proof (ancestor_write_forest p p1 Hf Haw) as [Hf1 Hr1].
      rewrite np_take_in_range.
      2:{ eapply Forall_impl; [exact Hv|]. intros e He.
          by rewrite (in_range_length p p1). }
      assert (Hv1 : map (par p1) v = map (fun e => iter_par p 2 e) v).
      { apply map_ext_in. intros e He. by rewrite Hwr. }
      rewrite Hv1.
      destruct (IH p1 (map (fun e => iter_par p 2 e) v)) as (p2 & Hrun & Haw2).
      * done.
      * apply (within_step p p1 f); [done|done|done|]. intros e _. exists 2%nat; split; [lia|done].
      * exists p2. split; [|by apply (ancestor_write_trans p p1 p2)].
        rewrite Hrun. f_equal. rewrite map_map. apply map_ext_in. intros e He.
        rewrite Hr1; [by apply root_of_iter; [|rewrite List.Forall_forall in Hv; auto]|].
        apply forest_iter_in_range; [done|]. rewrite List.Forall_forall in Hv. auto.
    + apply np_any_ne_map_false in Hne. exists p. split; [|apply ancestor_write_refl].
      f_equal. rewrite <- (map_id v) at 1. apply map_ext_in.
      intros e He. rewrite List.Forall_forall in Hne.
      rewrite root_of_fixed; [done|]. by apply Hne.
Qed.

Lemma map_fixed_In (f : Z -> Z) (l : list Z) x : l = map f l -> In x l -> f x = x.
Proof.
  induction l as [|a l IH]; simpl; [done|]. intros Heq [<-|Hx].
  - injection Heq as H _. by symmetry.
  - injection Heq as _ H. auto.
Qed.


Lemma full_while_spec fuel p vi vj :
  forest p -> within p fuel vi -> vj = map (root_of p) vi ->
  exists p', full_while fuel p vi vj = Ok p' vj /\ ancestor_write p p' /\
    (forall x, in_range p x -> In x vi \/ flat p x -> flat p' x).
Proof.
  revert p vi. induction fuel as [|f IH]; intros p vi Hf Hw Hvj;
    pose proof (within_in_range _ _ _ Hw) as Hv; simpl.
  - assert (Hfix : vi = vj).
    { rewrite Hvj. rewrite <- (map_id vi) at 1. apply map_ext_in. intros e He.
      unfold within in Hw. rewrite List.Forall_forall in Hw.
      destruct (Hw e He) as [_ Hr]. by rewrite root_of_fixed. }
    rewrite <- Hfix, np_any_ne_refl. exists p. split; [done|].
    split; [apply ancestor_write_refl|]. intros x Hx [Hin|Hfl]; [|done].
    unfold within in Hw. rewrite List.Forall_forall in Hw.
    destruct (Hw x Hin) as [_ Hr]. unfold flat. by rewrite root_of_fixed.
  - destruct (np_any_ne vi vj) eqn:Hne.
    + rewrite np_take_in_range by done.
      rewrite Hvj. rewrite np_put_in_range by done.
      set (p1 := write_all p (zip (map Z.to_nat vi) (map (root_of p) vi))).
      assert (Hput : np_put p vi (map (root_of p) vi) = Some p1)
        by (by rewrite np_put_in_range).
      destruct (np_put_map p vi _ p1 Hv Hput) as (Hlen & Hpar & Hwr).
      assert (Haw : ancestor_write p p1).
      { split; [done|]. intros x Hx. destruct (Hpar x Hx) as [->| ->].
        - exists 1%nat; split; [lia|done].
        - exists (length p); split; [unfold in_range, np_len in Hx; lia|done]. }
      pose proof (ancestor_write_forest p p1 Hf Haw) as [Hf1 Hr1].
      destruct (IH p1 (map (par p) vi)) as (p2 & Hrun & Haw2 & Hflat2).
      * done.
      * apply (within_step p p1 f); [done|done|done|].
        intros e _. exists 1%nat; split; [lia|done].
      * rewrite Hvj, map_map. apply map_ext_in. intros e He.
        rewrite List.Forall_forall in Hv.
        rewrite Hr1 by (by apply forest_par_in_range; auto).
        symmetry. apply root_of_par; auto.
      * exists p2. split; [by rewrite <- Hvj|]. split; [by apply (ancestor_write_trans p p1 p2)|].
        intros x Hx Hcase. apply Hflat2; [by rewrite (in_range_length p p1)|].
        right. unfold flat. rewrite Hr1 by done.
        destruct Hcase as [Hin|Hfl].
        -- by apply Hwr.
        -- destruct (Hpar x Hx) as [->| ->]; [exact Hfl|done].
    + apply np_any_ne_false_eq in Hne; [|by rewrite Hvj, length_map].
      exists p. split; [by rewrite Hne|]. split; [apply ancestor_write_refl|].
      intros x Hx [Hin|Hfl]; [|done].
      assert (Hxr : root_of p x = x).
      { apply (map_fixed_In (root_of p) vi x); [congruence|done]. }
      pose proof (forest_root_of_root p x Hf Hx) as Hr. unfold is_root in Hr.
      rewrite Hxr in Hr. unfold flat. by rewrite Hxr.
Qed.

End Loops.

Section Compression.

Lemma root_path_compression_spec fuel p v pct :
  forest p -> Forall (in_range p) v -> (length p <= fuel)%nat -> pc_mode pct ->
  exists p', root_path_compression fuel p v pct = Ok p' (map (root_of p) v) /\
    ancestor_write p p' /\
    (pct = "full_pc" -> forall x, In x v -> flat p' x).
Proof.
  intros Hf Hv Hfuel Hpc. pose proof (within_length p fuel v Hf Hv Hfuel) as Hw.
  unfold root_path_compression. destruct Hpc as [->| ->]; simpl.
  - destruct (halving_while_spec fuel p v Hf Hw) as (p' & Hrun & Haw).
    exists p'. split; [done|]. split; [done|]. discriminate.
  - rewrite (root_while_spec fuel p v Hf Hw).
    destruct (full_while_spec fuel p v (map (root_of p) v) Hf Hw eq_refl)
      as (p' & Hrun & Haw & Hfl).
    rewrite Hrun. exists p'. split; [done|]. split; [done|].
    intros _ x Hx. apply Hfl; [|by left].
    rewrite List.Forall_forall in Hv. auto.
Qed.

End Compression.

Section Engine.

Lemma write_all_same (a : list Z) ws :
  (forall i x, In (i, x) ws -> a !! i = Some x) -> write_all a ws = a.
Proof.
  revert a. induction ws as [|[i x] ws IH]; intros a H; simpl; [done|].
  rewrite list_insert_id by (apply H; by left).
  apply IH. intros j y Hj. apply H. by right.
Qed.

Lemma _root_spec fuel st ids :
  forest (id_updated st) -> Forall (in_range (id_updated st)) ids ->
  (length (id_updated st) <= fuel)%nat ->
  _root fuel ids st = Ok st (map (root_of (id_updated st)) ids).
Proof.
  intros Hf Hv Hfuel. unfold _root, on_id.
  rewrite root_while_spec; [by destruct st|done|by apply within_length].
Qed.

Lemma _root_path_compression_spec fuel st ids pct :
  forest (id_updated st) -> Forall (in_range (id_updated st)) ids ->
  (length (id_updated st) <= fuel)%nat -> pc_mode pct ->
  exists p', _root_path_compression fuel ids pct st =
             Ok (set_id st p') (map (root_of (id_updated st)) ids) /\
    ancestor_write (id_updated st) p' /\
    (pct = "full_pc" -> forall x, In x ids -> flat p' x).
Proof.
  intros Hf Hv Hfuel Hpc. unfold _root_path_compression, on_id.
  destruct (root_path_compression_spec fuel (id_updated st) ids pct Hf Hv Hfuel Hpc)
    as (p' & Hrun & Haw & Hfl).
  rewrite Hrun. exists p'. done.
Qed.

(** A full-compression pass over vertices that already point at their
    roots changes nothing. *)
Lemma full_while_flat fuel p ids :
  forest p -> Forall (in_range p) ids -> (length p <= fuel)%nat ->
  (forall x, In x ids -> flat p x) ->
  full_while fuel p ids (map (root_of p) ids) = Ok p (map (root_of p) ids).
Proof.
  intros Hf Hv Hfuel Hfl. destruct fuel as [|f]; simpl.
  - destruct ids as [|x ids]; [done|].
    inversion Hv as [|? ? Hx _]. unfold in_range, np_len in Hx. lia.
  - destruct (np_any_ne ids (map (root_of p) ids)) eqn:Hne.
    + rewrite np_take_in_range by done.
      assert (Hm : map (par p) ids = map (root_of p) ids).
      { apply map_ext_in. intros e He. by apply Hfl. }
      rewrite Hm, np_put_in_range by done.
      rewrite write_all_same.
      * destruct f; simpl; by rewrite np_any_ne_refl.
      * intros n x Hin. destruct (in_zip_map_fst Z.to_nat ids _ n x Hin)
          as (a & Ha & <-).
        pose proof (in_zip_map (root_of p) ids a x Ha) as ->.
        rewrite List.Forall_forall in Hv.
        rewrite lookup_in_range by (apply Hv; exact (in_zip_l _ _ _ _ Ha)).
        f_equal. apply Hfl. exact (in_zip_l _ _ _ _ Ha).
    + apply np_any_ne_false_eq in Hne; [|by rewrite length_map].
      by rewrite <- Hne.
Qed.

End Engine.

(* ------------------------------------------------------------------ *)
(** ** Claims about root finding *)

(** C5. Root identity across compression modes: on a forest, for any batch
    of in-range ids, the plain root-find [_root], the path-halving and the
    full-compression root-finds return the same array of roots (the root of
    each id); the compressing ones may change only [self.id_updated]. *)
Theorem root_identity_across_modes fuel st ids :
  forest (id_updated st) -> Forall (in_range (id_updated st)) ids ->
  (length (id_updated st) <= fuel)%nat ->
  exists p1 p2,
    _root fuel ids st = Ok st (map (root_of (id_updated st)) ids) /\
    _root_path_compression fuel ids "path_halving" st =
      Ok (set_id st p1) (map (root_of (id_updated st)) ids) /\
    _root_path_compression fuel ids "full_pc" st =
      Ok (set_id st p2) (map (root_of (id_updated st)) ids).
Proof.
  intros Hf Hv Hfuel.
  destruct (_root_path_compression_spec fuel st ids "path_halving" Hf Hv Hfuel
              ltac:(by left)) as (p1 & H1 & _).
  destruct (_root_path_compression_spec fuel st ids "full_pc" Hf Hv Hfuel
              ltac:(by right)) as (p2 & H2 & _).
  exists p1, p2. split; [by apply _root_spec|]. done.
Qed.

(** C6. Idempotence of full compression: on a forest, running the
    full-compression root-find twice on the same in-range ids returns the
    same roots both times, and the second run leaves the instance exactly
    as the first left it. *)
Theorem full_compression_idempotent fuel st ids :
  forest (id_updated st) -> Forall (in_range (id_updated st)) ids ->
  (length (id_updated st) <= fuel)%nat ->
  exists st1 r,
    _root_path_compression fuel ids "full_pc" st = Ok st1 r /\
    _root_path_compression fuel ids "full_pc" st1 = Ok st1 r.
Proof.
  intros Hf Hv Hfuel.
  destruct (_root_path_compression_spec fuel st ids "full_pc" Hf Hv Hfuel
              ltac:(by right)) as (p1 & H1 & Haw & Hfl).
  specialize (Hfl eq_refl).
  pose proof (ancestor_write_forest _ _ Hf Haw) as [Hf1 Hr1].
  set (p := id_updated st) in *.
  assert (Hlen : length p1 = length p) by apply Haw.
  assert (Hv1 : Forall (in_range p1) ids).
  { eapply Forall_impl; [exact Hv|]. intros x Hx. by rewrite (in_range_length p p1). }
  assert (Hroots : map (root_of p1) ids = map (root_of p) ids).
  { apply map_ext_in. intros x Hx. rewrite List.Forall_forall in Hv. auto. }
  exists (set_id st p1), (map (root_of p) ids). split; [done|].
  unfold _root_path_compression, on_id, root_path_compression. simpl.
  rewrite root_while_spec; [|done|apply within_length; [done|done|lia]].
  rewrite full_while_flat; [|done|done|lia|done].
  by rewrite Hroots.
Qed.

Section FindRoot.

Lemma set_id_items_roots st ids :
  forest (id_updated st) -> Forall (in_range (id_updated st)) ids ->
  exists p', set_id_items ids (map (root_of (id_updated st)) ids) st = Ok (set_id st p') tt /\
    ancestor_write (id_updated st) p' /\
    (forall v, In v ids -> par p' v = root_of (id_updated st) v) /\
    (forall v, in_range (id_updated st) v -> ~ In v ids -> par p' v = par (id_updated st) v).
Proof.
  intros Hf Hv. set (p := id_updated st).
  set (p' := write_all p (zip (map Z.to_nat ids) (map (root_of p) ids))).
  assert (Hput : np_put p ids (map (root_of p) ids) = Some p')
    by (by rewrite np_put_in_range).
  destruct (np_put_map p ids _ p' Hv Hput) as (Hlen & Hpar & Hwr).
  exists p'. split; [unfold set_id_items, on_id; change (id_updated st) with p; by rewrite np_broadcast_map, Hput|].
  split; [|split; [done|]].
  - split; [done|]. intros x Hx. destruct (Hpar x Hx) as [->| ->].
    + exists 1%nat; split; [lia|done].
    + exists (length p); split; [unfold in_range, np_len in Hx; lia|done].
  - intros v Hr Hn.
    destruct (np_put_par p ids _ p' v Hv Hput Hr) as [[-> _]|(w & Hw & _)]; [done|].
    exfalso. apply Hn. exact (in_zip_l _ _ _ _ Hw).
Qed.

Lemma find_root_spec fuel st ids pc pct :
  forest (id_updated st) -> Forall (in_range (id_updated st)) ids ->
  (length (id_updated st) <= fuel)%nat -> pc_mode pct ->
  exists p', find_root fuel ids pc pct st = Ok (set_id st p') tt /\
    ancestor_write (id_updated st) p'.
Proof.
  intros Hf Hv Hfuel Hpc. unfold find_root. destruct pc.
  - destruct (_root_path_compression_spec fuel st ids pct Hf Hv Hfuel Hpc)
      as (p1 & H1 & Haw1 & _).
    pose proof (ancestor_write_forest _ _ Hf Haw1) as [Hf1 Hr1].
    assert (Hv1 : Forall (in_range p1) ids).
    { eapply Forall_impl; [exact Hv|]. intros x Hx.
      by rewrite (in_range_length (id_updated st) p1) by apply Haw1. }
    assert (Hm : map (root_of (id_updated st)) ids = map (root_of (id_updated (set_id st p1))) ids).
    { apply map_ext_in. intros x Hx. rewrite List.Forall_forall in Hv. simpl.
      symmetry. auto. }
    destruct (set_id_items_roots (set_id st p1) ids Hf1 Hv1) as (p2 & H2 & Haw2 & _).
    exists p2. unfold bind. rewrite H1, Hm, H2. split; [by destruct st|].
    by apply (ancestor_write_trans _ p1).
  - destruct (set_id_items_roots st ids Hf Hv) as (p2 & H2 & Haw2 & _).
    exists p2. unfold bind. rewrite _root_spec by done. by rewrite H2.
Qed.

End FindRoot.

(** C3 (as the code has it). [find_root] with [path_compression=False]
    returns [None] and stores each tested vertex's root as its parent: on a
    forest, with in-range ids, the entries of the tested vertices become
    their roots and every other entry is unchanged; the private [_root]
    itself returns the roots and changes nothing. *)
Theorem find_root_plain_frame fuel st ids pct :
  forest (id_updated st) -> Forall (in_range (id_updated st)) ids ->
  (length (id_updated st) <= fuel)%nat ->
  _root fuel ids st = Ok st (map (root_of (id_updated st)) ids) /\
  exists p', find_root fuel ids false pct st = Ok (set_id st p') tt /\
    length p' = length (id_updated st) /\
    (forall v, In v ids -> par p' v = root_of (id_updated st) v) /\
    (forall v, in_range (id_updated st) v -> ~ In v ids -> par p' v = par (id_updated st) v).
Proof.
  intros Hf Hv Hfuel. split; [by apply _root_spec|].
  destruct (set_id_items_roots st ids Hf Hv) as (p2 & H2 & Haw2 & Hin & Hout).
  exists p2. unfold find_root, bind. rewrite _root_spec by done. rewrite H2.
  split; [done|]. split; [apply Haw2|]. done.
Qed.

(** C3 fails as stated: on the docstring graph, [find_root([10],
    path_compression=False)] rewrites the parent of vertex 10 from 8 to its
    root 3. *)
Lemma find_root_plain_mutates :
  find_root 11 [10] false "path_halving" (init scenario) =
    Ok (init [0; 0; 0; 3; 3; 3; 9; 7; 9; 4; 3]) tt /\
  [0; 0; 0; 3; 3; 3; 9; 7; 9; 4; 3] <> scenario.
Proof. split; [reflexivity|discriminate]. Qed.

Section Union.

Lemma set_id_twice st p1 p2 : set_id (set_id st p1) p2 = set_id st p2.
Proof. by destruct st. Qed.

Lemma np_all_eq_same (v w : list Z) :
  length v = length w -> np_all_eq v w = forallb (fun '(x, y) => x =? y) (zip v w).
Proof.
  intros H. unfold np_all_eq. cbv zeta.
  assert (Hn : (if Nat.eqb (length v) 1 then length w else length v) = length v)
    by (destruct (Nat.eqb _ _); lia).
  rewrite Hn, !np_broadcast_same by lia. done.
Qed.

Lemma np_all_eq_refl (l : list Z) : np_all_eq l l = true.
Proof.
  rewrite np_all_eq_same by done.
  induction l as [|a l IH]; simpl; [done|]. by rewrite Z.eqb_refl.
Qed.

Lemma in_zip_map2 (f g : Z -> Z) (l1 l2 : list Z) a b :
  In (a, b) (zip l1 l2) -> In (f a, g b) (zip (map f l1) (map g l2)).
Proof.
  revert l2. induction l1 as [|x l1 IH]; intros [|y l2] H; simpl in *; try done.
  destruct H as [H|H]; [injection H as -> ->; by left|right; auto].
Qed.

Lemma map_zip_eq (f g : Z -> Z) (l1 l2 : list Z) :
  length l1 = length l2 -> (forall a b, In (a, b) (zip l1 l2) -> f a = g b) ->
  map f l1 = map g l2.
Proof.
  revert l2. induction l1 as [|x l1 IH]; intros [|y l2] Hlen H; simpl in *; try done.
  f_equal; [apply H; by left|]. apply IH; [lia|]. intros a b Hab. apply H. by right.
Qed.

(** The two root-finds of [build_quick_union], then the short-circuit or
    the linking write [self.id_updated[i] = j]. *)
Lemma build_quick_union_spec fuel st minor main pc pct :
  forest (id_updated st) -> Forall (in_range (id_updated st)) minor ->
  Forall (in_range (id_updated st)) main ->
  (length (id_updated st) <= fuel)%nat -> pc_mode pct ->
  let i := map (root_of (id_updated st)) minor in
  let j := map (root_of (id_updated st)) main in
  exists p2, ancestor_write (id_updated st) p2 /\ (pc = false -> p2 = id_updated st) /\
    (pc = true ->
       (let* _ := _root_path_compression fuel minor pct in
        let* _ := _root_path_compression fuel main pct in ret tt) st = Ok (set_id st p2) tt) /\
    build_quick_union fuel minor main pc pct st =
      if np_all_eq i j then Ok (set_id st p2) tt
      else match np_broadcast (length i) j with
           | Some j' => Ok (set_id st (write_all p2 (zip (map Z.to_nat i) j'))) tt
           | None => Raise (set_id st p2) ValueError
           end.
Proof.
  intros Hf Hmi Hma Hfuel Hpc i j. set (p := id_updated st) in *.
  assert (Hi : Forall (in_range p) i).
  { subst i. rewrite Forall_map. eapply Forall_impl; [exact Hmi|].
    intros. by apply root_of_in_range. }
  unfold build_quick_union. destruct pc.
  - destruct (_root_path_compression_spec fuel st minor pct Hf Hmi Hfuel Hpc)
      as (p1 & H1 & Haw1 & _).
    pose proof (ancestor_write_forest _ _ Hf Haw1) as [Hf1 Hr1].
    assert (Hlen1 : length p1 = length p) by apply Haw1.
    assert (Hma1 : Forall (in_range p1) main).
    { eapply Forall_impl; [exact Hma|]. intros x Hx. by rewrite (in_range_length p p1). }
    destruct (_root_path_compression_spec fuel (set_id st p1) main pct Hf1 Hma1
                ltac:(simpl; lia) Hpc) as (p2 & H2 & Haw2 & _).
    simpl in H2, Haw2. rewrite set_id_twice in H2.
    change (map (root_of (id_updated st)) minor) with i in H1.
    assert (Hj : map (root_of p1) main = j).
    { subst j. apply map_ext_in. intros x Hx. rewrite List.Forall_forall in Hma. auto. }
    rewrite Hj in H2.
    exists p2. split; [by apply (ancestor_write_trans _ p1)|]. split; [discriminate|].
    split.
    + intros _. unfold bind. rewrite H1, H2. done.
    + unfold bind. rewrite H1, H2. simpl.
      destruct (np_all_eq i j); [done|].
      unfold set_id_items, on_id. simpl. destruct (np_broadcast _ _); [|done].
      rewrite np_put_in_range; [done|].
      eapply Forall_impl; [exact Hi|]. intros x Hx.
      rewrite (in_range_length p p2); [done|].
      apply (proj1 (ancestor_write_trans p p1 p2 Hf Haw1 Haw2)).
  - exists p. split; [apply ancestor_write_refl|]. split; [done|]. split; [discriminate|].
    unfold bind. rewrite !_root_spec by done.
    change (map (root_of (id_updated st)) minor) with i.
    change (map (root_of (id_updated st)) main) with j.
    destruct (np_all_eq i j); [by destruct st|].
    unfold set_id_items, on_id. destruct (np_broadcast _ _); [|by destruct st].
    rewrite np_put_in_range by done. done.
Qed.

End Union.

(** C7 (as the code has it). When every pair of the batch already shares a
    root, [build_quick_union] links nothing: with [path_compression=False]
    it leaves the instance unchanged, and with compression (either
    documented mode) it does exactly what its two compressing root-finds
    do, which keeps every vertex's root. *)
Theorem union_short_circuit fuel st minor main pct :
  forest (id_updated st) -> Forall (in_range (id_updated st)) minor ->
  Forall (in_range (id_updated st)) main ->
  (length (id_updated st) <= fuel)%nat -> pc_mode pct ->
  map (root_of (id_updated st)) minor = map (root_of (id_updated st)) main ->
  build_quick_union fuel minor main false pct st = Ok st tt /\
  exists p2,
    (let* _ := _root_path_compression fuel minor pct in
     let* _ := _root_path_compression fuel main pct in ret tt) st = Ok (set_id st p2) tt /\
    build_quick_union fuel minor main true pct st = Ok (set_id st p2) tt /\
    forest p2 /\
    (forall v, in_range (id_updated st) v -> root_of p2 v = root_of (id_updated st) v).
Proof.
  intros Hf Hmi Hma Hfuel Hpc Heq. split.
  - destruct (build_quick_union_spec fuel st minor main false pct Hf Hmi Hma Hfuel Hpc)
      as (p2 & _ & Hp2 & _ & Hrun).
    rewrite Hrun, Heq, np_all_eq_refl, Hp2 by done. by destruct st.
  - destruct (build_quick_union_spec fuel st minor main true pct Hf Hmi Hma Hfuel Hpc)
      as (p2 & Haw & _ & Hseq & Hrun).
    exists p2. split; [by apply Hseq|]. split; [by rewrite Hrun, Heq, np_all_eq_refl|].
    by apply ancestor_write_forest.
Qed.

(** C7 fails as stated: on the docstring graph, 10 and 3 share the root 3,
    yet [build_quick_union([10],[3])] with the default path halving
    rewrites the parents of 10 and 9. *)
Lemma union_short_circuit_compresses :
  map (root_of scenario) [10] = map (root_of scenario) [3] /\
  build_quick_union 11 [10] [3] true "path_halving" (init scenario) =
    Ok (init [0; 0; 0; 3; 3; 3; 9; 7; 9; 3; 9]) tt /\
  [0; 0; 0; 3; 3; 3; 9; 7; 9; 3; 9] <> scenario.
Proof. split; [reflexivity|split; [reflexivity|discriminate]]. Qed.


Section UnionLinks.

Lemma set_id_id st : set_id st (id_updated st) = st.
Proof. by destruct st. Qed.

Lemma zip_map_fst_Z (f : Z -> nat) (l vals : list Z) :
  zip (map f l) vals = map (fun ab => (f ab.1, ab.2)) (zip l vals).
Proof.
  revert vals. induction l as [|a l IH]; intros [|b vals]; simpl; try done. by rewrite IH.
Qed.

(** What a batch write leaves at an in-range vertex: the last value
    stored there, or its old parent. *)
Lemma par_write_pairs p ps v :
  Forall (fun ab => in_range p ab.1) ps -> in_range p v ->
  par (write_all p (map (fun ab => (Z.to_nat ab.1, ab.2)) ps)) v =
  fold_left (fun t ab => if ab.1 =? v then ab.2 else t) ps (par p v).
Proof.
  revert p. induction ps as [|[a b] ps IH]; intros p Hps Hv; simpl; [done|].
  inversion Hps as [|? ? Ha Hps']; subst. simpl in Ha.
  assert (Hl : length (<[Z.to_nat a := b]> p) = length p) by apply length_insert.
  rewrite IH.
  - f_equal. unfold par, in_range, np_len in *.
    destruct (Z.eqb_spec a v) as [->|Hne].
    + rewrite list_lookup_insert_eq by lia. done.
    + rewrite list_lookup_insert_ne by lia. done.
  - eapply Forall_impl; [exact Hps'|]. intros ab Hab.
    unfold in_range, np_len in *. by rewrite Hl.
  - unfold in_range, np_len in *. by rewrite Hl.
Qed.

Lemma fold_links_absent (ps : list (Z * Z)) r t :
  (forall d, ~ In (r, d) ps) ->
  fold_left (fun t ab => if ab.1 =? r then ab.2 else t) ps t = t.
Proof.
  revert t. induction ps as [|[a b] ps IH]; intros t H; simpl; [done|].
  destruct (Z.eqb_spec a r) as [->|Hne].
  - exfalso. apply (H b). by left.
  - apply IH. intros d Hd. apply (H d). by right.
Qed.

Lemma fold_links_cases (ps : list (Z * Z)) r t :
  fold_left (fun t ab => if ab.1 =? r then ab.2 else t) ps t = t \/
  exists d, In (r, d) ps /\ fold_left (fun t ab => if ab.1 =? r then ab.2 else t) ps t = d.
Proof.
  revert t. induction ps as [|[a b] ps IH]; intros t; simpl; [by left|].
  destruct (IH (if a =? r then b else t)) as [H|(d & Hd & H)].
  - rewrite H. destruct (Z.eqb_spec a r) as [->|Hne]; [|by left].
    right. exists b. split; [by left|done].
  - right. exists d. split; [by right|done].
Qed.

Lemma fold_links_last (ps : list (Z * Z)) r t x :
  In (r, x) ps ->
  exists d, In (r, d) ps /\ fold_left (fun t ab => if ab.1 =? r then ab.2 else t) ps t = d.
Proof.
  revert t. induction ps as [|[a b] ps IH]; intros t Hin; simpl in *; [done|].
  destruct Hin as [[= -> ->]|Hin].
  - rewrite Z.eqb_refl. destruct (fold_links_cases ps r x) as [H|(d & Hd & H)].
    + exists x. split; [by left|done].
    + exists d. split; [by right|done].
  - destruct (IH (if a =? r then b else t) Hin) as (d & Hd & H).
    exists d. split; [by right|done].
Qed.

Lemma link_target_cases (ps : list (Z * Z)) r :
  link_target ps r = r \/ exists d, In (r, d) ps /\ link_target ps r = d.
Proof. apply fold_links_cases. Qed.

Lemma link_target_agree (ps : list (Z * Z)) r x :
  In (r, x) ps -> (forall d, In (r, d) ps -> d = x) -> link_target ps r = x.
Proof.
  intros Hin Hall. unfold link_target.
  destruct (fold_links_last ps r r x Hin) as (d & Hd & ->). by apply Hall.
Qed.

Lemma iter_fixed (f : Z -> Z) n x : f x = x -> Nat.iter n f x = x.
Proof. intros H. induction n as [|n IH]; simpl; [done|]. by rewrite IH. Qed.

(** A parent chain that stays in range and reaches a root at some step
    reaches it within [len(p)] steps (its vertices before the root are
    distinct). *)
Lemma iter_root_depth p v K :
  (forall k, in_range p (iter_par p k v)) -> is_root p (iter_par p K v) ->
  is_root p (iter_par p (length p) v).
Proof.
  intros Hin HK. set (N := length p).
  destruct (Z.eq_dec (par p (iter_par p N v)) (iter_par p N v)) as [Hr|Hnr]; [done|exfalso].
  assert (Hnon : forall a, (a <= N)%nat -> ~ is_root p (iter_par p a v)).
  { intros a Ha Hra. apply Hnr. by apply (is_root_iter_mono p a). }
  set (l := map (fun k => Z.to_nat (iter_par p k v)) (seq 0 (S N))).
  assert (Hnd : List.NoDup l).
  { apply NoDup_map_NoDup_ForallPairs; [|apply seq_NoDup].
    intros a b Ha Hb Heq. apply in_seq in Ha, Hb.
    pose proof (Hin a) as Ra. pose proof (Hin b) as Rb. unfold in_range in Ra, Rb.
    assert (Hab : iter_par p a v = iter_par p b v) by lia.
    destruct (Nat.lt_total a b) as [Hlt|[Heq'|Hgt]]; [|done|].
    - exfalso. apply (Hnon a); [lia|].
      pose proof (iter_par_periodic p a b v Hab ltac:(lia) K) as Hper.
      rewrite <- Hper. apply (is_root_iter_mono p K); [done|nia].
    - exfalso. apply (Hnon b); [lia|].
      pose proof (iter_par_periodic p b a v (eq_sym Hab) ltac:(lia) K) as Hper.
      rewrite <- Hper. apply (is_root_iter_mono p K); [done|nia]. }
  assert (Hincl : incl l (seq 0 N)).
  { intros x Hx. apply in_map_iff in Hx as (k & <- & _).
    pose proof (Hin k) as Rk. unfold in_range, np_len in Rk. apply in_seq. lia. }
  pose proof (NoDup_incl_length Hnd Hincl) as Hlen.
  subst l. rewrite length_map, !length_seq in Hlen. lia.
Qed.

Lemma In_zip_repeat (l : list Z) (y a b : Z) :
  In (a, b) (zip l (repeat y (length l))) -> In a l /\ b = y.
Proof.
  induction l as [|x l IH]; simpl; [done|]. intros [[= -> ->]|H]; [split; [by left|done]|].
  destruct (IH H). split; [by right|done].
Qed.

Lemma link_pairs_In (i j : list Z) a b : In (a, b) (link_pairs i j) -> In a i /\ In b j.
Proof.
  unfold link_pairs, np_broadcast. destruct (Nat.eqb _ _).
  - intros H. split; [exact (in_zip_l _ _ _ _ H)|exact (in_zip_r _ _ _ _ H)].
  - destruct j as [|y [|y' j]]; simpl; [tauto| |tauto].
    intros H. apply In_zip_repeat in H as [? ->]. split; [done|by left].
Qed.

Lemma link_pairs_same (i j : list Z) : length i = length j -> link_pairs i j = zip i j.
Proof. intros H. unfold link_pairs. by rewrite np_broadcast_same. Qed.

(** When [sp.all(i == j)] holds, every stored pair would be a root with
    itself. *)
Lemma np_all_eq_links (i j : list Z) a b :
  np_all_eq i j = true -> In (a, b) (link_pairs i j) -> a = b.
Proof.
  unfold np_all_eq, link_pairs. cbv zeta. intros H Hin.
  destruct (np_broadcast (length i) j) as [j'|] eqn:Ej; [|done].
  assert (Hn : (if Nat.eqb (length i) 1 then length j else length i) = length i).
  { destruct (Nat.eqb_spec (length i) 1) as [E|E]; [|done].
    rewrite E in Ej. unfold np_broadcast in Ej.
    destruct (Nat.eqb_spec (length j) 1) as [E'|E']; [lia|].
    destruct j as [|y [|y' j]]; simpl in *; try discriminate; lia. }
  rewrite Hn, np_broadcast_same, Ej in H by done.
  apply forallb_forall with (x := (a, b)) in H; [|done]. by apply Z.eqb_eq.
Qed.

(** *** A batch write of root links on a forest *)

Section BatchLink.

Variable p : list Z.
Variable ps : list (Z * Z).
Hypothesis Hf : forest p.
Hypothesis Hfst : Forall (fun ab => in_range p ab.1 /\ is_root p ab.1) ps.
Hypothesis Hsnd : Forall (fun ab => in_range p ab.2 /\ is_root p ab.2) ps.

Local Abbreviation p' := (write_all p (map (fun ab => (Z.to_nat ab.1, ab.2)) ps)).

Lemma batch_length : length p' = length p.
Proof. apply length_write_all. Qed.

Lemma batch_in_range v : in_range p' v <-> in_range p v.
Proof. apply in_range_length, batch_length. Qed.

Lemma batch_nonroot v : in_range p v -> ~ is_root p v -> par p' v = par p v.
Proof.
  intros Hv Hn. rewrite par_write_pairs; [|by eapply Forall_impl; [exact Hfst|intros ? []]|done].
  apply fold_links_absent. intros d Hd. apply Hn.
  rewrite List.Forall_forall in Hfst. exact (proj2 (Hfst _ Hd)).
Qed.

Lemma batch_root r : in_range p r -> is_root p r -> par p' r = link_target ps r.
Proof.
  intros Hr Hroot. rewrite par_write_pairs; [|by eapply Forall_impl; [exact Hfst|intros ? []]|done].
  unfold is_root in Hroot. by rewrite Hroot.
Qed.

Lemma batch_target r : in_range p r -> is_root p r ->
  in_range p (link_target ps r) /\ is_root p (link_target ps r).
Proof.
  intros Hr Hroot. destruct (link_target_cases ps r) as [->|(d & Hd & ->)]; [done|].
  rewrite List.Forall_forall in Hsnd. exact (Hsnd _ Hd).
Qed.

Lemma batch_iter_root k r : in_range p r -> is_root p r ->
  iter_par p' k r = Nat.iter k (link_target ps) r /\
  in_range p (Nat.iter k (link_target ps) r) /\ is_root p (Nat.iter k (link_target ps) r).
Proof.
  intros Hr Hroot. induction k as [|k (IH & Hin & Hrt)]; [done|].
  rewrite iter_par_S, IH. simpl. rewrite batch_root by done.
  split; [done|]. by apply batch_target.
Qed.

Lemma batch_reach k v : in_range p v -> exists m, iter_par p' m v = iter_par p k v.
Proof.
  revert v. induction k as [|k IH]; intros v Hv; [by exists 0%nat|].
  simpl. destruct (Z.eq_dec (par p v) v) as [Hroot|Hn].
  - rewrite Hroot. by apply IH.
  - destruct (IH (par p v) (forest_par_in_range p v Hf Hv)) as (m & Hm).
    exists (S m). simpl. by rewrite batch_nonroot.
Qed.

Lemma batch_par_in_range v : in_range p v -> in_range p (par p' v).
Proof.
  intros Hv. destruct (Z.eq_dec (par p v) v) as [Hroot|Hn].
  - rewrite batch_root by done. by apply batch_target.
  - rewrite batch_nonroot by done. by apply forest_par_in_range.
Qed.

Lemma batch_iter_in_range k v : in_range p v -> in_range p (iter_par p' k v).
Proof.
  revert v. induction k as [|k IH]; intros v Hv; [done|].
  simpl. apply IH. by apply batch_par_in_range.
Qed.

(** The array after the write is a forest exactly when the links between
    roots form no cycle. *)
Lemma batch_forest_iff : forest p' <-> links_acyclic (length p) ps.
Proof.
  split.
  - intros Hf'. unfold links_acyclic. rewrite List.Forall_forall. intros [a b] Hab. simpl.
    pose proof Hfst as Hfst'. rewrite List.Forall_forall in Hfst'.
    destruct (Hfst' _ Hab) as [Ha Hra]. simpl in Ha, Hra.
    destruct (batch_iter_root (length p) a Ha Hra) as (Hit & Hin & Hrt).
    assert (Hroot' : is_root p' (root_of p' a))
      by (apply forest_root_of_root; [done|by apply batch_in_range]).
    unfold root_of in Hroot'. rewrite batch_length, Hit in Hroot'.
    unfold is_root in Hroot'. rewrite batch_root in Hroot' by done. exact Hroot'.
  - intros Hac. apply forest_spec. intros v Hv. apply batch_in_range in Hv.
    split; [apply batch_in_range; by apply batch_par_in_range|].
    set (r := root_of p v).
    assert (Hr : in_range p r) by (by apply root_of_in_range).
    assert (Hrr : is_root p r) by (by apply forest_root_of_root).
    destruct (batch_reach (length p) v Hv) as (m & Hm).
    change (iter_par p (length p) v) with r in Hm.
    destruct (batch_iter_root (length p) r Hr Hrr) as (Hit & Hin & Hrt).
    assert (Hfix : link_target ps (Nat.iter (length p) (link_target ps) r) =
                   Nat.iter (length p) (link_target ps) r).
    { destruct (link_target_cases ps r) as [Hs|(d & Hd & _)].
      + rewrite (iter_fixed _ _ r Hs). exact Hs.
      + unfold links_acyclic in Hac. rewrite List.Forall_forall in Hac. exact (Hac _ Hd). }
    unfold root_of. apply (iter_root_depth _ v (m + length p)).
    + intros k. apply batch_in_range. by apply batch_iter_in_range.
    + rewrite iter_par_add, Hm, Hit. unfold is_root. rewrite batch_root by done. exact Hfix.
Qed.

Lemma batch_root_of v : forest p' -> in_range p v -> root_of p' v = root_of p' (root_of p v).
Proof.
  intros Hf' Hv. destruct (batch_reach (length p) v Hv) as (m & Hm).
  change (root_of p v) with (iter_par p (length p) v). rewrite <- Hm.
  symmetry. apply root_of_iter; [done|by apply batch_in_range].
Qed.

Lemma batch_root_link r : forest p' -> in_range p r -> is_root p r ->
  root_of p' r = root_of p' (link_target ps r).
Proof.
  intros Hf' Hr Hrr. rewrite <- batch_root by done.
  symmetry. apply root_of_par; [done|by apply batch_in_range].
Qed.

End BatchLink.

(** [build_quick_union] on a forest with in-range batches: the two
    root-finds give an array [p2] with the same roots; then the call stops
    when [sp.all(i == j)], raises [ValueError] when [j] cannot be broadcast
    to the length of [i], and otherwise stores the pairs [link_pairs i j],
    which link roots of [p2] to roots of [p2]. *)
Lemma build_quick_union_links fuel st minor main pc pct :
  forest (id_updated st) -> Forall (in_range (id_updated st)) minor ->
  Forall (in_range (id_updated st)) main ->
  (length (id_updated st) <= fuel)%nat -> pc_mode pct ->
  let i := map (root_of (id_updated st)) minor in
  let j := map (root_of (id_updated st)) main in
  exists p2, forest p2 /\ length p2 = length (id_updated st) /\
    (forall v, in_range (id_updated st) v -> root_of p2 v = root_of (id_updated st) v) /\
    Forall (fun ab => in_range p2 ab.1 /\ is_root p2 ab.1) (link_pairs i j) /\
    Forall (fun ab => in_range p2 ab.2 /\ is_root p2 ab.2) (link_pairs i j) /\
    build_quick_union fuel minor main pc pct st =
      if np_all_eq i j then Ok (set_id st p2) tt
      else match np_broadcast (length i) j with
           | Some j' => Ok (set_id st (write_all p2 (map (fun ab => (Z.to_nat ab.1, ab.2))
                                                          (zip i j')))) tt
           | None => Raise (set_id st p2) ValueError
           end.
Proof.
  intros Hf Hmi Hma Hfuel Hpc i j. set (p := id_updated st) in *.
  destruct (build_quick_union_spec fuel st minor main pc pct Hf Hmi Hma Hfuel Hpc)
    as (p2 & Haw & _ & _ & Hrun). fold p i j in Hrun.
  pose proof (ancestor_write_forest _ _ Hf Haw) as [Hf2 Hr2].
  assert (Hl2 : length p2 = length p) by apply Haw.
  assert (Hroots : forall l, Forall (in_range p) l ->
            forall x, In x (map (root_of p) l) -> in_range p2 x /\ is_root p2 x).
  { intros l Hl x Hx. apply in_map_iff in Hx as (y & <- & Hy).
    rewrite List.Forall_forall in Hl. pose proof (Hl y Hy) as Hyr.
    split.
    - rewrite (in_range_length p p2) by done. by apply root_of_in_range.
    - rewrite <- Hr2 by done. apply forest_root_of_root; [done|].
      by rewrite (in_range_length p p2). }
  exists p2. split; [done|]. split; [done|]. split; [done|]. split; [|split].
  - rewrite List.Forall_forall. intros [a b] Hab.
    exact (Hroots minor Hmi a (proj1 (link_pairs_In i j a b Hab))).
  - rewrite List.Forall_forall. intros [a b] Hab.
    exact (Hroots main Hma b (proj2 (link_pairs_In i j a b Hab))).
  - rewrite Hrun. destruct (np_all_eq i j); [done|].
    destruct (np_broadcast (length i) j); [|done]. by rewrite zip_map_fst_Z.
Qed.

End UnionLinks.

Section Weighted.

(** A scalar root-find of [build_weighted_quick_union]. *)
Lemma scalar_root_find fuel st a (pc : bool) pct :
  forest (id_updated st) -> in_range (id_updated st) a ->
  (length (id_updated st) <= fuel)%nat -> pc_mode pct ->
  exists p1, ancestor_write (id_updated st) p1 /\
    (if pc then _root_path_compression fuel [a] pct else _root fuel [a]) st =
      Ok (set_id st p1) [root_of (id_updated st) a].
Proof.
  intros Hf Ha Hfuel Hpc.
  assert (Ha1 : Forall (in_range (id_updated st)) [a]) by (constructor; [exact Ha|constructor]).
  destruct pc.
  - destruct (_root_path_compression_spec fuel st [a] pct Hf Ha1 Hfuel Hpc)
      as (p1 & H1 & Haw & _).
    by exists p1.
  - exists (id_updated st). split; [apply ancestor_write_refl|].
    rewrite set_id_id. by apply _root_spec.
Qed.

(** [build_weighted_quick_union] on an instance whose [roots] and [size]
    do not exist yet (as after [__init__]): after the two root-finds it
    returns when the roots agree, and otherwise raises [TypeError] from the
    [find_root] call that builds the size table. *)
Lemma build_weighted_quick_union_fresh fuel st a b pc pct :
  fresh st -> forest (id_updated st) ->
  in_range (id_updated st) a -> in_range (id_updated st) b ->
  (length (id_updated st) <= fuel)%nat -> pc_mode pct ->
  exists p2, ancestor_write (id_updated st) p2 /\
    build_weighted_quick_union fuel (PyInt a) (PyInt b) pc pct st =
      if root_of (id_updated st) a =? root_of (id_updated st) b
      then Ok (set_id st p2) tt else Raise (set_id st p2) TypeError.
Proof.
  intros [Hro Hsz] Hf Ha Hb Hfuel Hpc. set (p := id_updated st) in *.
  destruct (scalar_root_find fuel st a pc pct Hf Ha Hfuel Hpc) as (p1 & Haw1 & H1).
  pose proof (ancestor_write_forest _ _ Hf Haw1) as [Hf1 Hr1].
  assert (Hl1 : length p1 = length p) by apply Haw1.
  destruct (scalar_root_find fuel (set_id st p1) b pc pct Hf1
              ltac:(simpl; by rewrite (in_range_length p p1)) ltac:(simpl; lia) Hpc)
    as (p2 & Haw2 & H2).
  simpl in H2, Haw2. rewrite set_id_twice, Hr1 in H2 by done.
  exists p2. split; [by apply (ancestor_write_trans _ p1)|].
  unfold build_weighted_quick_union, build_weighted_quick_union_kw.
  unfold bind at 1. rewrite H1. unfold bind at 1. rewrite H2. cbv beta iota delta [scalar_of]. change (id_updated st) with p.
  destruct (root_of p a =? root_of p b); [done|].
  unfold build_size, call_find_root, bind, get, roots_array, raise. simpl.
  rewrite Hsz. simpl. rewrite Hro. done.
Qed.

End Weighted.

(** C4 (as the code has it). On a forest, with in-range batches of one
    length and a documented compression mode, suppose the roots
    [i = root(minor)] and [j = root(main)] link consistently: one minor
    root is always paired with one main root, and the links between roots
    form no cycle (chains such as [0 -> 1 -> 2] are allowed). Then
    [build_quick_union(minor, main)] completes and afterwards [_root]
    gives [minor] and [main] the same roots, pair by pair. On an instance
    without [roots] and [size] (as after [__init__]), a scalar
    [build_weighted_quick_union(a, b)] that completes leaves [a] and [b]
    with one root. *)
Theorem union_pairs_share_root fuel st minor main pc pct :
  forest (id_updated st) -> Forall (in_range (id_updated st)) minor ->
  Forall (in_range (id_updated st)) main -> length minor = length main ->
  (length (id_updated st) <= fuel)%nat -> pc_mode pct ->
  minor_roots_agree (map (root_of (id_updated st)) minor) (map (root_of (id_updated st)) main) ->
  links_acyclic (length (id_updated st))
    (zip (map (root_of (id_updated st)) minor) (map (root_of (id_updated st)) main)) ->
  (exists st', build_quick_union fuel minor main pc pct st = Ok st' tt /\
     exists rs, _root fuel minor st' = Ok st' rs /\ _root fuel main st' = Ok st' rs) /\
  (fresh st -> forall a b, in_range (id_updated st) a -> in_range (id_updated st) b ->
     forall st', build_weighted_quick_union fuel (PyInt a) (PyInt b) pc pct st = Ok st' tt ->
     exists r, _root fuel [a] st' = Ok st' [r] /\ _root fuel [b] st' = Ok st' [r]).
Proof.
  intros Hf Hmi Hma Hlen Hfuel Hpc Hagree Hac. set (p := id_updated st) in *. split.
  - destruct (build_quick_union_links fuel st minor main pc pct Hf Hmi Hma Hfuel Hpc)
      as (p2 & Hf2 & Hl2 & Hr2 & Hfst & Hsnd & Hrun).
    fold p in Hfst, Hsnd, Hrun.
    set (i := map (root_of p) minor) in *. set (j := map (root_of p) main) in *.
    assert (Hlij : length i = length j) by (subst i j; by rewrite !length_map).
    rewrite link_pairs_same in Hfst, Hsnd by done.
    rewrite np_broadcast_same in Hrun by done.
    (* the array after the call, a forest in which each pair has one root *)
    assert (Hp3 : exists p3, build_quick_union fuel minor main pc pct st = Ok (set_id st p3) tt /\
              forest p3 /\ length p3 = length p /\
              forall x y, In (x, y) (zip minor main) -> root_of p3 x = root_of p3 y).
    { rewrite List.Forall_forall in Hmi, Hma.
      destruct (np_all_eq i j) eqn:Heq.
      - exists p2. split; [done|]. split; [done|]. split; [done|].
        intros x y Hxy. rewrite !Hr2 by eauto using in_zip_l, in_zip_r.
        apply (np_all_eq_links i j); [done|]. rewrite link_pairs_same by done.
        by apply in_zip_map2.
      - set (p3 := write_all p2 (map (fun ab => (Z.to_nat ab.1, ab.2)) (zip i j))).
        assert (Hf3 : forest p3).
        { apply (batch_forest_iff p2 (zip i j) Hf2 Hfst Hsnd). by rewrite Hl2. }
        exists p3. split; [done|]. split; [done|]. split; [subst p3; by rewrite length_write_all|].
        intros x y Hxy.
        assert (Hx : in_range p x) by eauto using in_zip_l.
        assert (Hy : in_range p y) by eauto using in_zip_r.
        assert (Hx2 : in_range p2 x) by (by rewrite (in_range_length p p2)).
        assert (Hy2 : in_range p2 y) by (by rewrite (in_range_length p p2)).
        pose proof (in_zip_map2 (root_of p) (root_of p) minor main x y Hxy) as Hab.
        fold i j in Hab. unfold p3.
        rewrite (batch_root_of p2 (zip i j) Hf2 Hfst x Hf3 Hx2).
        rewrite (batch_root_of p2 (zip i j) Hf2 Hfst y Hf3 Hy2).
        rewrite !Hr2 by done.
        pose proof Hfst as Hfst'. rewrite List.Forall_forall in Hfst'.
        destruct (Hfst' _ Hab) as [Har Harr]. simpl in Har, Harr.
        rewrite (batch_root_link p2 (zip i j)) by assumption.
        f_equal. apply link_target_agree; [done|].
        intros d Hd. exact (Hagree _ _ _ _ Hd Hab eq_refl). }
    destruct Hp3 as (p3 & Hrun3 & Hf3 & Hl3 & Hpair).
    exists (set_id st p3). split; [done|].
    assert (Hrange : forall l, Forall (in_range p) l -> Forall (in_range p3) l).
    { intros l Hl. eapply Forall_impl; [exact Hl|]. intros x Hx.
      by rewrite (in_range_length p p3). }
    assert (Hfuel3 : (length (id_updated (set_id st p3)) <= fuel)%nat) by (simpl; unfold p in *; lia).
    exists (map (root_of p3) minor).
    split; [apply (_root_spec fuel (set_id st p3) minor Hf3 (Hrange _ Hmi) Hfuel3)|].
    replace (map (root_of p3) minor) with (map (root_of p3) main);
      [apply (_root_spec fuel (set_id st p3) main Hf3 (Hrange _ Hma) Hfuel3)|].
    symmetry. apply map_zip_eq; [done|]. exact Hpair.
  - intros Hfr a b Ha Hb st' Hrun.
    destruct (build_weighted_quick_union_fresh fuel st a b pc pct Hfr Hf Ha Hb Hfuel Hpc)
      as (p2 & Haw & Hrun').
    rewrite Hrun in Hrun'. fold p in Hrun'.
    destruct (root_of p a =? root_of p b) eqn:Hab; [|discriminate].
    injection Hrun' as ->. apply Z.eqb_eq in Hab.
    pose proof (ancestor_write_forest _ _ Hf Haw) as [Hf2 Hr2].
    assert (Hl2 : length p2 = length p) by apply Haw.
    assert (Hfuel2 : (length (id_updated (set_id st p2)) <= fuel)%nat) by (simpl; lia).
    assert (Hone : forall x, in_range p x -> Forall (in_range (id_updated (set_id st p2))) [x]).
    { intros x Hx. constructor; [simpl; by rewrite (in_range_length p p2)|constructor]. }
    exists (root_of p2 a).
    rewrite (_root_spec fuel (set_id st p2) [a] Hf2 (Hone a Ha) Hfuel2).
    rewrite (_root_spec fuel (set_id st p2) [b] Hf2 (Hone b Hb) Hfuel2). simpl.
    rewrite !Hr2, Hab by done. done.
Qed.

(** C4 fails as stated: on the forest [[0,1,2]], [build_quick_union([0,0],
    [1,2])] writes [id[0] = 1] and then [id[0] = 2]; afterwards the first
    pair has the roots 2 and 1. *)
Lemma union_pairs_split :
  build_quick_union 11 [0; 0] [1; 2] false "path_halving" (init [0; 1; 2]) =
    Ok (init [2; 1; 2]) tt /\
  _root 11 [0] (init [2; 1; 2]) = Ok (init [2; 1; 2]) [2] /\
  _root 11 [1] (init [2; 1; 2]) = Ok (init [2; 1; 2]) [1].
Proof. split; [reflexivity|split; reflexivity]. Qed.


(** C2 (as the code has it). From an instance whose parents array is a
    forest, with in-range arguments and a documented compression mode, the
    state any operation finishes or raises in holds a forest: [_root],
    [_root_path_compression], [find_root]; [build_quick_union] exactly
    when the links it stores between roots form no cycle (batches of any
    lengths, [main] broadcast as NumPy does; chained links such as
    [0 -> 1 -> 2] are allowed); and [build_weighted_quick_union] on an
    instance without [roots] and [size], which it leaves without them, so
    the property carries over a sequence of operations. *)
Theorem operations_keep_forest fuel st :
  forest (id_updated st) -> (length (id_updated st) <= fuel)%nat ->
  (forall ids, Forall (in_range (id_updated st)) ids ->
     (forall st', outcome_state (_root fuel ids st) = Some st' -> forest (id_updated st')) /\
     (forall pct, pc_mode pct -> forall st',
        outcome_state (_root_path_compression fuel ids pct st) = Some st' ->
        forest (id_updated st')) /\
     (forall pc pct, pc_mode pct -> forall st',
        outcome_state (find_root fuel ids pc pct st) = Some st' -> forest (id_updated st'))) /\
  (forall minor main pc pct,
     Forall (in_range (id_updated st)) minor -> Forall (in_range (id_updated st)) main ->
     pc_mode pct ->
     forall st', outcome_state (build_quick_union fuel minor main pc pct st) = Some st' ->
     (forest (id_updated st') <->
      links_acyclic (length (id_updated st))
        (link_pairs (map (root_of (id_updated st)) minor) (map (root_of (id_updated st)) main)))) /\
  (fresh st -> forall a b pc pct,
     in_range (id_updated st) a -> in_range (id_updated st) b -> pc_mode pct ->
     forall st', outcome_state (build_weighted_quick_union fuel (PyInt a) (PyInt b) pc pct st) =
                 Some st' -> forest (id_updated st') /\ fresh st').
Proof.
  intros Hf Hfuel. split; [|split].
  - intros ids Hids. split; [|split].
    + intros st'. rewrite _root_spec by done. simpl. by intros [= <-].
    + intros pct Hpc st'.
      destruct (_root_path_compression_spec fuel st ids pct Hf Hids Hfuel Hpc)
        as (p' & -> & Haw & _).
      simpl. intros [= <-]. simpl. by apply (ancestor_write_forest _ _ Hf Haw).
    + intros pc pct Hpc st'.
      destruct (find_root_spec fuel st ids pc pct Hf Hids Hfuel Hpc) as (p' & -> & Haw).
      simpl. intros [= <-]. simpl. by apply (ancestor_write_forest _ _ Hf Haw).
  - intros minor main pc pct Hmi Hma Hpc st'.
    destruct (build_quick_union_links fuel st minor main pc pct Hf Hmi Hma Hfuel Hpc)
      as (p2 & Hf2 & Hl2 & _ & Hfst & Hsnd & Hrun).
    set (i := map (root_of (id_updated st)) minor) in *.
    set (j := map (root_of (id_updated st)) main) in *.
    rewrite Hrun. destruct (np_all_eq i j) eqn:Heq.
    + simpl. intros [= <-]. simpl. split; [intros _|done].
      unfold links_acyclic. rewrite List.Forall_forall. intros [a b] Hab. simpl.
      pose proof (np_all_eq_links i j a b Heq Hab) as <-.
      assert (Ht : link_target (link_pairs i j) a = a).
      { apply link_target_agree; [done|]. intros d Hd.
        symmetry. exact (np_all_eq_links i j a d Heq Hd). }
      rewrite (iter_fixed _ _ a Ht). exact Ht.
    + destruct (np_broadcast (length i) j) as [j'|] eqn:Eb; simpl; intros [= <-]; simpl.
      * assert (Hps : link_pairs i j = zip i j') by (unfold link_pairs; by rewrite Eb).
        rewrite Hps in Hfst, Hsnd |- *. rewrite <- Hl2.
        exact (batch_forest_iff p2 (zip i j') Hf2 Hfst Hsnd).
      * assert (Hps : link_pairs i j = []) by (unfold link_pairs; by rewrite Eb).
        rewrite Hps. split; [intros _; constructor|done].
  - intros Hfr a b pc pct Ha Hb Hpc st'.
    destruct (build_weighted_quick_union_fresh fuel st a b pc pct Hfr Hf Ha Hb Hfuel Hpc)
      as (p2 & Haw & ->).
    pose proof (ancestor_write_forest _ _ Hf Haw) as [Hf2 _].
    destruct Hfr as [Hro Hsz].
    destruct (_ =? _); simpl; intros [= <-]; (split; [done|split; done]).
Qed.

(** C2 fails as stated: on the forest [[0,1]] (two roots),
    [build_quick_union([0,1],[1,0])] links each root to the other and
    leaves the cycle [[1,0]]. *)
Lemma union_makes_cycle :
  forest [0; 1] /\
  build_quick_union 11 [0; 1] [1; 0] false "path_halving" (init [0; 1]) =
    Ok (init [1; 0]) tt /\
  ~ forest [1; 0].
Proof.
  split; [reflexivity|split; [reflexivity|]].
  unfold forest. simpl. discriminate.
Qed.


Section OutOfRange.

Lemma np_take_oob p v : Exists (out_of_bounds p) v -> np_take p v = None.
Proof.
  induction 1 as [x v Hx|x v _ IH]; simpl.
  - unfold np_get, np_index. unfold out_of_bounds in Hx.
    destruct (0 <=? x) eqn:E1, (x <? np_len p) eqn:E2, (- np_len p <=? x) eqn:E3, (x <? 0) eqn:E4;
      simpl; try done; lia.
  - rewrite IH. by destruct (np_get p x).
Qed.

Lemma np_put_length_any p idx vals p' : np_put p idx vals = Some p' -> length p' = length p.
Proof.
  unfold np_put. destruct (np_positions _ _); [|done]. intros [= <-]. apply length_write_all.
Qed.

Lemma root_while_oob fuel p v : Exists (out_of_bounds p) v -> root_while fuel p v = Raise p IndexError.
Proof. intros H. destruct fuel; simpl; by rewrite np_take_oob. Qed.

Lemma halving_while_oob fuel p v :
  Exists (out_of_bounds p) v -> halving_while fuel p v = Raise p IndexError.
Proof. intros H. destruct fuel; simpl; by rewrite np_take_oob. Qed.

Lemma root_path_compression_oob fuel p v pct :
  pc_mode pct -> Exists (out_of_bounds p) v ->
  root_path_compression fuel p v pct = Raise p IndexError.
Proof.
  intros [-> | ->] H; unfold root_path_compression; simpl.
  - by apply halving_while_oob.
  - by rewrite root_while_oob.
Qed.

Lemma root_while_idx fuel p v : idx_only length p (root_while fuel p v).
Proof.
  revert v. induction fuel as [|f IH]; intros v; simpl;
    destruct (np_take p v); try done; destruct (np_any_ne _ _); done.
Qed.

Lemma halving_while_idx fuel p v : idx_only length p (halving_while fuel p v).
Proof.
  revert p v. induction fuel as [|f IH]; intros p v; simpl;
    destruct (np_take p v) as [pv|]; try done; destruct (np_any_ne _ _); try done.
  destruct (np_take p pv) as [gpv|]; [|done].
  destruct (np_put p v gpv) as [p'|] eqn:Hput; [|done].
  apply np_put_length_any in Hput.
  destruct (np_take p' v) as [v'|]; [|done].
  specialize (IH p' v'). destruct (halving_while f p' v'); simpl in *; lia || done.
Qed.

Lemma full_while_idx fuel p vi vj : idx_only length p (full_while fuel p vi vj).
Proof.
  revert p vi. induction fuel as [|f IH]; intros p vi; simpl;
    destruct (np_any_ne vi vj); try done.
  destruct (np_take p vi) as [vn|]; [|done].
  destruct (np_put p vi vj) as [p'|] eqn:Hput; [|done].
  apply np_put_length_any in Hput.
  specialize (IH p' vn). destruct (full_while f p' vn vj); simpl in *; lia || done.
Qed.

Lemma root_path_compression_idx fuel p v pct :
  idx_only length p (root_path_compression fuel p v pct).
Proof.
  unfold root_path_compression.
  destruct (String.eqb pct "path_halving"); [apply halving_while_idx|].
  destruct (String.eqb pct "full_pc"); [|done].
  pose proof (root_while_idx fuel p v) as H1.
  destruct (root_while fuel p v) as [p1 vj|p1 e|]; try done.
  pose proof (full_while_idx fuel p1 v vj) as H2.
  destruct (full_while fuel p1 v vj); simpl in *; lia || done.
Qed.


Lemma root_find_idx fuel st v (pc : bool) pct :
  idx_only id_len st ((if pc then _root_path_compression fuel v pct else _root fuel v) st).
Proof.
  destruct pc; unfold _root_path_compression, _root, on_id.
  - pose proof (root_path_compression_idx fuel (id_updated st) v pct) as H.
    destruct (root_path_compression _ _ _ _); done.
  - pose proof (root_while_idx fuel (id_updated st) v) as H.
    destruct (root_while _ _ _); done.
Qed.

Lemma root_find_oob fuel st v (pc : bool) pct :
  pc_mode pct -> Exists (out_of_bounds (id_updated st)) v ->
  (if pc then _root_path_compression fuel v pct else _root fuel v) st = Raise st IndexError.
Proof.
  intros Hpc H. destruct pc; unfold _root_path_compression, _root, on_id.
  - rewrite root_path_compression_oob by done. by rewrite set_id_id.
  - rewrite root_while_oob by done. by rewrite set_id_id.
Qed.

Lemma out_of_bounds_len st st' v :
  id_len st' = id_len st -> out_of_bounds (id_updated st) v -> out_of_bounds (id_updated st') v.
Proof. unfold id_len, out_of_bounds, np_len. intros ->. done. Qed.

End OutOfRange.

(** C8 (as the code has it). NumPy accepts the ids [-N <= v < 0] (they
    count from the end); every id below [-N] or at least [N] is refused.
    With a documented compression mode: a batch holding such an id makes
    [_root], [_root_path_compression] and [find_root] raise [IndexError] at
    once, with the instance unchanged; and [build_quick_union] and a scalar
    [build_weighted_quick_union] given such an id never return, the only
    exception they can raise being [IndexError]. *)
Theorem out_of_range_rejected fuel st pc pct :
  pc_mode pct ->
  (forall ids, Exists (out_of_bounds (id_updated st)) ids ->
     _root fuel ids st = Raise st IndexError /\
     _root_path_compression fuel ids pct st = Raise st IndexError /\
     find_root fuel ids pc pct st = Raise st IndexError) /\
  (forall minor main,
     Exists (out_of_bounds (id_updated st)) minor \/ Exists (out_of_bounds (id_updated st)) main ->
     fails_out_of_range (build_quick_union fuel minor main pc pct st)) /\
  (forall a b, out_of_bounds (id_updated st) a \/ out_of_bounds (id_updated st) b ->
     fails_out_of_range (build_weighted_quick_union fuel (PyInt a) (PyInt b) pc pct st)).
Proof.
  intros Hpc. split; [|split].
  - intros ids H.
    pose proof (root_find_oob fuel st ids false pct Hpc H) as H0.
    pose proof (root_find_oob fuel st ids true pct Hpc H) as H1.
    simpl in H0, H1. split; [done|split; [done|]].
    unfold find_root, bind. destruct pc; [by rewrite H1|by rewrite H0].
  - intros minor main [H|H]; unfold build_quick_union, bind.
    + by rewrite (root_find_oob fuel st minor pc pct Hpc H).
    + pose proof (root_find_idx fuel st minor pc pct) as H1.
      destruct ((if pc then _root_path_compression fuel minor pct else _root fuel minor) st)
        as [st1 i|s e|]; simpl in H1; try done.
      rewrite (root_find_oob fuel st1 main pc pct Hpc); [done|].
      eapply Exists_impl; [exact H|]. intros x. by apply out_of_bounds_len.
  - intros a b H. unfold build_weighted_quick_union, build_weighted_quick_union_kw, bind.
    destruct H as [H|H].
    + by rewrite (root_find_oob fuel st [a] pc pct Hpc ltac:(by constructor)).
    + pose proof (root_find_idx fuel st [a] pc pct) as H1.
      destruct ((if pc then _root_path_compression fuel [a] pct else _root fuel [a]) st)
        as [st1 i|s e|]; simpl in H1; try done.
      rewrite (root_find_oob fuel st1 [b] pc pct Hpc); [done|].
      constructor. by apply (out_of_bounds_len st).
Qed.

(** C8 fails as stated: [-1] is outside [[0, 11)], yet [_root([-1])] on the
    docstring graph returns the root [3] of vertex 10 (NumPy reads
    [id[-1]] as [id[10]]). *)
Lemma negative_id_accepted :
  ~ (0 <= -1 < np_len scenario) /\
  _root 11 [-1] (init scenario) = Ok (init scenario) [3].
Proof. split; [unfold np_len; simpl; lia|reflexivity]. Qed.


Section TypeCheck.

Lemma never_rejects_bind {A B} (m : M A) (k : A -> M B) :
  never_rejects m -> (forall a, never_rejects (k a)) -> never_rejects (bind m k).
Proof.
  intros Hm Hk st s. unfold bind. destruct (m st) as [st' a|s' e|] eqn:E; [apply Hk| |done].
  intros [= -> ->]. exact (Hm st s E).
Qed.

Lemma never_rejects_ret {A} (a : A) : never_rejects (ret a).
Proof. done. Qed.

Lemma never_rejects_get : never_rejects get.
Proof. done. Qed.

Lemma never_rejects_raise {A} e : e <> type_rejection -> never_rejects (@raise A e).
Proof. intros He st s [= _ ->]. done. Qed.

Lemma never_rejects_idx {A} (m : M A) : (forall st, idx_only id_len st (m st)) -> never_rejects m.
Proof. intros H st s E. specialize (H st). rewrite E in H. simpl in H. by rewrite H in E. Qed.

Lemma never_rejects_root_find fuel v (pc : bool) pct :
  never_rejects (if pc then _root_path_compression fuel v pct else _root fuel v).
Proof. apply never_rejects_idx. intros st. apply root_find_idx. Qed.

Lemma never_rejects_set_id_items idx vals : never_rejects (set_id_items idx vals).
Proof.
  intros st s. unfold set_id_items, on_id.
  destruct (np_broadcast _ _) as [vals'|]; [destruct (np_put _ _ vals')|]; done.
Qed.

Lemma never_rejects_find_root fuel ids pc pct : never_rejects (find_root fuel ids pc pct).
Proof.
  unfold find_root.
  destruct pc; (apply never_rejects_bind; [|intros r; apply never_rejects_set_id_items]).
  - exact (never_rejects_root_find fuel ids true pct).
  - exact (never_rejects_root_find fuel ids false pct).
Qed.

Lemma never_rejects_call_find_root fuel kws : never_rejects (call_find_root fuel kws).
Proof.
  unfold call_find_root. destruct (forallb _ _); [apply never_rejects_find_root|].
  by apply never_rejects_raise.
Qed.

Lemma never_rejects_leaves :
  never_rejects get_size /\ (forall l, never_rejects (py_int l)) /\
  (forall x y, never_rejects (replace_in_roots x y)) /\
  (forall s, never_rejects (set_size s)) /\ (forall r, never_rejects (set_roots r)).
Proof.
  split; [|split; [|split; [|split]]].
  - intros st s. unfold get_size. destruct (size st); done.
  - intros l st s. unfold py_int. destruct l as [|k [|]]; done.
  - intros x y st s. unfold replace_in_roots. destruct (roots st) as [[]|]; done.
  - done.
  - done.
Qed.

Ltac never_rejects_tac :=
  repeat first
    [ apply never_rejects_bind; [|intros ?]
    | apply never_rejects_ret
    | apply never_rejects_get
    | apply never_rejects_root_find
    | apply never_rejects_set_id_items
    | apply never_rejects_call_find_root
    | apply (proj1 never_rejects_leaves)
    | apply (proj1 (proj2 never_rejects_leaves))
    | apply (proj1 (proj2 (proj2 never_rejects_leaves)))
    | apply (proj1 (proj2 (proj2 (proj2 never_rejects_leaves))))
    | apply (proj2 (proj2 (proj2 (proj2 never_rejects_leaves))))
    | apply never_rejects_raise; discriminate
    | lazymatch goal with |- never_rejects (match ?x with _ => _ end) => destruct x end ].

Lemma never_rejects_build_size fuel kw pc pct : never_rejects (build_size fuel kw pc pct).
Proof. unfold build_size. never_rejects_tac. Qed.

Lemma never_rejects_weighted_ints kw fuel a b pc pct :
  never_rejects (build_weighted_quick_union_kw kw fuel (PyInt a) (PyInt b) pc pct).
Proof. unfold build_weighted_quick_union_kw. never_rejects_tac; apply never_rejects_build_size. Qed.

End TypeCheck.

(** C10 (as the code has it). [build_weighted_quick_union] rejects its
    arguments exactly when one of them is not of Python type [int]: then it
    raises "Received ids must be of type int" before touching the instance;
    with two [int] arguments it never raises that exception, whatever the
    instance and the other arguments. *)
Theorem weighted_union_type_check fuel minor main pc pct st :
  (type_is_int minor && type_is_int main = false ->
   build_weighted_quick_union fuel minor main pc pct st = Raise st type_rejection) /\
  (type_is_int minor && type_is_int main = true ->
   forall s, build_weighted_quick_union fuel minor main pc pct st <> Raise s type_rejection).
Proof.
  split.
  - destruct minor, main; simpl; done.
  - destruct minor as [a|? |? |?], main as [b0|? |? |?]; simpl; try discriminate.
    intros _ s. apply never_rejects_weighted_ints.
Qed.

(** C10 fails as stated: a NumPy [int64] id (what indexing an id array
    yields) is integral and in range, yet it is rejected. *)
Lemma int64_id_rejected :
  build_weighted_quick_union 11 (NpInt64 2) (PyInt 7) true "path_halving" (init scenario) =
    Raise (init scenario) (Exception "Received ids must be of type int").
Proof. reflexivity. Qed.

(** C1 (as the code has it). Scenario 3 of the docstring: on the instance
    built from [[0,0,0,3,3,3,9,7,9,4,8]], [build_weighted_quick_union(2,7)]
    with the default arguments raises [TypeError]: the roots 0 and 7
    differ, so it builds the size table through
    [self.find_root(..., pc_type=...)], a keyword [find_root] does not
    have. The mapping stays [[0,0,0,3,3,3,9,7,9,4,8]] and no size table
    exists. Passed as [path_compression_type], the same call gives the
    documented mapping [[0,0,0,3,3,3,3,0,3,3,3]] and the size table
    (root 0: 4, root 3: 7). *)
Theorem weighted_union_scenario3 :
  build_weighted_quick_union 11 (PyInt 2) (PyInt 7) true "path_halving" (init scenario) =
    Raise (init scenario) TypeError /\
  build_weighted_quick_union_kw "path_compression_type" 11 (PyInt 2) (PyInt 7) true
      "path_halving" (init scenario) =
    Ok (mk_quick_union_algs [0; 0; 0; 3; 3; 3; 3; 0; 3; 3; 3] (Some RootsAliasId)
          (Some ([0; 3], [4; 7]))) tt.
Proof. split; reflexivity. Qed.

(* ------------------------------------------------------------------ *)
(** ** The theorems at concrete inputs *)

Lemma root_identity_across_modes_witness :
  forest scenario /\ Forall (in_range scenario) [2; 10; 7] /\ (length scenario <= 11)%nat /\
  exists p1 p2,
    _root 11 [2; 10; 7] (init scenario) = Ok (init scenario) (map (root_of scenario) [2; 10; 7]) /\
    _root_path_compression 11 [2; 10; 7] "path_halving" (init scenario) =
      Ok (set_id (init scenario) p1) (map (root_of scenario) [2; 10; 7]) /\
    _root_path_compression 11 [2; 10; 7] "full_pc" (init scenario) =
      Ok (set_id (init scenario) p2) (map (root_of scenario) [2; 10; 7]).
Proof.
  assert (Hf : forest scenario) by reflexivity.
  assert (Hr : Forall (in_range scenario) [2; 10; 7])
    by (repeat constructor; unfold in_range, np_len; simpl; lia).
  assert (Hl : (length scenario <= 11)%nat) by (simpl; lia).
  split; [exact Hf|split; [exact Hr|split; [exact Hl|]]].
  exact (root_identity_across_modes 11 (init scenario) [2; 10; 7] Hf Hr Hl).
Defined.

Lemma full_compression_idempotent_witness :
  forest scenario /\ Forall (in_range scenario) [2; 10; 7] /\ (length scenario <= 11)%nat /\
  exists st1 r,
    _root_path_compression 11 [2; 10; 7] "full_pc" (init scenario) = Ok st1 r /\
    _root_path_compression 11 [2; 10; 7] "full_pc" st1 = Ok st1 r.
Proof.
  assert (Hf : forest scenario) by reflexivity.
  assert (Hr : Forall (in_range scenario) [2; 10; 7])
    by (repeat constructor; unfold in_range, np_len; simpl; lia).
  assert (Hl : (length scenario <= 11)%nat) by (simpl; lia).
  split; [exact Hf|split; [exact Hr|split; [exact Hl|]]].
  exact (full_compression_idempotent 11 (init scenario) [2; 10; 7] Hf Hr Hl).
Defined.

Lemma find_root_plain_frame_witness :
  forest scenario /\ Forall (in_range scenario) [10] /\ (length scenario <= 11)%nat /\
  _root 11 [10] (init scenario) = Ok (init scenario) (map (root_of scenario) [10]) /\
  exists p', find_root 11 [10] false "path_halving" (init scenario) =
               Ok (set_id (init scenario) p') tt /\
    length p' = length scenario /\
    (forall v, In v [10] -> par p' v = root_of scenario v) /\
    (forall v, in_range scenario v -> ~ In v [10] -> par p' v = par scenario v).
Proof.
  assert (Hf : forest scenario) by reflexivity.
  assert (Hr : Forall (in_range scenario) [10])
    by (repeat constructor; unfold in_range, np_len; simpl; lia).
  assert (Hl : (length scenario <= 11)%nat) by (simpl; lia).
  split; [exact Hf|split; [exact Hr|split; [exact Hl|]]].
  exact (find_root_plain_frame 11 (init scenario) [10] "path_halving" Hf Hr Hl).
Defined.

Lemma union_short_circuit_witness :
  forest scenario /\ map (root_of scenario) [10] = map (root_of scenario) [3] /\
  build_quick_union 11 [10] [3] false "path_halving" (init scenario) = Ok (init scenario) tt /\
  exists p2, build_quick_union 11 [10] [3] true "path_halving" (init scenario) =
               Ok (set_id (init scenario) p2) tt /\ forest p2.
Proof.
  assert (Hf : forest scenario) by reflexivity.
  assert (Hmi : Forall (in_range scenario) [10])
    by (repeat constructor; unfold in_range, np_len; simpl; lia).
  assert (Hma : Forall (in_range scenario) [3])
    by (repeat constructor; unfold in_range, np_len; simpl; lia).
  assert (Hl : (length scenario <= 11)%nat) by (simpl; lia).
  assert (Heq : map (root_of scenario) [10] = map (root_of scenario) [3]) by reflexivity.
  destruct (union_short_circuit 11 (init scenario) [10] [3] "path_halving" Hf Hmi Hma Hl
              (or_introl eq_refl) Heq) as (H0 & p2 & _ & H1 & H2 & _).
  split; [exact Hf|split; [exact Heq|split; [exact H0|]]].
  exists p2. split; [exact H1|exact H2].
Defined.

Lemma union_pairs_share_root_witness :
  minor_roots_agree (map (root_of [0; 1; 2]) [0; 1]) (map (root_of [0; 1; 2]) [1; 2]) /\
  links_acyclic 3 (zip (map (root_of [0; 1; 2]) [0; 1]) (map (root_of [0; 1; 2]) [1; 2])) /\
  exists st', build_quick_union 3 [0; 1] [1; 2] true "path_halving" (init [0; 1; 2]) = Ok st' tt /\
    exists rs, _root 3 [0; 1] st' = Ok st' rs /\ _root 3 [1; 2] st' = Ok st' rs.
Proof.
  assert (Hf : forest [0; 1; 2]) by reflexivity.
  assert (Hmi : Forall (in_range [0; 1; 2]) [0; 1])
    by (repeat constructor; unfold in_range, np_len; simpl; lia).
  assert (Hma : Forall (in_range [0; 1; 2]) [1; 2])
    by (repeat constructor; unfold in_range, np_len; simpl; lia).
  assert (Hl : (length [0; 1; 2] <= 3)%nat) by (simpl; lia).
  assert (Ha : minor_roots_agree (map (root_of [0; 1; 2]) [0; 1]) (map (root_of [0; 1; 2]) [1; 2])).
  { intros a b c d H1 H2 E. vm_compute in H1, H2.
    destruct H1 as [[= <- <-]|[[= <- <-]|[]]]; destruct H2 as [[= <- <-]|[[= <- <-]|[]]]; lia. }
  assert (Hc : links_acyclic 3 (zip (map (root_of [0; 1; 2]) [0; 1])
                                    (map (root_of [0; 1; 2]) [1; 2])))
    by (vm_compute; repeat constructor).
  split; [exact Ha|split; [exact Hc|]].
  exact (proj1 (union_pairs_share_root 3 (init [0; 1; 2]) [0; 1] [1; 2] true "path_halving"
                  Hf Hmi Hma eq_refl Hl (or_introl eq_refl) Ha Hc)).
Defined.

Lemma operations_keep_forest_witness :
  forest [0; 1; 2] /\ (length [0; 1; 2] <= 3)%nat /\
  outcome_state (build_quick_union 3 [0; 1] [1; 2] true "path_halving" (init [0; 1; 2])) =
    Some (init [1; 2; 2]) /\
  forest [1; 2; 2] /\
  (forest [1; 2; 2] <->
   links_acyclic 3 (link_pairs (map (root_of [0; 1; 2]) [0; 1]) (map (root_of [0; 1; 2]) [1; 2]))).
Proof.
  assert (Hf : forest [0; 1; 2]) by reflexivity.
  assert (Hmi : Forall (in_range [0; 1; 2]) [0; 1])
    by (repeat constructor; unfold in_range, np_len; simpl; lia).
  assert (Hma : Forall (in_range [0; 1; 2]) [1; 2])
    by (repeat constructor; unfold in_range, np_len; simpl; lia).
  assert (Hl : (length [0; 1; 2] <= 3)%nat) by (simpl; lia).
  assert (Ho : outcome_state (build_quick_union 3 [0; 1] [1; 2] true "path_halving"
                                (init [0; 1; 2])) = Some (init [1; 2; 2])) by reflexivity.
  destruct (operations_keep_forest 3 (init [0; 1; 2]) Hf Hl) as (_ & Hu & _).
  pose proof (Hu [0; 1] [1; 2] true "path_halving" Hmi Hma (or_introl eq_refl) _ Ho) as Hiff.
  split; [exact Hf|split; [exact Hl|split; [exact Ho|split; [reflexivity|exact Hiff]]]].
Defined.

Lemma out_of_range_rejected_witness :
  pc_mode "path_halving" /\
  _root 11 [11] (init scenario) = Raise (init scenario) IndexError /\
  find_root 11 [3; -12] true "path_halving" (init scenario) = Raise (init scenario) IndexError /\
  fails_out_of_range (build_quick_union 11 [2] [-12] true "path_halving" (init scenario)) /\
  fails_out_of_range (build_weighted_quick_union 11 (PyInt 2) (PyInt 11) true "path_halving"
                        (init scenario)).
Proof.
  assert (Hpc : pc_mode "path_halving") by (left; reflexivity).
  destruct (out_of_range_rejected 11 (init scenario) true "path_halving" Hpc) as (H1 & H2 & H3).
  split; [exact Hpc|split; [|split; [|split]]].
  - apply (H1 [11]). constructor. unfold out_of_bounds, np_len; simpl; lia.
  - apply (H1 [3; -12]). apply Exists_cons_tl. constructor.
    unfold out_of_bounds, np_len; simpl; lia.
  - apply (H2 [2] [-12]). right. constructor. unfold out_of_bounds, np_len; simpl; lia.
  - apply (H3 2 11). right. unfold out_of_bounds, np_len; simpl; lia.
Defined.

Lemma weighted_union_type_check_witness :
  build_weighted_quick_union 11 (NpInt64 2) (PyInt 7) true "path_halving" (init scenario) =
    Raise (init scenario) type_rejection /\
  forall s, build_weighted_quick_union 11 (PyInt 2) (PyInt 7) true "path_halving"
              (init scenario) <> Raise s type_rejection.
Proof.
  split.
  - exact (proj1 (weighted_union_type_check 11 (NpInt64 2) (PyInt 7) true "path_halving"
                    (init scenario)) eq_refl).
  - exact (proj2 (weighted_union_type_check 11 (PyInt 2) (PyInt 7) true "path_halving"
                    (init scenario)) eq_refl).
Defined.

(* ------------------------------------------------------------------ *)
(** ** Components found by [depth_first_search] *)


Section DFSBasics.

Variable adj : list (list Z).

Lemma vertices_In u : 0 <= u < Z.of_nat (length adj) -> In u (vertices adj).
Proof.
  intros Hu. unfold vertices. apply in_map_iff. exists (Z.to_nat u).
  split; [lia|]. apply in_seq. lia.
Qed.

Lemma adj_in_range_spec :
  adj_in_rangeb adj = true ->
  forall u w, 0 <= u < Z.of_nat (length adj) -> In w (nbrs adj u) ->
  0 <= w < Z.of_nat (length adj).
Proof.
  unfold adj_in_rangeb. rewrite forallb_forall. intros H u w Hu Hw.
  specialize (H u (vertices_In u Hu)). rewrite forallb_forall in H.
  specialize (H w Hw). apply andb_true_iff in H as [H1 H2].
  apply Z.leb_le in H1. apply Z.ltb_lt in H2. lia.
Qed.

Lemma adj_symmetric_spec :
  adj_symmetricb adj = true ->
  forall u w, 0 <= u < Z.of_nat (length adj) -> In w (nbrs adj u) -> In u (nbrs adj w).
Proof.
  unfold adj_symmetricb. rewrite forallb_forall. intros H u w Hu Hw.
  specialize (H u (vertices_In u Hu)). rewrite forallb_forall in H.
  specialize (H w Hw). apply existsb_exists in H as (x & Hx & E).
  apply Z.eqb_eq in E. by subst x.
Qed.

Lemma reach_trans u v w : reach adj u v -> reach adj v w -> reach adj u w.
Proof.
  induction 1 as [v|u x v Hu Hx _ IH]; [done|]. intros Hvw.
  eapply reach_step; [exact Hu|exact Hx|]. by apply IH.
Qed.

Lemma reach_edge u w : 0 <= u < Z.of_nat (length adj) -> In w (nbrs adj u) -> reach adj u w.
Proof. intros Hu Hw. eapply reach_step; [exact Hu|exact Hw|constructor]. Qed.

Lemma reach_sym u v :
  adj_in_rangeb adj = true -> adj_symmetricb adj = true -> reach adj u v -> reach adj v u.
Proof.
  intros Hr Hs. induction 1 as [v|u x v Hu Hx _ IH]; [constructor|].
  apply (reach_trans _ x); [done|]. apply reach_edge.
  - exact (adj_in_range_spec Hr u x Hu Hx).
  - exact (adj_symmetric_spec Hs u x Hu Hx).
Qed.

Lemma reach_in_range u v :
  adj_in_rangeb adj = true -> 0 <= u < Z.of_nat (length adj) -> reach adj u v ->
  0 <= v < Z.of_nat (length adj).
Proof.
  intros Hr Hu H. revert Hu. induction H as [v|u x v Hu Hx _ IH]; [done|].
  intros _. apply IH. exact (adj_in_range_spec Hr u x Hu Hx).
Qed.

Lemma np_get_label r x : 0 <= x < Z.of_nat (length r) -> np_get r x = Some (label r x).
Proof.
  intros Hx. unfold np_get, np_index, np_len, label.
  destruct (0 <=? x) eqn:E1, (x <? Z.of_nat (length r)) eqn:E2; simpl;
    try (apply Z.leb_gt in E1 || apply Z.ltb_ge in E2; lia).
  destruct (r !! Z.to_nat x) eqn:E; [done|].
  apply lookup_ge_None in E. lia.
Qed.

Lemma np_put_single r k x :
  0 <= k < Z.of_nat (length r) -> np_put r [k] [x] = Some (<[Z.to_nat k := x]> r).
Proof.
  intros Hk. unfold np_put, np_positions, np_index, np_len.
  destruct (0 <=? k) eqn:E1, (k <? Z.of_nat (length r)) eqn:E2; simpl;
    try (apply Z.leb_gt in E1 || apply Z.ltb_ge in E2; lia).
  done.
Qed.

Lemma adj_get_nbrs k : 0 <= k < Z.of_nat (length adj) -> adj_get adj k = Some (nbrs adj k).
Proof.
  intros Hk. unfold adj_get, np_index, nbrs.
  destruct (0 <=? k) eqn:E1, (k <? Z.of_nat (length adj)) eqn:E2; simpl;
    try (apply Z.leb_gt in E1 || apply Z.ltb_ge in E2; lia).
  destruct (adj !! Z.to_nat k) eqn:E; [done|].
  apply lookup_ge_None in E. lia.
Qed.

Lemma label_insert_eq r k x :
  0 <= k < Z.of_nat (length r) -> label (<[Z.to_nat k := x]> r) k = x.
Proof. intros Hk. unfold label. rewrite list_lookup_insert_eq; [done|lia]. Qed.

Lemma label_insert_ne r k x v :
  0 <= k -> 0 <= v -> v <> k -> label (<[Z.to_nat k := x]> r) v = label r v.
Proof. intros Hk Hv Hne. unfold label. rewrite list_lookup_insert_ne; [done|lia]. Qed.

Lemma label_repeat n v : label (repeat (-1) n) v = -1.
Proof.
  unfold label. generalize (Z.to_nat v) as i. induction n as [|n IH]; intros [|i]; simpl; auto.
Qed.

End DFSBasics.

Section DFSVisit.

Variable adj : list (list Z).
Hypothesis Hrange : adj_in_rangeb adj = true.

Lemma visit_neighbours_spec visit now k xs :
  now <> -1 ->
  (forall x r r', length r = length adj -> 0 <= x < Z.of_nat (length adj) ->
     label r x = -1 -> visit x r = Ok r' tt -> visit_post adj now x r r') ->
  0 <= k < Z.of_nat (length adj) ->
  forall r r', (forall x, In x xs -> In x (nbrs adj k)) ->
  length r = length adj -> visit_neighbours visit xs r = Ok r' tt ->
  length r' = length adj /\
  (forall v, 0 <= v < Z.of_nat (length adj) -> label r v <> -1 -> label r' v = label r v) /\
  (forall v, 0 <= v < Z.of_nat (length adj) -> label r v = -1 ->
     label r' v = -1 \/ (label r' v = now /\ reach adj k v)) /\
  (forall v, 0 <= v < Z.of_nat (length adj) -> label r v = -1 -> label r' v <> -1 ->
     forall w, In w (nbrs adj v) -> label r' w <> -1) /\
  (forall x, In x xs -> label r' x <> -1).
Proof.
  intros Hnow Hvisit Hk. induction xs as [|x xs IH]; intros r r' Hxs Hlen Hrun.
  - simpl in Hrun. injection Hrun as <-.
    split; [done|split; [done|split; [by left|split; [intros; congruence|done]]]].
  - simpl in Hrun.
    assert (Hxk : In x (nbrs adj k)) by (apply Hxs; by left).
    pose proof (adj_in_range_spec adj Hrange k x Hk Hxk) as Hx.
    rewrite np_get_label in Hrun by lia.
    assert (Hxs' : forall y, In y xs -> In y (nbrs adj k)) by (intros y Hy; apply Hxs; by right).
    destruct (label r x =? -1) eqn:Ex.
    + apply Z.eqb_eq in Ex.
      destruct (visit x r) as [r1 []|r1 e|] eqn:Hv; try discriminate.
      destruct (Hvisit x r r1 Hlen Hx Ex Hv) as (V1 & V2 & V3 & V4 & V5).
      destruct (IH r1 r' Hxs' V1 Hrun) as (L1 & L2 & L3 & L4 & L5).
      split; [done|split; [|split; [|split]]].
      * intros v Hv' Hl. rewrite L2; [by apply V2|done|]. by rewrite V2.
      * intros v Hv' Hl. destruct (V3 v Hv' Hl) as [H1|[H1 H2]].
        -- by apply L3.
        -- right. rewrite L2 by (done || congruence). split; [done|].
           eapply reach_step; [exact Hk|exact Hxk|exact H2].
      * intros v Hv' Hl Hl' w Hw.
        destruct (label r1 v =? -1) eqn:E1.
        -- apply Z.eqb_eq in E1. by apply (L4 v).
        -- apply Z.eqb_neq in E1.
           pose proof (adj_in_range_spec adj Hrange v w Hv' Hw) as Hwr.
           rewrite L2 by (done || exact (V5 v Hv' Hl E1 w Hw)).
           exact (V5 v Hv' Hl E1 w Hw).
      * intros y [<-|Hy]; [|by apply L5].
        rewrite L2 by (done || congruence). congruence.
    + apply Z.eqb_neq in Ex.
      destruct (IH r r' Hxs' Hlen Hrun) as (L1 & L2 & L3 & L4 & L5).
      split; [done|split; [done|split; [done|split; [done|]]]].
      intros y [<-|Hy]; [|by apply L5]. by rewrite L2.
Qed.

Lemma visit_spec d :
  forall now x r r', now <> -1 -> length r = length adj ->
  0 <= x < Z.of_nat (length adj) -> label r x = -1 ->
  _visit_for_depth_first_search d adj now x r = Ok r' tt -> visit_post adj now x r r'.
Proof.
  induction d as [|d IH]; intros now x r r' Hnow Hlen Hx Hlx Hrun; simpl in Hrun; [discriminate|].
  rewrite np_put_single in Hrun by lia. rewrite adj_get_nbrs in Hrun by done.
  set (r1 := <[Z.to_nat x := now]> r) in Hrun.
  assert (Hl1 : length r1 = length adj) by (subst r1; by rewrite length_insert).
  assert (Hr1x : label r1 x = now) by (apply label_insert_eq; lia).
  assert (Hr1v : forall v, 0 <= v -> v <> x -> label r1 v = label r v)
    by (intros v Hv Hne; apply label_insert_ne; lia).
  destruct (visit_neighbours_spec (fun y r => _visit_for_depth_first_search d adj now y r)
              now x (nbrs adj x) Hnow
              (fun y r r' H1 H2 H3 H4 => IH now y r r' Hnow H1 H2 H3 H4) Hx r1 r'
              (fun y Hy => Hy) Hl1 Hrun) as (L1 & L2 & L3 & L4 & L5).
  assert (Hx' : label r' x = now) by (rewrite L2; [done|done|congruence]).
  split; [done|split; [|split; [|split; [done|]]]].
  - intros v Hv Hl. assert (v <> x) by congruence.
    rewrite L2; [by apply Hr1v; lia|done|]. rewrite Hr1v; [done|lia|done].
  - intros v Hv Hl. destruct (Z.eq_dec v x) as [->|Hne].
    + right. split; [done|constructor].
    + apply L3; [done|]. rewrite Hr1v; [done|lia|done].
  - intros v Hv Hl Hl'. destruct (Z.eq_dec v x) as [->|Hne].
    + intros w Hw. by apply L5.
    + apply L4; [done| |done]. rewrite Hr1v; [done|lia|done].
Qed.

End DFSVisit.


Section DFSOuter.

Variable adj : list (list Z).
Hypothesis Hrange : adj_in_rangeb adj = true.
Hypothesis Hsym : adj_symmetricb adj = true.

Lemma dfs_inv_visit now r r1 i :
  dfs_inv adj now r -> 0 <= i < Z.of_nat (length adj) -> label r i = -1 ->
  visit_post adj (now + 1) i r r1 -> dfs_inv adj (now + 1) r1.
Proof.
  intros (I1 & I2 & I3 & I4 & I5 & I6) Hi Hli (V1 & V2 & V3 & V4 & V5).
  split; [done|split; [lia|split; [|split; [|split]]]].
  - intros v Hv. destruct (Z.eq_dec (label r v) (-1)) as [E|E].
    + destruct (V3 v Hv E) as [H|[H _]]; [by left|right; lia].
    + rewrite V2 by done. destruct (I3 v Hv); [done|right; lia].
  - intros c Hc. destruct (Z.eq_dec c (now + 1)) as [->|Hne].
    + by exists i.
    + destruct (I4 c ltac:(lia)) as (v & Hv & Hl). exists v. split; [done|].
      rewrite V2 by (done || lia). done.
  - intros u w Hu Hw Hl1.
    pose proof (adj_in_range_spec adj Hrange u w Hu Hw) as Hwr.
    destruct (Z.eq_dec (label r u) (-1)) as [Eu|Eu].
    + pose proof (V5 u Hu Eu Hl1 w Hw) as Hw1.
      destruct (V3 u Hu Eu) as [H|[Hu1 _]]; [done|]. rewrite Hu1.
      destruct (Z.eq_dec (label r w) (-1)) as [Ew|Ew].
      * destruct (V3 w Hwr Ew) as [H|[H _]]; [done|done].
      * exfalso. apply Ew.
        rewrite <- (I5 w u Hwr (adj_symmetric_spec adj Hsym u w Hu Hw) Ew). exact Eu.
    + rewrite (V2 u Hu Eu). rewrite (V2 u Hu Eu) in Hl1.
      rewrite <- (I5 u w Hu Hw Eu). apply V2; [done|]. by rewrite (I5 u w Hu Hw Eu).
  - intros u v Hu Hv Hl1 Heq.
    destruct (Z.eq_dec (label r u) (-1)) as [Eu|Eu].
    + destruct (V3 u Hu Eu) as [H|[Hu1 Hiu]]; [done|].
      destruct (Z.eq_dec (label r v) (-1)) as [Ev|Ev].
      * destruct (V3 v Hv Ev) as [H|[Hv1 Hiv]]; [congruence|].
        apply (reach_trans adj u i); [by apply reach_sym|done].
      * rewrite (V2 v Hv Ev) in Heq. destruct (I3 v Hv); lia.
    + rewrite (V2 u Hu Eu) in Heq.
      destruct (Z.eq_dec (label r v) (-1)) as [Ev|Ev].
      * destruct (V3 v Hv Ev) as [H|[H _]]; destruct (I3 u Hu); lia.
      * rewrite (V2 v Hv Ev) in Heq. by apply I6.
Qed.

Lemma dfs_outer_spec depth is :
  forall now r r', (forall i, In i is -> (i < length adj)%nat) -> dfs_inv adj now r ->
  dfs_outer depth adj is now r = Ok r' tt ->
  exists now', dfs_inv adj now' r' /\
    (forall i, In i is -> label r' (Z.of_nat i) <> -1) /\
    (forall v, 0 <= v < Z.of_nat (length adj) -> label r v <> -1 -> label r' v = label r v).
Proof.
  induction is as [|i is IH]; intros now r r' His Hinv Hrun; simpl in Hrun.
  - injection Hrun as <-. exists now. split; [done|split; [done|done]].
  - assert (Hi : (i < length adj)%nat) by (apply His; by left).
    assert (His' : forall j, In j is -> (j < length adj)%nat) by (intros j Hj; apply His; by right).
    pose proof Hinv as (I1 & I2 & _).
    destruct (r !! i) as [ri|] eqn:E; [|apply lookup_ge_None in E; lia].
    assert (Hri : label r (Z.of_nat i) = ri) by (unfold label; by rewrite Nat2Z.id, E).
    destruct (ri =? -1) eqn:Eri.
    + apply Z.eqb_eq in Eri. subst ri.
      destruct (_visit_for_depth_first_search depth adj (now + 1) (Z.of_nat i) r)
        as [r1 []|r1 e|] eqn:Hv; try discriminate.
      pose proof (visit_spec adj Hrange depth (now + 1) (Z.of_nat i) r r1 ltac:(lia) I1
                    ltac:(lia) Hri Hv) as Hpost.
      pose proof (dfs_inv_visit now r r1 (Z.of_nat i) Hinv ltac:(lia) Hri Hpost) as Hinv1.
      destruct Hpost as (V1 & V2 & _ & V4 & _).
      destruct (IH (now + 1) r1 r' His' Hinv1 Hrun) as (now' & Hinv' & L1 & L2).
      exists now'. split; [done|split].
      * intros j [<-|Hj]; [|by apply L1]. rewrite L2; [lia|lia|lia].
      * intros v Hv' Hl. rewrite L2; [by apply V2|done|]. by rewrite V2.
    + apply Z.eqb_neq in Eri.
      destruct (IH now r r' His' Hinv Hrun) as (now' & Hinv' & L1 & L2).
      exists now'. split; [done|split; [|done]].
      intros j [<-|Hj]; [|by apply L1]. rewrite L2; [congruence|lia|congruence].
Qed.

End DFSOuter.

(** C9 (as the code has it). For an adjacency list whose neighbours are
    vertices and whose edges are listed at both ends, when
    [depth_first_search] returns a label array (it may instead stop with
    [RecursionError] past Python's recursion limit), the array has one
    label per vertex, the labels are exactly [0 .. K-1] for some [K], and
    two vertices share a label if and only if one is reached from the
    other along listed edges. *)
Theorem dfs_labels_components depth adj_list st labels :
  adj_in_rangeb adj_list = true -> adj_symmetricb adj_list = true ->
  depth_first_search depth adj_list = Ok st labels ->
  length labels = length adj_list /\
  exists K, 0 <= K /\
    (forall v, 0 <= v < Z.of_nat (length adj_list) -> 0 <= label labels v < K) /\
    (forall c, 0 <= c < K -> exists v, 0 <= v < Z.of_nat (length adj_list) /\ label labels v = c) /\
    (forall u v, 0 <= u < Z.of_nat (length adj_list) -> 0 <= v < Z.of_nat (length adj_list) ->
       label labels u = label labels v <-> reach adj_list u v).
Proof.
  intros Hr Hs Hrun. unfold depth_first_search in Hrun.
  destruct (dfs_outer depth adj_list (seq 0 (length adj_list)) (-1)
              (repeat (-1) (length adj_list))) as [r []|r e|] eqn:E; try discriminate.
  injection Hrun as <- <-.
  assert (Hinv0 : dfs_inv adj_list (-1) (repeat (-1) (length adj_list))).
  { split; [apply repeat_length|split; [lia|split; [|split; [|split]]]];
      intros; rewrite ?label_repeat in *; try lia; try congruence; by left. }
  destruct (dfs_outer_spec adj_list Hr Hs depth (seq 0 (length adj_list)) (-1) _ r
              ltac:(intros i Hi; apply in_seq in Hi; lia) Hinv0 E)
    as (now & (I1 & I2 & I3 & I4 & I5 & I6) & Hall & _).
  assert (Hlab : forall v, 0 <= v < Z.of_nat (length adj_list) -> label r v <> -1).
  { intros v Hv. replace v with (Z.of_nat (Z.to_nat v)) by lia. apply Hall.
    apply in_seq. lia. }
  split; [done|]. exists (now + 1). split; [|split; [|split]].
  - lia.
  - intros v Hv. pose proof (Hlab v Hv). destruct (I3 v Hv); lia.
  - intros c Hc. apply I4. lia.
  - intros u v Hu Hv. split.
    + intros Heq. apply I6; [done|done|by apply Hlab|done].
    + intros Hreach. induction Hreach as [v|u w v Hu' Hw _ IH]; [done|].
      rewrite <- (I5 u w Hu' Hw (Hlab u Hu')). apply IH.
      * exact (adj_in_range_spec adj_list Hr u w Hu' Hw).
      * done.
Qed.

(** C9 fails as stated: vertex 1 lists the edge to 0 but 0 does not list
    it back; 0 is reached from 1, yet the two get different labels. *)
Lemma dfs_one_sided_edge :
  depth_first_search 20 [[]; [0]] = Ok [0; 1] [0; 1] /\ reach [[]; [0]] 1 0.
Proof.
  split; [reflexivity|]. apply (reach_step _ 1 0 0); [simpl; lia|simpl; by left|constructor].
Qed.

Lemma dfs_labels_components_witness :
  adj_in_rangeb scenario_adj = true /\ adj_symmetricb scenario_adj = true /\
  depth_first_search 20 scenario_adj = Ok [0; 0; 0; 1; 1; 1; 1; 2; 1; 1; 1] [0; 0; 0; 1; 1; 1; 1; 2; 1; 1; 1] /\
  exists K, 0 <= K /\
    (forall v, 0 <= v < 11 -> 0 <= label [0; 0; 0; 1; 1; 1; 1; 2; 1; 1; 1] v < K) /\
    (forall c, 0 <= c < K -> exists v, 0 <= v < 11 /\ label [0; 0; 0; 1; 1; 1; 1; 2; 1; 1; 1] v = c) /\
    (forall u v, 0 <= u < 11 -> 0 <= v < 11 ->
       label [0; 0; 0; 1; 1; 1; 1; 2; 1; 1; 1] u = label [0; 0; 0; 1; 1; 1; 1; 2; 1; 1; 1] v <->
       reach scenario_adj u v).
Proof.
  assert (Hr : adj_in_rangeb scenario_adj = true) by reflexivity.
  assert (Hs : adj_symmetricb scenario_adj = true) by reflexivity.
  assert (Hrun : depth_first_search 20 scenario_adj =
                 Ok [0; 0; 0; 1; 1; 1; 1; 2; 1; 1; 1] [0; 0; 0; 1; 1; 1; 1; 2; 1; 1; 1])
    by reflexivity.
  split; [exact Hr|split; [exact Hs|split; [exact Hrun|]]].
  exact (proj2 (dfs_labels_components 20 scenario_adj _ _ Hr Hs Hrun)).
Defined.

(* ------------------------------------------------------------------ *)
(** ** Termination of the depth-first labelling *)

Section Counting.

Lemma filter_cons_bool {A} (f : A -> bool) (v : A) l :
  filter (fun x => f x) (v :: l) =
  if f v then v :: filter (fun x => f x) l else filter (fun x => f x) l.
Proof.
  rewrite filter_cons. case_decide as Hd; destruct (f v) eqn:E; try done; by rewrite E in Hd.
Qed.

Lemma filter_length_mono (f g : Z -> bool) (l : list Z) :
  (forall v, In v l -> g v = true -> f v = true) ->
  (length (filter (fun v => g v) l) <= length (filter (fun v => f v) l))%nat.
Proof.
  induction l as [|v l IH]; intros H; [simpl; lia|].
  assert (IH' : (length (filter (fun v => g v) l) <= length (filter (fun v => f v) l))%nat)
    by (apply IH; intros; apply H; [by right|done]).
  rewrite !filter_cons_bool. destruct (g v) eqn:Eg.
  - rewrite (H v (or_introl eq_refl) Eg). simpl. lia.
  - destruct (f v); simpl; lia.
Qed.

Lemma filter_length_strict (f g : Z -> bool) (l : list Z) x :
  (forall v, In v l -> g v = true -> f v = true) -> In x l -> f x = true -> g x = false ->
  (length (filter (fun v => g v) l) < length (filter (fun v => f v) l))%nat.
Proof.
  induction l as [|v l IH]; intros H Hx Hf Hg; [done|].
  assert (IH' : (length (filter (fun v => g v) l) <= length (filter (fun v => f v) l))%nat)
    by (apply filter_length_mono; intros; apply H; [by right|done]).
  rewrite !filter_cons_bool. destruct Hx as [->|Hx].
  - rewrite Hf, Hg. simpl. lia.
  - assert (IH2 : (length (filter (fun v => g v) l) < length (filter (fun v => f v) l))%nat)
      by (apply IH; [intros; apply H; [by right|done]|done|done|done]).
    destruct (g v) eqn:Eg.
    + rewrite (H v (or_introl eq_refl) Eg). simpl. lia.
    + destruct (f v); simpl; lia.
Qed.

End Counting.

Section DFSTotal.

Variable adj : list (list Z).
Hypothesis Hrange : adj_in_rangeb adj = true.

Lemma In_vertices v : In v (vertices adj) -> 0 <= v < Z.of_nat (length adj).
Proof. unfold vertices. intros (n & <- & Hn)%in_map_iff. apply in_seq in Hn. lia. Qed.

Lemma unvisited_le r r' :
  (forall v, 0 <= v < Z.of_nat (length adj) -> label r v <> -1 -> label r' v <> -1) ->
  (unvisited adj r' <= unvisited adj r)%nat.
Proof.
  intros H. unfold unvisited.
  apply (filter_length_mono (fun v => label r v =? -1) (fun v => label r' v =? -1)).
  intros v Hv E. apply Z.eqb_eq in E. apply Z.eqb_eq.
  destruct (Z.eq_dec (label r v) (-1)) as [|Hne]; [done|].
  exfalso. exact (H v (In_vertices v Hv) Hne E).
Qed.

Lemma unvisited_bound r : (unvisited adj r <= length adj)%nat.
Proof.
  unfold unvisited. etrans; [apply length_filter|]. unfold vertices.
  by rewrite length_map, length_seq.
Qed.

Lemma unvisited_insert r x now :
  now <> -1 -> length r = length adj -> 0 <= x < Z.of_nat (length adj) -> label r x = -1 ->
  (unvisited adj (<[Z.to_nat x := now]> r) < unvisited adj r)%nat.
Proof.
  intros Hnow Hlen Hx Hl. unfold unvisited.
  apply (filter_length_strict (fun v => label r v =? -1)
           (fun v => label (<[Z.to_nat x := now]> r) v =? -1) _ x).
  - intros v Hv E. apply Z.eqb_eq in E. apply Z.eqb_eq. pose proof (In_vertices v Hv).
    destruct (Z.eq_dec v x) as [->|Hne]; [done|].
    by rewrite label_insert_ne in E by lia.
  - by apply vertices_In.
  - by apply Z.eqb_eq.
  - apply Z.eqb_neq. rewrite label_insert_eq; [done|lia].
Qed.

Lemma visit_neighbours_completes visit d k xs :
  (forall x r, length r = length adj -> 0 <= x < Z.of_nat (length adj) -> label r x = -1 ->
     (unvisited adj r <= d)%nat ->
     exists r', visit x r = Ok r' tt /\ length r' = length adj /\
       (unvisited adj r' <= unvisited adj r)%nat) ->
  0 <= k < Z.of_nat (length adj) ->
  forall r, (forall x, In x xs -> In x (nbrs adj k)) -> length r = length adj ->
  (unvisited adj r <= d)%nat ->
  exists r', visit_neighbours visit xs r = Ok r' tt /\ length r' = length adj /\
    (unvisited adj r' <= unvisited adj r)%nat.
Proof.
  intros Hvisit Hk. induction xs as [|x xs IH]; intros r Hxs Hlen Hd; simpl.
  - exists r. split; [done|split; [done|lia]].
  - assert (Hx : 0 <= x < Z.of_nat (length adj))
      by (apply (adj_in_range_spec adj Hrange k x Hk); apply Hxs; by left).
    assert (Hxs' : forall y, In y xs -> In y (nbrs adj k)) by (intros y Hy; apply Hxs; by right).
    rewrite np_get_label by lia.
    destruct (label r x =? -1) eqn:Ex.
    + apply Z.eqb_eq in Ex.
      destruct (Hvisit x r Hlen Hx Ex Hd) as (r1 & -> & Hl1 & Hu1).
      destruct (IH r1 Hxs' Hl1 ltac:(lia)) as (r' & Hrun & Hl' & Hu').
      exists r'. split; [done|split; [done|lia]].
    + exact (IH r Hxs' Hlen Hd).
Qed.

Lemma visit_completes d :
  forall now x r, now <> -1 -> length r = length adj ->
  0 <= x < Z.of_nat (length adj) -> label r x = -1 -> (unvisited adj r <= d)%nat ->
  exists r', _visit_for_depth_first_search d adj now x r = Ok r' tt /\
    length r' = length adj /\ (unvisited adj r' <= unvisited adj r)%nat.
Proof.
  induction d as [|d IH]; intros now x r Hnow Hlen Hx Hlx Hd.
  - pose proof (unvisited_insert r x now Hnow Hlen Hx Hlx). lia.
  - simpl. rewrite np_put_single by lia. rewrite adj_get_nbrs by done.
    pose proof (unvisited_insert r x now Hnow Hlen Hx Hlx) as Hlt.
    destruct (visit_neighbours_completes
                (fun y r => _visit_for_depth_first_search d adj now y r) d x (nbrs adj x)
                (fun y r H1 H2 H3 H4 => IH now y r Hnow H1 H2 H3 H4) Hx
                (<[Z.to_nat x := now]> r) (fun y Hy => Hy)
                ltac:(by rewrite length_insert) ltac:(lia))
      as (r' & Hrun & Hl' & Hu').
    exists r'. split; [done|split; [done|lia]].
Qed.

Lemma dfs_outer_completes depth is :
  (length adj <= depth)%nat ->
  forall now r, (forall i, In i is -> (i < length adj)%nat) -> length r = length adj ->
  -1 <= now -> exists r', dfs_outer depth adj is now r = Ok r' tt.
Proof.
  intros Hdepth. induction is as [|i is IH]; intros now r His Hlen Hnow; simpl.
  - by exists r.
  - assert (Hi : (i < length adj)%nat) by (apply His; by left).
    assert (His' : forall j, In j is -> (j < length adj)%nat) by (intros j Hj; apply His; by right).
    destruct (r !! i) as [ri|] eqn:E; [|apply lookup_ge_None in E; lia].
    assert (Hri : label r (Z.of_nat i) = ri) by (unfold label; by rewrite Nat2Z.id, E).
    destruct (ri =? -1) eqn:Eri.
    + apply Z.eqb_eq in Eri. rewrite Eri in Hri.
      pose proof (unvisited_bound r).
      destruct (visit_completes depth (now + 1) (Z.of_nat i) r ltac:(lia) Hlen ltac:(lia)
                  Hri ltac:(lia)) as (r1 & -> & Hl1 & _).
      apply (IH (now + 1) r1 His' Hl1). lia.
    + exact (IH now r His' Hlen Hnow).
Qed.

End DFSTotal.

Section DFSLabels.

Variable adj : list (list Z).
Hypothesis Hrange : adj_in_rangeb adj = true.

Lemma dfs_outer_labels depth is :
  forall now r r', -1 <= now -> (forall i, In i is -> (i < length adj)%nat) ->
  length r = length adj ->
  (forall v, 0 <= v < Z.of_nat (length adj) -> label r v = -1 \/ 0 <= label r v) ->
  dfs_outer depth adj is now r = Ok r' tt ->
  length r' = length adj /\
  (forall v, 0 <= v < Z.of_nat (length adj) -> label r' v = -1 \/ 0 <= label r' v) /\
  (forall v, 0 <= v < Z.of_nat (length adj) -> label r v <> -1 -> label r' v <> -1) /\
  (forall i, In i is -> label r' (Z.of_nat i) <> -1).
Proof.
  induction is as [|i is IH]; intros now r r' Hnow His Hlen Hlab Hrun; simpl in Hrun.
  - injection Hrun as <-. split; [done|split; [done|split; [done|done]]].
  - assert (Hi : (i < length adj)%nat) by (apply His; by left).
    assert (His' : forall j, In j is -> (j < length adj)%nat) by (intros j Hj; apply His; by right).
    destruct (r !! i) as [ri|] eqn:E; [|apply lookup_ge_None in E; lia].
    assert (Hri : label r (Z.of_nat i) = ri) by (unfold label; by rewrite Nat2Z.id, E).
    destruct (ri =? -1) eqn:Eri.
    + apply Z.eqb_eq in Eri. rewrite Eri in Hri.
      destruct (_visit_for_depth_first_search depth adj (now + 1) (Z.of_nat i) r)
        as [r1 []|r1 e|] eqn:Hv; try discriminate.
      destruct (visit_spec adj Hrange depth (now + 1) (Z.of_nat i) r r1 ltac:(lia) Hlen
                  ltac:(lia) Hri Hv) as (V1 & V2 & V3 & V4 & _).
      assert (Hlab1 : forall v, 0 <= v < Z.of_nat (length adj) -> label r1 v = -1 \/ 0 <= label r1 v).
      { intros v Hv'. destruct (Z.eq_dec (label r v) (-1)) as [Ev|Ev].
        - destruct (V3 v Hv' Ev) as [H|[H _]]; [by left|right; lia].
        - rewrite (V2 v Hv' Ev). by apply Hlab. }
      destruct (IH (now + 1) r1 r' ltac:(lia) His' V1 Hlab1 Hrun) as (L1 & L2 & L3 & L4).
      split; [done|split; [done|split]].
      * intros v Hv' Ev. apply L3; [done|]. by rewrite (V2 v Hv' Ev).
      * intros j [<-|Hj]; [|by apply L4]. apply L3; [lia|]. rewrite V4. lia.
    + apply Z.eqb_neq in Eri. rewrite <- Hri in Eri.
      destruct (IH now r r' Hnow His' Hlen Hlab Hrun) as (L1 & L2 & L3 & L4).
      split; [done|split; [done|split; [done|]]].
      intros j [<-|Hj]; [|by apply L4]. apply L3; [lia|done].
Qed.

End DFSLabels.

(** [depth_first_search] always finishes when every listed neighbour is a
    vertex and Python allows at least as many nested calls of
    [_visit_for_depth_first_search] as there are vertices: it neither
    raises ([IndexError], [RecursionError]) nor runs forever, whatever the
    shape of the graph (the edges need not be listed at both ends).  The
    array it returns has one entry per vertex and no entry is left at [-1]:
    every vertex is visited. *)
Theorem dfs_completes depth adj_list :
  adj_in_rangeb adj_list = true -> (length adj_list <= depth)%nat ->
  exists labels, depth_first_search depth adj_list = Ok labels labels /\
    length labels = length adj_list /\ Forall (fun l => 0 <= l) labels.
Proof.
  intros Hr Hd. unfold depth_first_search.
  assert (His : forall i, In i (seq 0 (length adj_list)) -> (i < length adj_list)%nat)
    by (intros i Hi; apply in_seq in Hi; lia).
  destruct (dfs_outer_completes adj_list Hr depth (seq 0 (length adj_list)) Hd (-1)
              (repeat (-1) (length adj_list)) His (repeat_length _ _) ltac:(lia)) as (r & Hrun).
  destruct (dfs_outer_labels adj_list Hr depth _ (-1) _ r ltac:(lia) His (repeat_length _ _)
              ltac:(intros v _; left; apply label_repeat) Hrun) as (L1 & L2 & _ & L4).
  rewrite Hrun. exists r. split; [done|split; [done|]].
  apply Forall_lookup. intros k l Hk.
  pose proof (lookup_lt_Some _ _ _ Hk) as Hlt.
  assert (Hl : label r (Z.of_nat k) = l) by (unfold label; by rewrite Nat2Z.id, Hk).
  assert (Hin : In k (seq 0 (length adj_list))) by (apply in_seq; lia).
  pose proof (L4 k Hin) as Hne. destruct (L2 (Z.of_nat k) ltac:(lia)); lia.
Qed.

Lemma dfs_completes_witness :
  adj_in_rangeb [[1]; [0; 2]; [1; 3]; [2; 4]; [3]] = true /\
  exists labels, depth_first_search 5 [[1]; [0; 2]; [1; 3]; [2; 4]; [3]] = Ok labels labels /\
    length labels = 5%nat /\ Forall (fun l => 0 <= l) labels.
Proof.
  split; [reflexivity|]. apply dfs_completes; [reflexivity|simpl; lia].
Defined.

(* ------------------------------------------------------------------ *)
(** ** Root finding: compression and other compression types *)

(** [find_root] with [path_compression=True] and a documented compression
    type: on a forest, with in-range ids, the result is a forest in which
    every vertex keeps its root and every tested vertex points straight at
    its root. *)
Theorem find_root_compressed_flattens fuel st ids pct :
  forest (id_updated st) -> Forall (in_range (id_updated st)) ids ->
  (length (id_updated st) <= fuel)%nat -> pc_mode pct ->
  exists p', find_root fuel ids true pct st = Ok (set_id st p') tt /\
    forest p' /\
    (forall v, in_range (id_updated st) v -> root_of p' v = root_of (id_updated st) v) /\
    (forall v, In v ids -> par p' v = root_of (id_updated st) v).
Proof.
  intros Hf Hv Hfuel Hpc. set (p := id_updated st) in *.
  destruct (_root_path_compression_spec fuel st ids pct Hf Hv Hfuel Hpc)
    as (p1 & H1 & Haw1 & _).
  pose proof (ancestor_write_forest _ _ Hf Haw1) as [Hf1 Hr1].
  assert (Hv1 : Forall (in_range p1) ids).
  { eapply Forall_impl; [exact Hv|]. intros x Hx.
    by rewrite (in_range_length p p1) by apply Haw1. }
  assert (Hm : map (root_of p) ids = map (root_of (id_updated (set_id st p1))) ids).
  { apply map_ext_in. intros x Hx. rewrite List.Forall_forall in Hv. simpl.
    symmetry. auto. }
  destruct (set_id_items_roots (set_id st p1) ids Hf1 Hv1) as (p2 & H2 & Haw2 & Hin & _).
  simpl in Haw2, Hin.
  pose proof (ancestor_write_trans p p1 p2 Hf Haw1 Haw2) as Haw.
  pose proof (ancestor_write_forest _ _ Hf Haw) as [Hf2 Hr2].
  exists p2. unfold find_root, bind. rewrite H1. change (id_updated st) with p. rewrite Hm, H2.
  split; [by rewrite set_id_twice|]. split; [done|]. split; [done|].
  intros v Hiv. rewrite Hin by done. apply Hr1.
  rewrite List.Forall_forall in Hv. auto.
Qed.

Section OtherModes.

Lemma root_path_compression_other fuel p ids pct :
  ~ pc_mode pct -> root_path_compression fuel p ids pct = Ok p ids.
Proof.
  intros Hpc. unfold root_path_compression.
  destruct (String.eqb_spec pct "path_halving") as [->|_]; [destruct Hpc; by left|].
  destruct (String.eqb_spec pct "full_pc") as [->|_]; [destruct Hpc; by right|done].
Qed.

(** A fancy write of in-range ids: written vertices hold a value written
    at them, the others keep their entry. *)
Lemma np_put_frame p idx vals p' :
  Forall (in_range p) idx -> length vals = length idx -> np_put p idx vals = Some p' ->
  length p' = length p /\
  (forall v, In v idx -> exists w, In (v, w) (zip idx vals) /\ par p' v = w) /\
  (forall v, in_range p v -> ~ In v idx -> par p' v = par p v).
Proof.
  intros Hidx Hlen Hput. split; [by eapply np_put_length|]. split.
  - intros v Hv. by apply (np_put_par_written p idx vals p' v Hidx Hput Hv).
  - intros v Hr Hn. destruct (np_put_par p idx vals p' v Hidx Hput Hr) as [[-> _]|(w & Hw & _)];
      [done|].
    exfalso. apply Hn. exact (in_zip_l _ _ _ _ Hw).
Qed.

End OtherModes.

(** With a [path_compression_type] other than ["path_halving"] and
    ["full_pc"], [_root_path_compression] does no root search: it returns
    the ids it was given and changes nothing.  So [find_root] with
    [path_compression=True] and such a type, on in-range ids, makes every
    tested vertex its own parent (a root) and leaves every other entry
    unchanged. *)
Theorem compression_other_type fuel st ids pct :
  ~ pc_mode pct ->
  _root_path_compression fuel ids pct st = Ok st ids /\
  (Forall (in_range (id_updated st)) ids ->
   exists p', find_root fuel ids true pct st = Ok (set_id st p') tt /\
     length p' = length (id_updated st) /\
     (forall v, In v ids -> par p' v = v) /\
     (forall v, in_range (id_updated st) v -> ~ In v ids -> par p' v = par (id_updated st) v)).
Proof.
  intros Hpc.
  assert (Hr : _root_path_compression fuel ids pct st = Ok st ids).
  { unfold _root_path_compression, on_id. rewrite root_path_compression_other by done.
    by rewrite set_id_id. }
  split; [done|]. intros Hv. set (p := id_updated st) in *.
  set (p' := write_all p (zip (map Z.to_nat ids) ids)).
  assert (Hput : np_put p ids ids = Some p') by (by rewrite np_put_in_range).
  assert (Hput' : np_put p ids (map (fun x => x) ids) = Some p') by (by rewrite map_id).
  destruct (np_put_map p ids (fun x => x) p' Hv Hput') as (Hl & _ & Hin).
  destruct (np_put_frame p ids ids p' Hv eq_refl Hput) as (_ & _ & Hout).
  exists p'. unfold find_root, bind. rewrite Hr.
  unfold set_id_items, on_id. change (id_updated st) with p.
  rewrite np_broadcast_same, Hput by done.
  split; [done|]. split; [done|]. split; [done|done].
Qed.

(** With a [path_compression_type] other than ["path_halving"] and
    ["full_pc"], [build_quick_union(minor, main, path_compression=True)]
    links the given vertices themselves, not their roots: on in-range
    batches of one length it does nothing when [minor] and [main] are equal
    element by element, and otherwise sets the parent of each vertex of
    [minor] to the vertex of [main] paired with it, leaving every other
    entry unchanged. *)
Theorem union_other_type fuel st minor main pct :
  ~ pc_mode pct -> Forall (in_range (id_updated st)) minor -> length main = length minor ->
  exists p', build_quick_union fuel minor main true pct st = Ok (set_id st p') tt /\
    (np_all_eq minor main = true -> p' = id_updated st) /\
    (np_all_eq minor main = false ->
       length p' = length (id_updated st) /\
       (forall v, In v minor -> exists w, In (v, w) (zip minor main) /\ par p' v = w) /\
       (forall v, in_range (id_updated st) v -> ~ In v minor ->
          par p' v = par (id_updated st) v)).
Proof.
  intros Hpc Hv Hlen. set (p := id_updated st) in *.
  assert (Hr : forall ids, _root_path_compression fuel ids pct st = Ok st ids).
  { intros ids. unfold _root_path_compression, on_id.
    rewrite root_path_compression_other by done. by rewrite set_id_id. }
  unfold build_quick_union, bind. rewrite !Hr.
  destruct (np_all_eq minor main) eqn:E.
  - exists p. rewrite set_id_id. split; [done|]. split; [done|discriminate].
  - set (p' := write_all p (zip (map Z.to_nat minor) main)).
    assert (Hput : np_put p minor main = Some p') by (by rewrite np_put_in_range).
    exists p'. unfold set_id_items, on_id. change (id_updated st) with p.
    rewrite np_broadcast_same, Hput by done.
    split; [done|]. split; [discriminate|]. intros _.
    exact (np_put_frame p minor main p' Hv Hlen Hput).
Qed.

Lemma find_root_compressed_flattens_witness :
  forest scenario /\ Forall (in_range scenario) [10; 6] /\ (length scenario <= 11)%nat /\
  pc_mode "path_halving" /\
  exists p', find_root 11 [10; 6] true "path_halving" (init scenario) =
               Ok (set_id (init scenario) p') tt /\
    forest p' /\
    (forall v, in_range scenario v -> root_of p' v = root_of scenario v) /\
    (forall v, In v [10; 6] -> par p' v = root_of scenario v).
Proof.
  assert (Hf : forest scenario) by reflexivity.
  assert (Hv : Forall (in_range scenario) [10; 6])
    by (repeat constructor; unfold in_range, np_len; simpl; lia).
  assert (Hpc : pc_mode "path_halving") by (by left).
  split; [exact Hf|split; [exact Hv|split; [simpl; lia|split; [exact Hpc|]]]].
  exact (find_root_compressed_flattens 11 (init scenario) [10; 6] "path_halving" Hf Hv
           ltac:(simpl; lia) Hpc).
Defined.

Lemma compression_other_type_witness :
  ~ pc_mode "halving" /\
  _root_path_compression 11 [10; 6] "halving" (init scenario) = Ok (init scenario) [10; 6] /\
  (Forall (in_range scenario) [10; 6] ->
   exists p', find_root 11 [10; 6] true "halving" (init scenario) =
                Ok (set_id (init scenario) p') tt /\
     length p' = length scenario /\
     (forall v, In v [10; 6] -> par p' v = v) /\
     (forall v, in_range scenario v -> ~ In v [10; 6] -> par p' v = par scenario v)).
Proof.
  assert (Hpc : ~ pc_mode "halving") by (unfold pc_mode; intros [H|H]; discriminate).
  split; [exact Hpc|].
  exact (compression_other_type 11 (init scenario) [10; 6] "halving" Hpc).
Defined.

Lemma union_other_type_witness :
  ~ pc_mode "halving" /\ Forall (in_range scenario) [10] /\ length [6] = length [10] /\
  exists p', build_quick_union 11 [10] [6] true "halving" (init scenario) =
               Ok (set_id (init scenario) p') tt /\
    (np_all_eq [10] [6] = true -> p' = scenario) /\
    (np_all_eq [10] [6] = false ->
       length p' = length scenario /\
       (forall v, In v [10] -> exists w, In (v, w) (zip [10] [6]) /\ par p' v = w) /\
       (forall v, in_range scenario v -> ~ In v [10] -> par p' v = par scenario v)).
Proof.
  assert (Hpc : ~ pc_mode "halving") by (unfold pc_mode; intros [H|H]; discriminate).
  assert (Hv : Forall (in_range scenario) [10])
    by (repeat constructor; unfold in_range, np_len; simpl; lia).
  split; [exact Hpc|split; [exact Hv|split; [reflexivity|]]].
  exact (union_other_type 11 (init scenario) [10] [6] "halving" Hpc Hv eq_refl).
Defined.

(* ------------------------------------------------------------------ *)
(** ** Weighted unions on an instance whose [roots] is [id_updated] *)

Section SizeTables.

(** Counting entries after [self.roots[self.roots==i]=j]. *)
Lemma count_of_cons x y a : count_of x (y :: a) = (if x =? y then 1 else 0) + count_of x a.
Proof. unfold count_of. rewrite filter_cons_bool. destruct (x =? y); simpl; lia. Qed.

Lemma count_of_relink_other x i j p :
  x <> i -> x <> j -> count_of x (relink i j p) = count_of x p.
Proof.
  intros Hi Hj. unfold relink. induction p as [|y p IH]; [done|].
  simpl map. rewrite !count_of_cons, IH.
  destruct (y =? i) eqn:E; [apply Z.eqb_eq in E; subst y|done].
  rewrite (proj2 (Z.eqb_neq x j) Hj), (proj2 (Z.eqb_neq x i) Hi). done.
Qed.

Lemma count_of_relink_target i j p :
  i <> j -> count_of j (relink i j p) = count_of j p + count_of i p.
Proof.
  intros Hij. unfold relink. induction p as [|y p IH]; [done|].
  simpl map. rewrite !count_of_cons, IH.
  destruct (y =? i) eqn:E.
  - apply Z.eqb_eq in E. subst y. rewrite !Z.eqb_refl, (proj2 (Z.eqb_neq j i)) by congruence. lia.
  - apply Z.eqb_neq in E. rewrite (proj2 (Z.eqb_neq i y)) by congruence. lia.
Qed.

Lemma In_relink x i j p :
  In x (relink i j p) <-> (In x p /\ x <> i) \/ (x = j /\ In i p).
Proof.
  unfold relink. rewrite in_map_iff. split.
  - intros (y & <- & Hy). destruct (y =? i) eqn:E.
    + apply Z.eqb_eq in E. subst. by right.
    + apply Z.eqb_neq in E. by left.
  - intros [[Hx Hne]|[-> Hi]].
    + exists x. split; [|done]. by rewrite (proj2 (Z.eqb_neq x i) Hne).
    + exists i. by rewrite Z.eqb_refl.
Qed.

(** [sp.unique]: its values are those of the array, each once. *)
Lemma In_insert_sorted y x l : In y (insert_sorted x l) <-> y = x \/ In y l.
Proof.
  induction l as [|z l IH]; simpl; [naive_solver|].
  destruct (x <? z); [simpl; naive_solver|].
  destruct (x =? z) eqn:E; [apply Z.eqb_eq in E; subst; simpl; naive_solver|].
  simpl. rewrite IH. naive_solver.
Qed.

Lemma insert_sorted_sorted x l :
  StronglySorted Z.lt l -> StronglySorted Z.lt (insert_sorted x l).
Proof.
  induction l as [|z l IH]; intros Hs; simpl.
  - repeat constructor.
  - apply StronglySorted_inv in Hs as [Hs Hz].
    destruct (x <? z) eqn:Lt; [apply Z.ltb_lt in Lt|].
    + constructor; [by constructor|]. constructor; [done|].
      eapply List.Forall_impl; [|exact Hz]. intros; lia.
    + destruct (x =? z) eqn:E; [by constructor|].
      apply Z.ltb_ge in Lt. apply Z.eqb_neq in E.
      constructor; [by apply IH|].
      apply List.Forall_forall. intros y Hy. apply In_insert_sorted in Hy as [->|Hy]; [lia|].
      rewrite List.Forall_forall in Hz. auto.
Qed.

Lemma sorted_NoDup l : StronglySorted Z.lt l -> NoDup l.
Proof.
  induction l as [|z l IH]; intros Hs; [constructor|].
  apply StronglySorted_inv in Hs as [Hs Hz]. constructor; [|by apply IH].
  rewrite list_elem_of_In. intros Hin. rewrite List.Forall_forall in Hz.
  specialize (Hz z Hin). lia.
Qed.

Lemma np_unique_In x a : In x (np_unique a) <-> In x a.
Proof.
  unfold np_unique. induction a as [|y a IH]; simpl; [naive_solver|].
  rewrite In_insert_sorted, IH. naive_solver.
Qed.

Lemma np_unique_NoDup a : NoDup (np_unique a).
Proof.
  apply sorted_NoDup. unfold np_unique. induction a as [|y a IH]; simpl; [constructor|].
  by apply insert_sorted_sorted.
Qed.

Lemma lookup_map_Z (f : Z -> Z) (l : list Z) k : map f l !! k = option_map f (l !! k).
Proof. revert k. induction l as [|y l IH]; intros [|k]; simpl; auto. Qed.

Lemma np_unique_counts_ok p : size_ok p (np_unique_counts p).
Proof.
  unfold size_ok, np_unique_counts; simpl. split; [by rewrite length_map|].
  split; [apply np_unique_NoDup|]. split; [intros; apply np_unique_In|].
  intros k x Hk. rewrite lookup_map_Z, Hk. done.
Qed.

Lemma In_lookup {A} (l : list A) k x : l !! k = Some x -> In x l.
Proof. intros H. apply list_elem_of_In. by eapply list_elem_of_lookup_2. Qed.

Lemma lookup_In {A} (l : list A) x : In x l -> exists k, l !! k = Some x.
Proof. intros H. apply list_elem_of_lookup_1. by apply list_elem_of_In. Qed.

(** [sp.where(row == x)[0]] on a row without repeated values. *)
Lemma filter_absent (x : Z) (ids row : list Z) :
  ~ In x row -> filter (fun kv => snd kv =? x) (zip ids row) = [].
Proof.
  revert ids. induction row as [|y row IH]; intros [|z ids] Hx; try done.
  simpl zip. rewrite filter_cons_bool. simpl snd.
  rewrite (proj2 (Z.eqb_neq y x)) by (intros ->; apply Hx; by left).
  apply IH. intros H. apply Hx. by right.
Qed.

Lemma np_where_eq_from (x : Z) row : NoDup row ->
  forall s k, row !! k = Some x ->
  map fst (filter (fun kv => snd kv =? x) (zip (map Z.of_nat (seq s (length row))) row)) =
    [Z.of_nat (s + k)].
Proof.
  induction row as [|y row IH]; intros Hnd s k Hk; [done|].
  apply NoDup_cons in Hnd as [Hy Hnd]. rewrite list_elem_of_In in Hy.
  simpl length. simpl seq. simpl map. simpl zip. rewrite filter_cons_bool. simpl snd.
  destruct k as [|k]; simpl in Hk.
  - injection Hk as ->. rewrite Z.eqb_refl, filter_absent by done. simpl. do 2 f_equal. lia.
  - rewrite (proj2 (Z.eqb_neq y x)) by (intros ->; apply Hy; by eapply In_lookup).
    rewrite (IH Hnd (S s) k Hk). do 2 f_equal. lia.
Qed.

Lemma np_where_eq_at row x k : NoDup row -> row !! k = Some x -> np_where_eq row x = [Z.of_nat k].
Proof. intros Hnd Hk. exact (np_where_eq_from x row Hnd 0 k Hk). Qed.

(** The size update of a link keeps the table describing the array. *)
Lemma size_ok_merge p vals counts i j ki kj :
  size_ok p (vals, counts) -> vals !! ki = Some i -> vals !! kj = Some j -> i <> j ->
  size_ok (relink i j p) (merge_size (vals, counts) (Z.of_nat kj) (Z.of_nat ki)).
Proof.
  intros (Hlen & Hnd & Hin & Hcnt) Hki Hkj Hij. simpl in Hlen, Hnd, Hin, Hcnt.
  unfold merge_size. rewrite !Nat2Z.id.
  pose proof (Hcnt ki i Hki) as Hci. pose proof (Hcnt kj j Hkj) as Hcj.
  rewrite (list_lookup_total_correct counts ki _ Hci), (list_lookup_total_correct counts kj _ Hcj).
  assert (Hneq : ki <> kj) by (intros ->; congruence).
  pose proof (lookup_lt_Some _ _ _ Hki) as Hlki. pose proof (lookup_lt_Some _ _ _ Hkj) as Hlkj.
  set (counts' := <[kj := count_of j p + count_of i p]> counts).
  pose proof (delete_Permutation vals ki i Hki) as Hperm.
  assert (Hnd' : NoDup (i :: delete ki vals)) by (by rewrite <- Hperm).
  apply NoDup_cons in Hnd' as [Hni Hnd']. rewrite list_elem_of_In in Hni.
  (* the entry at a position [m <> ki] *)
  assert (Hm : forall m x, m <> ki -> vals !! m = Some x ->
             counts' !! m = Some (count_of x (relink i j p))).
  { intros m x Hmk Hmx. destruct (decide (m = kj)) as [->|Hmj].
    - assert (x = j) as -> by congruence.
      unfold counts'. rewrite list_lookup_insert_eq by lia.
      by rewrite count_of_relink_target.
    - unfold counts'. rewrite list_lookup_insert_ne by done.
      rewrite (Hcnt m x Hmx). rewrite count_of_relink_other; [done| |].
      + intros ->. apply Hmk. exact (NoDup_lookup vals m ki i Hnd Hmx Hki).
      + intros ->. apply Hmj. exact (NoDup_lookup vals m kj j Hnd Hmx Hkj). }
  unfold size_ok; simpl. split; [|split; [done|split]].
  - rewrite !length_delete; [unfold counts'; rewrite length_insert; lia| |].
    + apply lookup_lt_is_Some. done.
    + apply lookup_lt_is_Some. unfold counts'. rewrite length_insert. lia.
  - intros x. rewrite In_relink. split.
    + intros Hx. left. split; [|intros ->; by apply Hni].
      apply Hin. apply (Permutation_in _ (Permutation_sym Hperm)). by right.
    + intros [[Hx Hne]|[-> _]].
      * apply Hin in Hx. apply (Permutation_in _ Hperm) in Hx as [->|Hx]; [done|done].
      * pose proof (In_lookup _ _ _ Hkj) as Hj.
        apply (Permutation_in _ Hperm) in Hj as [->|Hj]; [done|done].
  - intros k x Hk. destruct (decide (k < ki)%nat).
    + rewrite list_lookup_delete_lt in Hk |- * by done. apply Hm; [lia|done].
    + rewrite list_lookup_delete_ge in Hk |- * by lia. apply Hm; [lia|done].
Qed.

End SizeTables.

Section ReadyInstance.

(** Flat forests: root-finds change nothing, relinking a root keeps them flat. *)
Lemma flat_iter p v m : flat_forest p -> in_range p v -> (1 <= m)%nat -> iter_par p m v = par p v.
Proof.
  intros Hfl Hv Hm. destruct m as [|m]; [lia|]. simpl.
  apply iter_par_root. apply Hfl, Hv.
Qed.

Lemma flat_root_of p v : flat_forest p -> in_range p v -> root_of p v = par p v.
Proof.
  intros Hfl Hv. unfold root_of. apply flat_iter; [done|done|].
  unfold in_range, np_len in Hv. lia.
Qed.

Lemma flat_forest_forest p : flat_forest p -> forest p.
Proof.
  intros Hfl. apply forest_spec. intros v Hv. split; [apply Hfl, Hv|].
  rewrite flat_root_of by done. apply Hfl, Hv.
Qed.

Lemma flat_ancestor_write p p' : flat_forest p -> ancestor_write p p' -> p' = p.
Proof.
  intros Hfl [Hlen Hanc]. apply list_eq. intros n.
  destruct (decide (n < length p)%nat) as [Hn|Hn].
  - assert (Hv : in_range p (Z.of_nat n)) by (unfold in_range, np_len; lia).
    pose proof (lookup_in_range p _ Hv) as Hp.
    pose proof (lookup_in_range p' (Z.of_nat n) ltac:(by apply (in_range_length p p'))) as Hp'.
    rewrite Nat2Z.id in Hp, Hp'. rewrite Hp, Hp'.
    destruct (Hanc _ Hv) as (m & Hm & ->). f_equal. by apply flat_iter.
  - rewrite !lookup_ge_None_2 by lia. done.
Qed.

Lemma par_relink p i j v :
  in_range p v -> par (relink i j p) v = if par p v =? i then j else par p v.
Proof.
  intros Hv. unfold par at 1, relink. rewrite lookup_map_Z, (lookup_in_range p v Hv). done.
Qed.

Lemma length_relink i j p : length (relink i j p) = length p.
Proof. apply length_map. Qed.

Lemma flat_forest_relink p i j :
  flat_forest p -> in_range p j -> is_root p j -> i <> j -> flat_forest (relink i j p).
Proof.
  intros Hfl Hj Hrj Hij v Hv. rewrite in_range_length in Hv by apply length_relink.
  rewrite !(in_range_length p (relink i j p)) by apply length_relink.
  destruct (Hfl v Hv) as [Hr Hroot]. rewrite par_relink by done.
  destruct (par p v =? i) eqn:E.
  - split; [done|]. unfold is_root. rewrite par_relink by done. rewrite Hrj.
    by rewrite (proj2 (Z.eqb_neq j i)) by congruence.
  - split; [done|]. unfold is_root. rewrite par_relink by done. rewrite Hroot. by rewrite E.
Qed.

Lemma root_In p r : in_range p r -> is_root p r -> In r p.
Proof.
  intros Hr Hroot. pose proof (lookup_in_range p r Hr) as H. rewrite Hroot in H.
  by eapply In_lookup.
Qed.

Lemma map_relink_insert p i j :
  in_range p i -> is_root p i -> i <> j ->
  map (fun r => if r =? i then j else r) (<[Z.to_nat i := j]> p) = relink i j p.
Proof.
  intros Hi Hroot Hij. unfold relink.
  assert (Hp : p !! Z.to_nat i = Some i) by (rewrite (lookup_in_range p i Hi); by rewrite Hroot).
  apply list_eq. intros n. rewrite !lookup_map_Z.
  destruct (decide (n = Z.to_nat i)) as [->|Hn].
  - rewrite list_lookup_insert_eq by (unfold in_range, np_len in Hi; lia). rewrite Hp. simpl.
    rewrite Z.eqb_refl. by rewrite (proj2 (Z.eqb_neq j i)) by congruence.
  - by rewrite list_lookup_insert_ne by congruence.
Qed.

(** The linking code of [build_weighted_quick_union], through the alias
    [self.roots=self.id_updated]. *)
Lemma link_roots st2 p x y s' :
  id_updated st2 = p -> roots st2 = Some RootsAliasId ->
  in_range p x -> is_root p x -> x <> y ->
  (let* _ := set_id_items [x] [y] in
   let* _ := replace_in_roots x y in
   set_size s') st2 =
  Ok (mk_quick_union_algs (relink x y p) (Some RootsAliasId) (Some s')) tt.
Proof.
  intros Hid Hro Hx Hrx Hxy.
  unfold bind at 1, set_id_items, on_id. rewrite Hid, np_broadcast_same by done.
  rewrite np_put_single by (unfold in_range, np_len in Hx; lia). cbv beta iota.
  unfold bind, replace_in_roots. simpl. rewrite Hro.
  rewrite map_relink_insert by done. unfold set_size, set_id. simpl. by rewrite Hro.
Qed.

(** The part of [build_weighted_quick_union] after the size table exists. *)
Lemma weighted_link_step st2 p s i j :
  id_updated st2 = p -> roots st2 = Some RootsAliasId -> size st2 = Some s -> size_ok p s ->
  flat_forest p -> in_range p i -> is_root p i -> in_range p j -> is_root p j -> i <> j ->
  exists s',
    (let* s := get_size in
     let* i_index := py_int (np_where_eq (fst s) i) in
     let* j_index := py_int (np_where_eq (fst s) j) in
     if (snd s) !!! Z.to_nat i_index <=? (snd s) !!! Z.to_nat j_index then
       let* _ := set_id_items [i] [j] in
       let* _ := replace_in_roots i j in
       set_size (merge_size s j_index i_index)
     else
       let* _ := set_id_items [j] [i] in
       let* _ := replace_in_roots j i in
       set_size (merge_size s i_index j_index)) st2 =
    Ok (mk_quick_union_algs
          (if count_of i p <=? count_of j p then relink i j p else relink j i p)
          (Some RootsAliasId) (Some s')) tt /\
    size_ok (if count_of i p <=? count_of j p then relink i j p else relink j i p) s'.
Proof.
  intros Hid Hro Hs Hok Hfl Hi Hri Hj Hrj Hij.
  destruct s as [vals counts].
  pose proof Hok as (Hlen & Hnd & Hin & Hcnt). simpl in Hlen, Hnd, Hin, Hcnt.
  destruct (lookup_In vals i (proj2 (Hin i) (root_In p i Hi Hri))) as [ki Hki].
  destruct (lookup_In vals j (proj2 (Hin j) (root_In p j Hj Hrj))) as [kj Hkj].
  unfold bind at 1, get_size. rewrite Hs. cbv beta iota. simpl fst; simpl snd.
  rewrite (np_where_eq_at vals i ki Hnd Hki), (np_where_eq_at vals j kj Hnd Hkj).
  unfold py_int, ret, bind at 1. cbv beta iota. unfold bind at 1. cbv beta iota.
  rewrite !Nat2Z.id.
  rewrite (list_lookup_total_correct counts ki _ (Hcnt ki i Hki)),
          (list_lookup_total_correct counts kj _ (Hcnt kj j Hkj)).
  destruct (count_of i p <=? count_of j p).
  - exists (merge_size (vals, counts) (Z.of_nat kj) (Z.of_nat ki)).
    rewrite (link_roots st2 p i j) by done. split; [done|].
    by apply size_ok_merge.
  - exists (merge_size (vals, counts) (Z.of_nat ki) (Z.of_nat kj)).
    rewrite (link_roots st2 p j i) by done. split; [done|].
    apply size_ok_merge; [done|done|done|congruence].
Qed.

Lemma flat_forest_link p i j :
  flat_forest p -> in_range p i -> is_root p i -> in_range p j -> is_root p j -> i <> j ->
  flat_forest (if count_of i p <=? count_of j p then relink i j p else relink j i p).
Proof.
  intros. destruct (count_of i p <=? count_of j p);
    apply flat_forest_relink; auto.
Qed.

End ReadyInstance.

Section Setup.

(** [find_root] in a documented mode stores each tested vertex's root as
    its parent. *)
Lemma find_root_tested_roots fuel st ids pc pct :
  forest (id_updated st) -> Forall (in_range (id_updated st)) ids ->
  (length (id_updated st) <= fuel)%nat -> pc_mode pct ->
  exists p', find_root fuel ids pc pct st = Ok (set_id st p') tt /\
    ancestor_write (id_updated st) p' /\
    (forall v, In v ids -> par p' v = root_of (id_updated st) v).
Proof.
  intros Hf Hv Hfuel Hpc. unfold find_root. destruct pc.
  - destruct (_root_path_compression_spec fuel st ids pct Hf Hv Hfuel Hpc)
      as (p1 & H1 & Haw1 & _).
    pose proof (ancestor_write_forest _ _ Hf Haw1) as [Hf1 Hr1].
    assert (Hv1 : Forall (in_range p1) ids).
    { eapply Forall_impl; [exact Hv|]. intros x Hx.
      by rewrite (in_range_length (id_updated st) p1) by apply Haw1. }
    assert (Hm : map (root_of (id_updated st)) ids = map (root_of (id_updated (set_id st p1))) ids).
    { apply map_ext_in. intros x Hx. rewrite List.Forall_forall in Hv. simpl.
      symmetry. auto. }
    destruct (set_id_items_roots (set_id st p1) ids Hf1 Hv1) as (p2 & H2 & Haw2 & Hin & _).
    simpl in Haw2, Hin. exists p2. unfold bind. rewrite H1, Hm, H2.
    split; [by rewrite set_id_twice|]. split; [by apply (ancestor_write_trans _ p1)|].
    intros v Hiv. rewrite Hin by done. apply Hr1. rewrite List.Forall_forall in Hv. auto.
  - destruct (set_id_items_roots st ids Hf Hv) as (p2 & H2 & Haw2 & Hin & _).
    exists p2. unfold bind. rewrite _root_spec by done. by rewrite H2.
Qed.

Lemma np_arange_in_range p : Forall (in_range p) (np_arange (length p)).
Proof.
  apply List.Forall_forall. intros v Hv. apply in_range_np_arange.
  by apply list_elem_of_In.
Qed.

End Setup.

(** The state [build_weighted_quick_union] needs can be reached with the
    class's own code: on a forest whose [size] does not exist yet,
    [find_root] over all vertices in a documented mode followed by
    [self.roots=self.id_updated] (the two steps [build_weighted_quick_union]
    writes for a missing [self.roots], with the keyword arguments [find_root]
    accepts) gives an instance ready for weighted unions, in which every
    vertex points at the root it had. *)
Theorem weighted_ready_setup fuel st pc pct :
  forest (id_updated st) -> size st = None ->
  (length (id_updated st) <= fuel)%nat -> pc_mode pct ->
  exists st', (let* _ := find_root fuel (np_arange (length (id_updated st))) pc pct in
               set_roots RootsAliasId) st = Ok st' tt /\
    weighted_ready st' /\
    (forall v, in_range (id_updated st) v -> par (id_updated st') v = root_of (id_updated st) v).
Proof.
  intros Hf Hs Hfuel Hpc.
  destruct (find_root_tested_roots fuel st _ pc pct Hf (np_arange_in_range _) Hfuel Hpc)
    as (p' & Hrun & [Hlen _] & Hin).
  assert (Hall : forall v, in_range (id_updated st) v -> par p' v = root_of (id_updated st) v).
  { intros v Hv. apply Hin. apply list_elem_of_In. by apply in_range_np_arange. }
  exists (mk_quick_union_algs p' (Some RootsAliasId) (size st)).
  unfold bind. rewrite Hrun. split; [done|]. split; [|exact Hall].
  split; [done|]. simpl. rewrite Hs. split; [|done].
  intros v Hv. rewrite (in_range_length (id_updated st) p' v Hlen) in Hv.
  pose proof (root_of_in_range _ v Hf Hv) as Hr.
  pose proof (forest_root_of_root _ v Hf Hv) as Hroot.
  rewrite Hall by done.
  split; [by rewrite (in_range_length (id_updated st) p')|].
  unfold is_root. rewrite Hall by done. by apply root_of_fixed.
Qed.

(** [build_weighted_quick_union(a, b)] on an instance ready for weighted
    unions, with in-range ids and a documented compression type: the
    root-finds change nothing, and it returns after changing nothing when
    [a] and [b] have one root [i = j].  Otherwise it builds the size table
    if missing, and every vertex of the component of [i] is re-pointed to
    [j] when that component has at most as many vertices as the one of [j]
    (the number of entries equal to a root), and every vertex of the
    component of [j] to [i] otherwise; the instance stays ready (the
    forest flat, [roots] the alias, the size table exact). *)
Theorem weighted_union_by_size fuel st a b pc pct :
  weighted_ready st -> in_range (id_updated st) a -> in_range (id_updated st) b ->
  (length (id_updated st) <= fuel)%nat -> pc_mode pct ->
  exists st', build_weighted_quick_union fuel (PyInt a) (PyInt b) pc pct st = Ok st' tt /\
    weighted_ready st' /\
    id_updated st' =
      (let p := id_updated st in
       let i := par p a in
       let j := par p b in
       if i =? j then p
       else if count_of i p <=? count_of j p then relink i j p else relink j i p).
Proof.
  intros (Hro & Hfl & Hsz) Ha Hb Hfuel Hpc. simpl.
  pose proof (flat_forest_forest _ Hfl) as Hf.
  destruct (scalar_root_find fuel st a pc pct Hf Ha Hfuel Hpc) as (p1 & Haw1 & H1).
  rewrite (flat_ancestor_write _ p1 Hfl Haw1), set_id_id, flat_root_of in H1 by done.
  destruct (scalar_root_find fuel st b pc pct Hf Hb Hfuel Hpc) as (p2 & Haw2 & H2).
  rewrite (flat_ancestor_write _ p2 Hfl Haw2), set_id_id, flat_root_of in H2 by done.
  destruct (Hfl a Ha) as [Hia Hra]. destruct (Hfl b Hb) as [Hib Hrb].
  unfold build_weighted_quick_union, build_weighted_quick_union_kw.
  unfold bind at 1. rewrite H1. unfold bind at 1. rewrite H2. cbv beta iota delta [scalar_of].
  destruct (par (id_updated st) a =? par (id_updated st) b) eqn:Eij.
  - exists st. split; [done|]. split; [done|done].
  - apply Z.eqb_neq in Eij. unfold bind at 1, get. cbv beta iota.
    destruct (size st) as [s|] eqn:Hs.
    + unfold bind at 1, ret. cbv beta iota.
      destruct (weighted_link_step st (id_updated st) s _ _ eq_refl Hro Hs Hsz Hfl
                  Hia Hra Hib Hrb Eij) as (s' & Hrun & Hok).
      rewrite Hrun. eexists. split; [done|]. split; [|done].
      split; [done|]. split; [by apply flat_forest_link|exact Hok].
    + assert (Hbs : build_size fuel "pc_type" pc pct st =
                    Ok (mk_quick_union_algs (id_updated st) (Some RootsAliasId)
                          (Some (np_unique_counts (id_updated st)))) tt).
      { unfold build_size, bind, get, roots_array, ret, set_size.
        destruct st as [p r sz]. simpl in *. subst r. simpl. by rewrite Nat.eqb_refl. }
      unfold bind at 1. rewrite Hbs. cbv beta iota.
      destruct (weighted_link_step (mk_quick_union_algs (id_updated st) (Some RootsAliasId)
                                      (Some (np_unique_counts (id_updated st))))
                  (id_updated st) (np_unique_counts (id_updated st)) _ _
                  eq_refl eq_refl eq_refl (np_unique_counts_ok _) Hfl
                  Hia Hra Hib Hrb Eij) as (s' & Hrun & Hok).
      rewrite Hrun. eexists. split; [done|]. split; [|done].
      split; [done|]. split; [by apply flat_forest_link|exact Hok].
Qed.

Lemma weighted_ready_setup_witness :
  forest scenario /\ size (init scenario) = None /\ (length scenario <= 11)%nat /\
  pc_mode "full_pc" /\
  exists st', (let* _ := find_root 11 (np_arange (length scenario)) true "full_pc" in
               set_roots RootsAliasId) (init scenario) = Ok st' tt /\
    weighted_ready st' /\
    (forall v, in_range scenario v -> par (id_updated st') v = root_of scenario v).
Proof.
  assert (Hf : forest scenario) by reflexivity.
  assert (Hpc : pc_mode "full_pc") by (by right).
  split; [exact Hf|split; [reflexivity|split; [simpl; lia|split; [exact Hpc|]]]].
  exact (weighted_ready_setup 11 (init scenario) true "full_pc" Hf eq_refl ltac:(simpl; lia) Hpc).
Defined.

Lemma weighted_union_by_size_witness :
  weighted_ready (mk_quick_union_algs [0; 0; 0; 3; 3; 5] (Some RootsAliasId) None) /\
  in_range [0; 0; 0; 3; 3; 5] 4 /\ in_range [0; 0; 0; 3; 3; 5] 1 /\
  (length [0; 0; 0; 3; 3; 5] <= 6)%nat /\ pc_mode "full_pc" /\
  exists st', build_weighted_quick_union 6 (PyInt 4) (PyInt 1) true "full_pc"
                (mk_quick_union_algs [0; 0; 0; 3; 3; 5] (Some RootsAliasId) None) = Ok st' tt /\
    weighted_ready st' /\
    id_updated st' =
      (let p := [0; 0; 0; 3; 3; 5] in
       let i := par p 4 in
       let j := par p 1 in
       if i =? j then p
       else if count_of i p <=? count_of j p then relink i j p else relink j i p).
Proof.
  assert (Hready : weighted_ready (mk_quick_union_algs [0; 0; 0; 3; 3; 5] (Some RootsAliasId) None)).
  { split; [reflexivity|split; [|exact I]].
    intros v Hv. unfold in_range, np_len in Hv. simpl in Hv.
    assert (v = 0 \/ v = 1 \/ v = 2 \/ v = 3 \/ v = 4 \/ v = 5) as Hc by lia.
    unfold in_range, is_root, np_len.
    destruct Hc as [-> | [-> | [-> | [-> | [-> | ->]]]]]; (split; [unfold par; simpl; lia|reflexivity]). }
  assert (H4 : in_range [0; 0; 0; 3; 3; 5] 4) by (unfold in_range, np_len; simpl; lia).
  assert (H1 : in_range [0; 0; 0; 3; 3; 5] 1) by (unfold in_range, np_len; simpl; lia).
  assert (Hpc : pc_mode "full_pc") by (by right).
  split; [exact Hready|split; [exact H4|split; [exact H1|split; [simpl; lia|split; [exact Hpc|]]]]].
  exact (weighted_union_by_size 6 _ 4 1 true "full_pc" Hready H4 H1 ltac:(simpl; lia) Hpc).
Defined.

(* ------------------------------------------------------------------ *)
(** ** A second [find_root] on the same elements changes nothing *)

Section FlatBatches.

Lemma roots_in_range p ids :
  forest p -> Forall (in_range p) ids -> Forall (in_range p) (map (root_of p) ids).
Proof.
  intros Hf Hv. apply List.Forall_map. eapply List.Forall_impl; [|exact Hv].
  intros x Hx. by apply root_of_in_range.
Qed.

Lemma map_par_roots p ids :
  forest p -> Forall (in_range p) ids -> map (par p) (map (root_of p) ids) = map (root_of p) ids.
Proof.
  intros Hf Hv. rewrite map_map. apply map_ext_in. intros x Hx.
  rewrite List.Forall_forall in Hv. by apply forest_root_of_root, Hv.
Qed.

Lemma np_put_roots_flat p ids :
  forest p -> Forall (in_range p) ids -> (forall x, In x ids -> flat p x) ->
  np_put p ids (map (root_of p) ids) = Some p.
Proof.
  intros Hf Hv Hfl. rewrite np_put_in_range by done. f_equal. apply write_all_same.
  intros n x Hin. destruct (in_zip_map_fst Z.to_nat ids _ n x Hin) as (a & Ha & <-).
  pose proof (in_zip_map (root_of p) ids a x Ha) as ->.
  pose proof (in_zip_l _ _ _ _ Ha) as Hai. rewrite List.Forall_forall in Hv.
  rewrite lookup_in_range by auto. f_equal. by apply Hfl.
Qed.

Lemma halving_while_flat fuel p ids :
  forest p -> Forall (in_range p) ids -> (length p <= fuel)%nat ->
  (forall x, In x ids -> flat p x) ->
  halving_while fuel p ids = Ok p (map (root_of p) ids).
Proof.
  intros Hf Hv Hfuel Hfl.
  assert (Hm : map (par p) ids = map (root_of p) ids)
    by (apply map_ext_in; intros e He; by apply Hfl).
  destruct fuel as [|f]; simpl; rewrite np_take_in_range, Hm by done.
  - destruct ids as [|x ids]; [done|].
    inversion Hv as [|? ? Hx _]. unfold in_range, np_len in Hx. lia.
  - destruct (np_any_ne ids (map (root_of p) ids)) eqn:Hne.
    + rewrite np_take_in_range by (by apply roots_in_range).
      rewrite map_par_roots, np_put_roots_flat by done.
      rewrite np_take_in_range, Hm by done.
      destruct f; simpl; rewrite np_take_in_range by (by apply roots_in_range);
        rewrite map_par_roots, np_any_ne_refl by done; done.
    + apply np_any_ne_false_eq in Hne; [|by rewrite length_map].
      by rewrite <- Hne.
Qed.

Lemma root_path_compression_flat fuel p ids pct :
  forest p -> Forall (in_range p) ids -> (length p <= fuel)%nat -> pc_mode pct ->
  (forall x, In x ids -> flat p x) ->
  root_path_compression fuel p ids pct = Ok p (map (root_of p) ids).
Proof.
  intros Hf Hv Hfuel Hpc Hfl. unfold root_path_compression.
  destruct Hpc as [->| ->]; simpl; [by apply halving_while_flat|].
  rewrite root_while_spec by (done || by apply within_length).
  by rewrite full_while_flat.
Qed.

End FlatBatches.

(** After [find_root] on in-range elements of a forest, with either value of
    [path_compression] and a documented compression type, running the same
    [find_root] call again returns the state unchanged. *)
Theorem find_root_idempotent fuel st ids pc pct :
  forest (id_updated st) -> Forall (in_range (id_updated st)) ids ->
  (length (id_updated st) <= fuel)%nat -> pc_mode pct ->
  exists st', find_root fuel ids pc pct st = Ok st' tt /\
    find_root fuel ids pc pct st' = Ok st' tt.
Proof.
  intros Hf Hv Hfuel Hpc.
  destruct (find_root_tested_roots fuel st ids pc pct Hf Hv Hfuel Hpc) as (p' & Hrun & Haw & Hin).
  pose proof (ancestor_write_forest _ _ Hf Haw) as [Hf' Hr'].
  assert (Hl : length p' = length (id_updated st)) by apply Haw.
  assert (Hv' : Forall (in_range p') ids).
  { eapply List.Forall_impl; [|exact Hv]. intros x Hx. by rewrite (in_range_length (id_updated st) p'). }
  assert (Hfl : forall x, In x ids -> flat p' x).
  { intros x Hx. unfold flat. rewrite Hin, Hr' by (done || (rewrite List.Forall_forall in Hv; auto)).
    done. }
  exists (set_id st p'). split; [done|].
  unfold find_root, bind. destruct pc.
  - unfold _root_path_compression, on_id. simpl.
    rewrite root_path_compression_flat by (done || lia).
    unfold set_id_items, on_id. simpl. rewrite np_broadcast_map, np_put_roots_flat by done.
    by rewrite !set_id_twice.
  - rewrite _root_spec by (simpl; (done || lia)).
    unfold set_id_items, on_id. simpl. rewrite np_broadcast_map, np_put_roots_flat by done.
    by rewrite set_id_twice.
Qed.

Lemma find_root_idempotent_witness :
  forest scenario /\ Forall (in_range scenario) [10; 6] /\ (length scenario <= 11)%nat /\
  pc_mode "full_pc" /\
  exists st', find_root 11 [10; 6] true "full_pc" (init scenario) = Ok st' tt /\
    find_root 11 [10; 6] true "full_pc" st' = Ok st' tt.
Proof.
  assert (Hf : forest scenario) by reflexivity.
  assert (Hv : Forall (in_range scenario) [10; 6])
    by (repeat constructor; unfold in_range, np_len; simpl; lia).
  assert (Hpc : pc_mode "full_pc") by (by right).
  split; [exact Hf|split; [exact Hv|split; [simpl; lia|split; [exact Hpc|]]]].
  exact (find_root_idempotent 11 (init scenario) [10; 6] true "full_pc" Hf Hv
           ltac:(simpl; lia) Hpc).
Defined.
